(** * GeometryExplorer: a model of the scene lifecycle of
    [src/components/GeometryExplorer/GeometryExplorer.tsx]

    The component is modelled as it runs.  JavaScript numbers are IEEE-754
    binary64 values (Rocq's primitive floats).  The browser's [localStorage]
    is a finite map from strings to strings.  The objects of three.js live in
    a heap indexed by allocation order, and the closures of the scene effect
    are the handles they close over.  React's effects are computations on
    that world, run in the order React runs them, and what happens to the
    page (the first render, clicks, display refreshes, resizes, the unmount)
    is a sequence of events, each handled to completion before the next.

    The platform functions that the component calls ([JSON.parse],
    [JSON.stringify], [requestAnimationFrame], the constructors and methods
    of three.js, the DOM) are modelled from their specifications; those of
    three.js and the DOM are taken not to throw.  The [console.log] calls
    are left out.  That [JSON.parse] reads back the rotation that
    [JSON.stringify] wrote is proved of the model, from the rounding of
    binary64 and the digits of [Number::toString].  Of the markup that the component returns, the parts that
    depend on its state are modelled: the buttons, with their labels, the
    colours of their style and their click handlers. *)

From Stdlib Require Import Floats ZArith Ascii String DecimalString.
From Stdlib Require DecimalFacts DecimalPos DecimalN.
From stdpp Require Import base option list strings gmap.

Set Warnings "-inexact-float,-register-all".
Local Open Scope Z_scope.

(** ** JavaScript values *)

(** A JavaScript number is a binary64 float. *)
Abbreviation number := float.

Inductive JsValue : Type :=
| JsUndefined
| JsNull
| JsBoolean (b : bool)
| JsNumber (n : number)
| JsString (s : string)
| JsArray (elems : list JsValue)
| JsObject (props : list (string * JsValue)).

Inductive JsError : Type :=
| SyntaxError
| TypeError.

(** The outcome of evaluating an expression or statement: a value, or a
    thrown exception. *)
Inductive Completion (A : Type) : Type :=
| Normal (a : A)
| Throw (e : JsError).
Arguments Normal {A} a.
Arguments Throw {A} e.

(** [typeof v], as the string the operator returns. *)
Definition typeof (v : JsValue) : string :=
  match v with
  | JsUndefined => "undefined"
  | JsNull => "object"
  | JsBoolean _ => "boolean"
  | JsNumber _ => "number"
  | JsString _ => "string"
  | JsArray _ => "object"
  | JsObject _ => "object"
  end.

(** ToBoolean on numbers: [0], [-0] and [NaN] are falsy. *)
Definition number_truthy (n : number) : bool :=
  negb (is_zero n || is_nan n).

(** ToBoolean on strings: only the empty string is falsy. *)
Definition string_truthy (s : string) : bool :=
  match s with
  | EmptyString => false
  | String _ _ => true
  end.

(** ToBoolean. *)
Definition truthy (v : JsValue) : bool :=
  match v with
  | JsUndefined | JsNull => false
  | JsBoolean b => b
  | JsNumber n => number_truthy n
  | JsString s => string_truthy s
  | JsArray _ | JsObject _ => true
  end.

(** Own properties of an object, in insertion order.  A later definition of
    an existing key replaces the value and keeps the key's position. *)
Fixpoint props_lookup (k : string) (props : list (string * JsValue)) : option JsValue :=
  match props with
  | [] => None
  | (k', v) :: rest => if String.eqb k k' then Some v else props_lookup k rest
  end.

Fixpoint props_set (k : string) (v : JsValue) (props : list (string * JsValue))
  : list (string * JsValue) :=
  match props with
  | [] => [(k, v)]
  | (k', v') :: rest =>
      if String.eqb k k' then (k, v) :: rest else (k', v') :: props_set k v rest
  end.

(** The member expression [v.k] for a key [k] that no prototype defines (such
    as [x], [y] and [z]): reading a property of [undefined] or [null] throws a
    TypeError, an object yields its own property or [undefined], and every
    other value yields [undefined]. *)
Definition get_prop (v : JsValue) (k : string) : Completion JsValue :=
  match v with
  | JsUndefined | JsNull => Throw TypeError
  | JsObject props => Normal (default JsUndefined (props_lookup k props))
  | _ => Normal JsUndefined
  end.

(** ** Decimal literals and binary64 *)

(** The number that the decimal [(-1)^neg * m * 10^e10] denotes, rounded to
    the nearest binary64 value, ties to even; a magnitude past the largest
    finite value becomes an infinity. *)
Definition decimal_to_number (neg : bool) (m : Z) (e10 : Z) : number :=
  SF2Prim
    match m with
    | Zpos _ =>
        if 0 <=? e10 then
          match m * 10 ^ e10 with
          | Zpos p => binary_round prec emax neg p 0
          | _ => S754_zero neg
          end
        else
          let d := 10 ^ (- e10) in
          let s := Z.log2 d + 64 in
          let '(q, r) := Z.div_eucl (Z.shiftl m s) d in
          binary_round_aux prec emax neg q (- s) (new_location d r)
    | _ => S754_zero neg
    end.

Definition digits_of_Z (z : Z) : string :=
  NilZero.string_of_uint (N.to_uint (Z.to_N z)).

Fixpoint zeros (n : nat) : string :=
  match n with
  | O => ""
  | S n' => String "0"%char (zeros n')
  end.

(** Drops the trailing zeros of a digit count: [s * 10^p] with [s] not a
    multiple of ten. *)
Fixpoint strip_zeros (fuel : nat) (s p : Z) : Z * Z :=
  match fuel with
  | O => (s, p)
  | S fuel' =>
      if (0 <? s) && (s mod 10 =? 0) then strip_zeros fuel' (s / 10) (p + 1)
      else (s, p)
  end.

(** The shortest decimal [s * 10^p] that reads back as [x], for a positive
    finite [x = num / den]: the position [p] of the last digit goes down from
    the decade of [x] until one of the two neighbours of [x] on the grid
    [10^p] reads back as [x]; of two that do, the closer one is taken, and the
    even one on a tie. *)
Fixpoint shortest_decimal (fuel : nat) (x : number) (num den : Z) (p : Z) : Z * Z :=
  let a := if 0 <=? p then num else num * 10 ^ (- p) in
  let b := if 0 <=? p then den * 10 ^ p else den in
  let lo := a / b in
  let hi := lo + 1 in
  let lo_ok := PrimFloat.eqb (decimal_to_number false lo p) x in
  let hi_ok := PrimFloat.eqb (decimal_to_number false hi p) x in
  let pick_lo :=
    match 2 * a ?= (2 * lo + 1) * b with
    | Lt => true
    | Eq => Z.even lo
    | Gt => false
    end in
  match fuel with
  | O => (lo, p)
  | S fuel' =>
      if lo_ok && hi_ok then (if pick_lo then (lo, p) else (hi, p))
      else if lo_ok then (lo, p)
      else if hi_ok then (hi, p)
      else shortest_decimal fuel' x num den (p - 1)
  end.

(** The decade of a positive [num / den]: an [n] with [num / den < 10^n]. *)
Definition decade (num den : Z) : Z :=
  if num <? den then 1 - Z.of_nat (String.length (digits_of_Z (den / num)))
  else Z.of_nat (String.length (digits_of_Z (num / den))).

Definition string_take (n : nat) (s : string) : string := String.substring 0 n s.
Definition string_drop (n : nat) (s : string) : string :=
  String.substring n (String.length s - n) s.

(** Number::toString in radix 10 for the digits [ds] (there are [k] of them)
    and the decimal point position [n]: the value is [0.ds * 10^n]. *)
Definition format_decimal (ds : string) (n : Z) : string :=
  let k := Z.of_nat (String.length ds) in
  if (k <=? n) && (n <=? 21) then
    ds +:+ zeros (Z.to_nat (n - k))
  else if (0 <? n) && (n <=? 21) then
    string_take (Z.to_nat n) ds +:+ "." +:+ string_drop (Z.to_nat n) ds
  else if (-6 <? n) && (n <=? 0) then
    "0." +:+ zeros (Z.to_nat (- n)) +:+ ds
  else
    let e := n - 1 in
    let exponent := (if 0 <=? e then "+" else "-") +:+ digits_of_Z (Z.abs e) in
    if k =? 1 then ds +:+ "e" +:+ exponent
    else string_take 1 ds +:+ "." +:+ string_drop 1 ds +:+ "e" +:+ exponent.

(** Number::toString(x). *)
Definition number_to_string (x : number) : string :=
  if is_nan x then "NaN"
  else if is_zero x then "0"
  else if is_infinity x then (if get_sign x then "-Infinity" else "Infinity")
  else
    match Prim2SF (abs x) with
    | S754_finite _ m e =>
        let num := if 0 <=? e then Zpos m * 2 ^ e else Zpos m in
        let den := if 0 <=? e then 1 else 2 ^ (- e) in
        let '(s, p) := shortest_decimal 400 (abs x) num den (decade num den) in
        let '(s, p) := strip_zeros 400 s p in
        let ds := digits_of_Z s in
        (if get_sign x then "-" else "")
          +:+ format_decimal ds (p + Z.of_nat (String.length ds))
    | _ => "NaN"
    end.

(** ** JSON *)

(** The platform's [JSON] object, after ECMA-404 and ECMA-262.  Strings are
    byte strings: an escape [\uXXXX] is stored as the UTF-8 bytes of its code
    unit. *)
Module JSON.

Definition dquote : ascii := "034"%char.
Definition backslash : ascii := "092"%char.

Definition is_ws (c : ascii) : bool :=
  let n := nat_of_ascii c in
  (n =? 32)%nat || (n =? 9)%nat || (n =? 10)%nat || (n =? 13)%nat.

Definition is_digit (c : ascii) : bool :=
  let n := nat_of_ascii c in (48 <=? n)%nat && (n <=? 57)%nat.

Definition digit_value (c : ascii) : Z := Z.of_nat (nat_of_ascii c) - 48.

Definition hex_value (c : ascii) : option Z :=
  let n := Z.of_nat (nat_of_ascii c) in
  if (48 <=? n) && (n <=? 57) then Some (n - 48)
  else if (65 <=? n) && (n <=? 70) then Some (n - 55)
  else if (97 <=? n) && (n <=? 102) then Some (n - 87)
  else None.

Fixpoint skip_ws (s : string) : string :=
  match s with
  | String c rest => if is_ws c then skip_ws rest else s
  | EmptyString => s
  end.

(** The longest prefix of digits: its value, its length, and what follows. *)
Fixpoint take_digits (acc : Z) (len : Z) (s : string) : Z * Z * string :=
  match s with
  | String c rest =>
      if is_digit c then take_digits (acc * 10 + digit_value c) (len + 1) rest
      else (acc, len, s)
  | EmptyString => (acc, len, s)
  end.

(** int: a single [0], or a non-zero digit followed by digits. *)
Definition parse_int (s : string) : option (Z * string) :=
  match s with
  | String c rest =>
      if negb (is_digit c) then None
      else if (nat_of_ascii c =? 48)%nat then Some (0, rest)
      else let '(m, _, rest') := take_digits 0 0 s in Some (m, rest')
  | EmptyString => None
  end.

(** frac: nothing, or a point followed by at least one digit.  The digits
    extend the mantissa [m]; the result carries their count. *)
Definition parse_frac (m : Z) (s : string) : option (Z * Z * string) :=
  match s with
  | String "." rest =>
      let '(m', len, rest') := take_digits m 0 rest in
      if len =? 0 then None else Some (m', len, rest')
  | _ => Some (m, 0, s)
  end.

(** exp: nothing, or [e] or [E], an optional sign and at least one digit. *)
Definition parse_exp (s : string) : option (Z * string) :=
  let digits (neg : bool) (s' : string) :=
    let '(e, len, rest) := take_digits 0 0 s' in
    if len =? 0 then None else Some (if neg then - e else e, rest) in
  let signed (s' : string) :=
    match s' with
    | String "+" rest => digits false rest
    | String "-" rest => digits true rest
    | _ => digits false s'
    end in
  match s with
  | String "e" rest => signed rest
  | String "E" rest => signed rest
  | _ => Some (0, s)
  end.

Definition parse_number (s : string) : option (number * string) :=
  let '(neg, s1) :=
    match s with
    | String "-" rest => (true, rest)
    | _ => (false, s)
    end in
  '(m, s2) ← parse_int s1;
  '(m', flen, s3) ← parse_frac m s2;
  '(e, s4) ← parse_exp s3;
  Some (decimal_to_number neg m' (e - flen), s4).

(** The UTF-8 bytes of a code unit below 2^16. *)
Definition utf8 (u : Z) : string :=
  let byte (z : Z) := ascii_of_nat (Z.to_nat z) in
  if u <? 128 then String (byte u) ""
  else if u <? 2048 then
    String (byte (192 + u / 64)) (String (byte (128 + u mod 64)) "")
  else
    String (byte (224 + u / 4096))
      (String (byte (128 + (u / 64) mod 64)) (String (byte (128 + u mod 64)) "")).

Definition unescape (c : ascii) : option ascii :=
  let n := nat_of_ascii c in
  if (n =? 34)%nat then Some dquote
  else if (n =? 92)%nat then Some backslash
  else if (n =? 47)%nat then Some "/"%char
  else if (n =? 98)%nat then Some "008"%char
  else if (n =? 102)%nat then Some "012"%char
  else if (n =? 110)%nat then Some "010"%char
  else if (n =? 114)%nat then Some "013"%char
  else if (n =? 116)%nat then Some "009"%char
  else None.

(** The characters of a string literal after its opening quote, up to the
    closing quote: the string, and what follows the closing quote. *)
Fixpoint parse_chars (s : string) : option (string * string) :=
  match s with
  | EmptyString => None
  | String c rest =>
      if (nat_of_ascii c =? 34)%nat then Some ("", rest)
      else if (nat_of_ascii c <? 32)%nat then None
      else if (nat_of_ascii c =? 92)%nat then
        match rest with
        | String "u" (String h1 (String h2 (String h3 (String h4 rest')))) =>
            a ← hex_value h1; b ← hex_value h2; c' ← hex_value h3; d ← hex_value h4;
            '(str, rest'') ← parse_chars rest';
            Some (utf8 (((a * 16 + b) * 16 + c') * 16 + d) +:+ str, rest'')
        | String e rest' =>
            e' ← unescape e;
            '(str, rest'') ← parse_chars rest';
            Some (String e' str, rest'')
        | EmptyString => None
        end
      else
        '(str, rest') ← parse_chars rest;
        Some (String c str, rest')
  end.

Definition expect (lit : string) (v : JsValue) (s : string) : option (JsValue * string) :=
  if String.prefix lit s
  then Some (v, string_drop (String.length lit) s)
  else None.

Section Structured.
(** The parser of the values nested one level down. *)
Variable parse_value : string → option (JsValue * string).

(** The elements of an array after the first one, up to the closing
    bracket. *)
Fixpoint parse_elements (n : nat) (acc : list JsValue) (s : string)
  : option (JsValue * string) :=
  match n with
  | O => None
  | S n' =>
      match skip_ws s with
      | String "]" rest => Some (JsArray acc, rest)
      | String "," rest =>
          '(v, rest') ← parse_value (skip_ws rest);
          parse_elements n' (acc ++ [v]) rest'
      | _ => None
      end
  end.

Definition parse_array (n : nat) (s : string) : option (JsValue * string) :=
  match skip_ws s with
  | String "]" rest => Some (JsArray [], rest)
  | s' =>
      '(v, rest) ← parse_value s';
      parse_elements n [v] rest
  end.

(** One member: a string, a colon and a value. *)
Definition parse_member (acc : list (string * JsValue)) (s : string)
  : option (list (string * JsValue) * string) :=
  match skip_ws s with
  | String c rest =>
      if (nat_of_ascii c =? 34)%nat then
        '(k, rest1) ← parse_chars rest;
        match skip_ws rest1 with
        | String ":" rest2 =>
            '(v, rest3) ← parse_value (skip_ws rest2);
            Some (props_set k v acc, rest3)
        | _ => None
        end
      else None
  | EmptyString => None
  end.

(** The members of an object after the first one, up to the closing
    brace. *)
Fixpoint parse_members (n : nat) (acc : list (string * JsValue)) (s : string)
  : option (JsValue * string) :=
  match n with
  | O => None
  | S n' =>
      match skip_ws s with
      | String "}" rest => Some (JsObject acc, rest)
      | String "," rest =>
          '(acc', rest') ← parse_member acc rest;
          parse_members n' acc' rest'
      | _ => None
      end
  end.

Definition parse_object (n : nat) (s : string) : option (JsValue * string) :=
  match skip_ws s with
  | String "}" rest => Some (JsObject [], rest)
  | s' =>
      '(acc, rest) ← parse_member [] s';
      parse_members n acc rest
  end.
End Structured.

(** A value at the head of [s] (white space already skipped); [fuel] bounds
    the nesting depth and the number of members of a structure. *)
Fixpoint parse_value (fuel : nat) (s : string) : option (JsValue * string) :=
  match fuel with
  | O => None
  | S fuel' =>
      match s with
      | String "{" rest => parse_object (parse_value fuel') (String.length s) rest
      | String "[" rest => parse_array (parse_value fuel') (String.length s) rest
      | String "t" _ => expect "true" (JsBoolean true) s
      | String "f" _ => expect "false" (JsBoolean false) s
      | String "n" _ => expect "null" JsNull s
      | String c rest =>
          if (nat_of_ascii c =? 34)%nat then
            '(str, rest') ← parse_chars rest;
            Some (JsString str, rest')
          else
            '(n, rest') ← parse_number s;
            Some (JsNumber n, rest')
      | EmptyString => None
      end
  end.

(** [JSON.parse(text)]: the value the whole text denotes, or a SyntaxError. *)
Definition parse (text : string) : Completion JsValue :=
  match parse_value (S (String.length text)) (skip_ws text) with
  | Some (v, rest) =>
      match skip_ws rest with
      | EmptyString => Normal v
      | String _ _ => Throw SyntaxError
      end
  | None => Throw SyntaxError
  end.

Definition hex_digit (z : Z) : ascii :=
  ascii_of_nat (Z.to_nat (if z <? 10 then 48 + z else 87 + z)).

(** QuoteJSONString, without the quotes around it. *)
Fixpoint quote_chars (s : string) : string :=
  match s with
  | EmptyString => ""
  | String c rest =>
      let n := nat_of_ascii c in
      (if (n =? 34)%nat then String backslash (String dquote "")
       else if (n =? 92)%nat then String backslash (String backslash "")
       else if (n =? 8)%nat then String backslash "b"
       else if (n =? 12)%nat then String backslash "f"
       else if (n =? 10)%nat then String backslash "n"
       else if (n =? 13)%nat then String backslash "r"
       else if (n =? 9)%nat then String backslash "t"
       else if (n <? 32)%nat then
         String backslash
           ("u00" +:+ String (hex_digit (Z.of_nat n / 16))
                        (String (hex_digit (Z.of_nat n mod 16)) ""))
       else String c "")
      +:+ quote_chars rest
  end.

Definition quote (s : string) : string :=
  String dquote (quote_chars s) +:+ String dquote "".

Fixpoint join (sep : string) (parts : list string) : string :=
  match parts with
  | [] => ""
  | [p] => p
  | p :: rest => p +:+ sep +:+ join sep rest
  end.

(** SerializeJSONProperty: [None] is the [undefined] that [undefined]
    itself serializes to.  A number that is not finite serializes to
    [null]. *)
Fixpoint serialize (v : JsValue) : option string :=
  match v with
  | JsUndefined => None
  | JsNull => Some "null"
  | JsBoolean true => Some "true"
  | JsBoolean false => Some "false"
  | JsNumber n => Some (if is_finite n then number_to_string n else "null")
  | JsString s => Some (quote s)
  | JsArray elems =>
      Some ("[" +:+ join "," (map (λ e, default "null" (serialize e)) elems) +:+ "]")
  | JsObject props =>
      Some ("{" +:+
            join ","
              (omap (λ kv, match kv with
                           | (k, v') => (λ t, quote k +:+ ":" +:+ t) <$> serialize v'
                           end) props)
            +:+ "}")
  end.

(** [JSON.stringify(value)]. *)
Definition stringify (v : JsValue) : option string := serialize v.

End JSON.

Local Close Scope Z_scope.

(** ** The three.js objects the component creates *)

Record Vector3 : Type := { vx : number; vy : number; vz : number }.

(** [mesh.rotation]: Euler angles in radians. *)
Record Euler : Type := { rot_x : number; rot_y : number; rot_z : number }.

(** The rotation of a new [Mesh]. *)
Definition Euler_default : Euler := {| rot_x := 0; rot_y := 0; rot_z := 0 |}.

(** The geometry constructors of the catalogue, with their arguments. *)
Inductive BufferGeometry : Type :=
| BoxGeometry (width height depth : number)
| SphereGeometry (radius : number) (widthSegments heightSegments : nat)
| PlaneGeometry (width height : number)
| ConeGeometry (radius height : number) (radialSegments : nat)
| CylinderGeometry (radiusTop radiusBottom height : number) (radialSegments : nat)
| TorusGeometry (radius tube : number) (radialSegments tubularSegments : nat)
| TorusKnotGeometry (radius tube : number) (tubularSegments radialSegments : nat)
| RingGeometry (innerRadius outerRadius : number) (thetaSegments : nat).

(** [needsUpdate = true] increments the material's [version]. *)
Record MeshPhongMaterial : Type := {
  mat_color : string;
  mat_wireframe : bool;
  mat_version : nat
}.

Record Mesh : Type := {
  mesh_geometry : nat;
  mesh_material : nat;
  mesh_rotation : Euler
}.

(** What a scene holds; the mesh is held by its index in the heap. *)
Inductive Object3D : Type :=
| AmbientLight (color : Z) (intensity : number)
| DirectionalLight (color : Z) (intensity : number) (position : Vector3)
| MeshObject (mesh : nat)
| AxesHelper (size : number)
| GridHelper (size divisions : nat) (color1 color2 : Z).

Record Scene : Type := {
  scene_background : option Z;
  scene_children : list Object3D
}.

(** [cam_projection] is the aspect ratio that the projection matrix was last
    computed from. *)
Record PerspectiveCamera : Type := {
  cam_fov : number;
  cam_aspect : number;
  cam_near : number;
  cam_far : number;
  cam_position : Vector3;
  cam_projection : number
}.

Record WebGLRenderer : Type := {
  rd_antialias : bool;
  rd_width : number;
  rd_height : number;
  rd_pixelRatio : number
}.

(** ** The world *)

(** The handles that the closures of one run of the scene effect ([animate],
    [handleResize], the cleanup function) close over. *)
Record SceneEnv : Type := {
  env_scene : nat;
  env_camera : nat;
  env_renderer : nat;
  env_geometry : nat;
  env_material : nat
}.

Global Instance SceneEnv_eq_dec : EqDecision SceneEnv.
Proof. solve_decision. Defined.

(** Calls whose order and number matter to the lifecycle. *)
Inductive Call : Type :=
| RendererDispose (renderer : nat)
| GeometryDispose (geometry : nat)
| MaterialDispose (material : nat)
| SceneClear (scene : nat)
| RendererRender (renderer scene camera : nat)
| RequestAnimationFrame (handle : nat) (callback : SceneEnv)
| CancelAnimationFrame (handle : nat)
| AddResizeListener (listener : SceneEnv)
| RemoveResizeListener (listener : SceneEnv).

Global Instance Call_eq_dec : EqDecision Call.
Proof. solve_decision. Defined.

(** The life of the component instance. *)
Inductive Phase : Type := NotMounted | Mounted | Unmounted.

Global Instance Phase_eq_dec : EqDecision Phase.
Proof. solve_decision. Defined.

(** The browser around the component: the store, the mount element (its
    bounding rectangle and the canvases appended to it), the listeners of the
    window's resize event, and the animation-frame scheduler (the last handle
    it issued and the callbacks waiting for the next frame). *)
Record Browser : Type := {
  localStorage : gmap string string;
  viewport : number * number;
  devicePixelRatio : number;
  mountChildren : list nat;
  resizeListeners : list SceneEnv;
  frameHandle : nat;
  frameCallbacks : list (nat * SceneEnv)
}.

(** The three.js objects, each kind indexed by allocation order. *)
Record Heap : Type := {
  scenes : list Scene;
  cameras : list PerspectiveCamera;
  renderers : list WebGLRenderer;
  geometries : list BufferGeometry;
  materials : list MeshPhongMaterial;
  meshes : list Mesh
}.

(** The [useRef] cells of the component. *)
Record Refs : Type := {
  mountRef : bool;
  sceneRef : option nat;
  cameraRef : option nat;
  rendererRef : option nat;
  currentMeshRef : option nat;
  animRef : option nat;
  wireframeRef : bool;
  autoRotateRef : bool
}.

(** The [useState] cells, the phase of the instance, and the cleanup function
    that the last run of the scene effect returned (the handles it closes
    over). *)
Record State : Type := {
  phase : Phase;
  geometryKey : string;
  wireframe : bool;
  autoRotate : bool;
  sceneCleanup : option SceneEnv
}.

(** Everything a step of the component can read or write; [calls] lists the
    calls made on graphics resources, the scheduler and the window, oldest
    first. *)
Record World : Type := {
  browser : Browser;
  heap : Heap;
  refs : Refs;
  state : State;
  calls : list Call
}.

(** Field updates. *)
Definition map_localStorage (f : (gmap string string) → (gmap string string)) (r : Browser)
  : Browser :=
  {| localStorage := f (localStorage r); viewport := viewport r;
     devicePixelRatio := devicePixelRatio r; mountChildren := mountChildren r;
     resizeListeners := resizeListeners r; frameHandle := frameHandle r;
     frameCallbacks := frameCallbacks r |}.
Definition map_viewport (f : (number * number) → (number * number)) (r : Browser)
  : Browser :=
  {| localStorage := localStorage r; viewport := f (viewport r);
     devicePixelRatio := devicePixelRatio r; mountChildren := mountChildren r;
     resizeListeners := resizeListeners r; frameHandle := frameHandle r;
     frameCallbacks := frameCallbacks r |}.
Definition map_devicePixelRatio (f : number → number) (r : Browser) : Browser :=
  {| localStorage := localStorage r; viewport := viewport r;
     devicePixelRatio := f (devicePixelRatio r); mountChildren := mountChildren r;
     resizeListeners := resizeListeners r; frameHandle := frameHandle r;
     frameCallbacks := frameCallbacks r |}.
Definition map_mountChildren (f : (list nat) → (list nat)) (r : Browser) : Browser :=
  {| localStorage := localStorage r; viewport := viewport r;
     devicePixelRatio := devicePixelRatio r; mountChildren := f (mountChildren r);
     resizeListeners := resizeListeners r; frameHandle := frameHandle r;
     frameCallbacks := frameCallbacks r |}.
Definition map_resizeListeners (f : (list SceneEnv) → (list SceneEnv)) (r : Browser)
  : Browser :=
  {| localStorage := localStorage r; viewport := viewport r;
     devicePixelRatio := devicePixelRatio r; mountChildren := mountChildren r;
     resizeListeners := f (resizeListeners r); frameHandle := frameHandle r;
     frameCallbacks := frameCallbacks r |}.
Definition map_frameHandle (f : nat → nat) (r : Browser) : Browser :=
  {| localStorage := localStorage r; viewport := viewport r;
     devicePixelRatio := devicePixelRatio r; mountChildren := mountChildren r;
     resizeListeners := resizeListeners r; frameHandle := f (frameHandle r);
     frameCallbacks := frameCallbacks r |}.
Definition map_frameCallbacks (f : (list (nat * SceneEnv)) → (list (nat * SceneEnv))) (r : Browser)
  : Browser :=
  {| localStorage := localStorage r; viewport := viewport r;
     devicePixelRatio := devicePixelRatio r; mountChildren := mountChildren r;
     resizeListeners := resizeListeners r; frameHandle := frameHandle r;
     frameCallbacks := f (frameCallbacks r) |}.

Definition map_scenes (f : (list Scene) → (list Scene)) (r : Heap) : Heap :=
  {| scenes := f (scenes r); cameras := cameras r; renderers := renderers r;
     geometries := geometries r; materials := materials r; meshes := meshes r |}.
Definition map_cameras (f : (list PerspectiveCamera) → (list PerspectiveCamera)) (r : Heap)
  : Heap :=
  {| scenes := scenes r; cameras := f (cameras r); renderers := renderers r;
     geometries := geometries r; materials := materials r; meshes := meshes r |}.
Definition map_renderers (f : (list WebGLRenderer) → (list WebGLRenderer)) (r : Heap)
  : Heap :=
  {| scenes := scenes r; cameras := cameras r; renderers := f (renderers r);
     geometries := geometries r; materials := materials r; meshes := meshes r |}.
Definition map_geometries (f : (list BufferGeometry) → (list BufferGeometry)) (r : Heap)
  : Heap :=
  {| scenes := scenes r; cameras := cameras r; renderers := renderers r;
     geometries := f (geometries r); materials := materials r; meshes := meshes r |}.
Definition map_materials (f : (list MeshPhongMaterial) → (list MeshPhongMaterial)) (r : Heap)
  : Heap :=
  {| scenes := scenes r; cameras := cameras r; renderers := renderers r;
     geometries := geometries r; materials := f (materials r); meshes := meshes r |}.
Definition map_meshes (f : (list Mesh) → (list Mesh)) (r : Heap) : Heap :=
  {| scenes := scenes r; cameras := cameras r; renderers := renderers r;
     geometries := geometries r; materials := materials r; meshes := f (meshes r) |}.

Definition map_mountRef (f : bool → bool) (r : Refs) : Refs :=
  {| mountRef := f (mountRef r); sceneRef := sceneRef r; cameraRef := cameraRef r;
     rendererRef := rendererRef r; currentMeshRef := currentMeshRef r;
     animRef := animRef r; wireframeRef := wireframeRef r;
     autoRotateRef := autoRotateRef r |}.
Definition map_sceneRef (f : (option nat) → (option nat)) (r : Refs) : Refs :=
  {| mountRef := mountRef r; sceneRef := f (sceneRef r); cameraRef := cameraRef r;
     rendererRef := rendererRef r; currentMeshRef := currentMeshRef r;
     animRef := animRef r; wireframeRef := wireframeRef r;
     autoRotateRef := autoRotateRef r |}.
Definition map_cameraRef (f : (option nat) → (option nat)) (r : Refs) : Refs :=
  {| mountRef := mountRef r; sceneRef := sceneRef r; cameraRef := f (cameraRef r);
     rendererRef := rendererRef r; currentMeshRef := currentMeshRef r;
     animRef := animRef r; wireframeRef := wireframeRef r;
     autoRotateRef := autoRotateRef r |}.
Definition map_rendererRef (f : (option nat) → (option nat)) (r : Refs) : Refs :=
  {| mountRef := mountRef r; sceneRef := sceneRef r; cameraRef := cameraRef r;
     rendererRef := f (rendererRef r); currentMeshRef := currentMeshRef r;
     animRef := animRef r; wireframeRef := wireframeRef r;
     autoRotateRef := autoRotateRef r |}.
Definition map_currentMeshRef (f : (option nat) → (option nat)) (r : Refs) : Refs :=
  {| mountRef := mountRef r; sceneRef := sceneRef r; cameraRef := cameraRef r;
     rendererRef := rendererRef r; currentMeshRef := f (currentMeshRef r);
     animRef := animRef r; wireframeRef := wireframeRef r;
     autoRotateRef := autoRotateRef r |}.
Definition map_animRef (f : (option nat) → (option nat)) (r : Refs) : Refs :=
  {| mountRef := mountRef r; sceneRef := sceneRef r; cameraRef := cameraRef r;
     rendererRef := rendererRef r; currentMeshRef := currentMeshRef r;
     animRef := f (animRef r); wireframeRef := wireframeRef r;
     autoRotateRef := autoRotateRef r |}.
Definition map_wireframeRef (f : bool → bool) (r : Refs) : Refs :=
  {| mountRef := mountRef r; sceneRef := sceneRef r; cameraRef := cameraRef r;
     rendererRef := rendererRef r; currentMeshRef := currentMeshRef r;
     animRef := animRef r; wireframeRef := f (wireframeRef r);
     autoRotateRef := autoRotateRef r |}.
Definition map_autoRotateRef (f : bool → bool) (r : Refs) : Refs :=
  {| mountRef := mountRef r; sceneRef := sceneRef r; cameraRef := cameraRef r;
     rendererRef := rendererRef r; currentMeshRef := currentMeshRef r;
     animRef := animRef r; wireframeRef := wireframeRef r;
     autoRotateRef := f (autoRotateRef r) |}.

Definition map_phase (f : Phase → Phase) (r : State) : State :=
  {| phase := f (phase r); geometryKey := geometryKey r; wireframe := wireframe r;
     autoRotate := autoRotate r; sceneCleanup := sceneCleanup r |}.
Definition map_geometryKey (f : string → string) (r : State) : State :=
  {| phase := phase r; geometryKey := f (geometryKey r); wireframe := wireframe r;
     autoRotate := autoRotate r; sceneCleanup := sceneCleanup r |}.
Definition map_wireframe (f : bool → bool) (r : State) : State :=
  {| phase := phase r; geometryKey := geometryKey r; wireframe := f (wireframe r);
     autoRotate := autoRotate r; sceneCleanup := sceneCleanup r |}.
Definition map_autoRotate (f : bool → bool) (r : State) : State :=
  {| phase := phase r; geometryKey := geometryKey r; wireframe := wireframe r;
     autoRotate := f (autoRotate r); sceneCleanup := sceneCleanup r |}.
Definition map_sceneCleanup (f : (option SceneEnv) → (option SceneEnv)) (r : State)
  : State :=
  {| phase := phase r; geometryKey := geometryKey r; wireframe := wireframe r;
     autoRotate := autoRotate r; sceneCleanup := f (sceneCleanup r) |}.

Definition map_browser (f : Browser → Browser) (r : World) : World :=
  {| browser := f (browser r); heap := heap r; refs := refs r; state := state r;
     calls := calls r |}.
Definition map_heap (f : Heap → Heap) (r : World) : World :=
  {| browser := browser r; heap := f (heap r); refs := refs r; state := state r;
     calls := calls r |}.
Definition map_refs (f : Refs → Refs) (r : World) : World :=
  {| browser := browser r; heap := heap r; refs := f (refs r); state := state r;
     calls := calls r |}.
Definition map_state (f : State → State) (r : World) : World :=
  {| browser := browser r; heap := heap r; refs := refs r; state := f (state r);
     calls := calls r |}.
Definition map_calls (f : (list Call) → (list Call)) (r : World) : World :=
  {| browser := browser r; heap := heap r; refs := refs r; state := state r;
     calls := f (calls r) |}.
(** ** Computations *)

(** A computation reads and writes the world and completes normally or
    throws. *)
Definition JS (A : Type) : Type := World → Completion A * World.

Global Instance JS_ret : MRet JS := λ A a w, (Normal a, w).

Global Instance JS_bind : MBind JS := λ A B k m w,
  match m w with
  | (Normal a, w') => k a w'
  | (Throw e, w') => (Throw e, w')
  end.

Definition throw {A : Type} (e : JsError) : JS A := λ w, (Throw e, w).

(** [try { body } catch { handler }]. *)
Definition try_catch {A : Type} (body : JS A) (handler : JsError → JS A) : JS A := λ w,
  match body w with
  | (Normal a, w') => (Normal a, w')
  | (Throw e, w') => handler e w'
  end.

(** Lifts the completion of a pure expression. *)
Definition completion {A : Type} (c : Completion A) : JS A := λ w, (c, w).

Definition gets {A : Type} (f : World → A) : JS A := λ w, (Normal (f w), w).

Definition modify (f : World → World) : JS unit := λ w, (Normal (), f w).

Definition call (c : Call) : JS unit := modify (map_calls (λ cs, cs ++ [c])).

(** [if (c) { body }], and a loop over a list. *)
Definition when (c : bool) (body : JS unit) : JS unit :=
  if c then body else mret ().

Fixpoint for_each {A : Type} (l : list A) (body : A → JS unit) : JS unit :=
  match l with
  | [] => mret ()
  | a :: rest => body a;; for_each rest body
  end.

(** ** The platform *)

(** [localStorage.getItem(k)], with [None] for JavaScript's [null], and
    [localStorage.setItem(k, v)]. *)
Definition localStorage_getItem (k : string) : JS (option string) :=
  gets (λ w, localStorage (browser w) !! k).
Definition localStorage_setItem (k v : string) : JS unit :=
  modify (map_browser (map_localStorage (insert k v))).

(** [mountRef.current.getBoundingClientRect()]: width and height. *)
Definition getBoundingClientRect : JS (number * number) :=
  gets (λ w, viewport (browser w)).

(** [mountRef.current.contains(canvas)], [removeChild] and [appendChild] for
    the canvas of a renderer. *)
Definition mount_contains (r : nat) : JS bool :=
  gets (λ w, bool_decide (r ∈ mountChildren (browser w))).
Definition mount_removeChild (r : nat) : JS unit :=
  modify (map_browser (map_mountChildren (filter (λ c, c ≠ r)))).
Definition mount_appendChild (r : nat) : JS unit :=
  modify (map_browser (map_mountChildren (λ cs, filter (λ c, c ≠ r) cs ++ [r]))).

Definition addResizeListener (env : SceneEnv) : JS unit :=
  modify (map_browser (map_resizeListeners
    (λ ls, if bool_decide (env ∈ ls) then ls else ls ++ [env])));;
  call (AddResizeListener env).
Definition removeResizeListener (env : SceneEnv) : JS unit :=
  modify (map_browser (map_resizeListeners (filter (λ l, l ≠ env))));;
  call (RemoveResizeListener env).

(** [requestAnimationFrame(callback)]: the scheduler issues the next handle,
    a positive integer, and queues the callback for the next frame. *)
Definition requestAnimationFrame (callback : SceneEnv) : JS nat :=
  h ← gets (λ w, S (frameHandle (browser w)));
  modify (map_browser (map_frameHandle (λ _, h)));;
  modify (map_browser (map_frameCallbacks (λ cbs, cbs ++ [(h, callback)])));;
  call (RequestAnimationFrame h callback);;
  mret h.

(** [cancelAnimationFrame(handle)]: the callback queued under the handle, if
    any, is dropped. *)
Definition cancelAnimationFrame (h : nat) : JS unit :=
  modify (map_browser (map_frameCallbacks (filter (λ cb, cb.1 ≠ h))));;
  call (CancelAnimationFrame h).

(** Allocation: the new object takes the next index of its kind. *)
Definition new_Scene : JS nat :=
  id ← gets (λ w, length (scenes (heap w)));
  modify (map_heap (map_scenes (λ l,
    l ++ [{| scene_background := None; scene_children := [] |}])));;
  mret id.

Definition new_PerspectiveCamera (fov aspect near far : number) : JS nat :=
  id ← gets (λ w, length (cameras (heap w)));
  modify (map_heap (map_cameras (λ l,
    l ++ [{| cam_fov := fov; cam_aspect := aspect; cam_near := near; cam_far := far;
             cam_position := {| vx := 0; vy := 0; vz := 0 |};
             cam_projection := aspect |}])));;
  mret id.

(** The canvas of a new renderer is 300 by 150, at pixel ratio 1. *)
Definition new_WebGLRenderer (antialias : bool) : JS nat :=
  id ← gets (λ w, length (renderers (heap w)));
  modify (map_heap (map_renderers (λ l,
    l ++ [{| rd_antialias := antialias; rd_width := 300; rd_height := 150;
             rd_pixelRatio := 1 |}])));;
  mret id.

Definition new_Geometry (g : BufferGeometry) : JS nat :=
  id ← gets (λ w, length (geometries (heap w)));
  modify (map_heap (map_geometries (λ l, l ++ [g])));;
  mret id.

Definition new_MeshPhongMaterial (color : string) (wf : bool) : JS nat :=
  id ← gets (λ w, length (materials (heap w)));
  modify (map_heap (map_materials (λ l,
    l ++ [{| mat_color := color; mat_wireframe := wf; mat_version := 0 |}])));;
  mret id.

Definition new_Mesh (geometry material : nat) : JS nat :=
  id ← gets (λ w, length (meshes (heap w)));
  modify (map_heap (map_meshes (λ l,
    l ++ [{| mesh_geometry := geometry; mesh_material := material;
             mesh_rotation := Euler_default |}])));;
  mret id.

(** Methods and field writes, on the object at an index. *)
Definition scene_set_background (s : nat) (color : Z) : JS unit :=
  modify (map_heap (map_scenes (alter (λ sc,
    {| scene_background := Some color; scene_children := scene_children sc |}) s))).

Definition scene_add (s : nat) (objs : list Object3D) : JS unit :=
  modify (map_heap (map_scenes (alter (λ sc,
    {| scene_background := scene_background sc;
       scene_children := scene_children sc ++ objs |}) s))).

Definition scene_clear (s : nat) : JS unit :=
  modify (map_heap (map_scenes (alter (λ sc,
    {| scene_background := scene_background sc; scene_children := [] |}) s)));;
  call (SceneClear s).

Definition camera_position_set (c : nat) (x y z : number) : JS unit :=
  modify (map_heap (map_cameras (alter (λ cam,
    {| cam_fov := cam_fov cam; cam_aspect := cam_aspect cam; cam_near := cam_near cam;
       cam_far := cam_far cam; cam_position := {| vx := x; vy := y; vz := z |};
       cam_projection := cam_projection cam |}) c))).

Definition camera_set_aspect (c : nat) (aspect : number) : JS unit :=
  modify (map_heap (map_cameras (alter (λ cam,
    {| cam_fov := cam_fov cam; cam_aspect := aspect; cam_near := cam_near cam;
       cam_far := cam_far cam; cam_position := cam_position cam;
       cam_projection := cam_projection cam |}) c))).

Definition camera_updateProjectionMatrix (c : nat) : JS unit :=
  modify (map_heap (map_cameras (alter (λ cam,
    {| cam_fov := cam_fov cam; cam_aspect := cam_aspect cam; cam_near := cam_near cam;
       cam_far := cam_far cam; cam_position := cam_position cam;
       cam_projection := cam_aspect cam |}) c))).

Definition renderer_setSize (r : nat) (width height : number) : JS unit :=
  modify (map_heap (map_renderers (alter (λ rd,
    {| rd_antialias := rd_antialias rd; rd_width := width; rd_height := height;
       rd_pixelRatio := rd_pixelRatio rd |}) r))).

Definition renderer_setPixelRatio (r : nat) (ratio : number) : JS unit :=
  modify (map_heap (map_renderers (alter (λ rd,
    {| rd_antialias := rd_antialias rd; rd_width := rd_width rd;
       rd_height := rd_height rd; rd_pixelRatio := ratio |}) r))).

Definition renderer_render (r scene camera : nat) : JS unit :=
  call (RendererRender r scene camera).

Definition renderer_dispose (r : nat) : JS unit := call (RendererDispose r).
Definition geometry_dispose (g : nat) : JS unit := call (GeometryDispose g).
Definition material_dispose (m : nat) : JS unit := call (MaterialDispose m).

(** Reading a field of an object: the handle the code holds is always one of a
    live object; on any other index the read throws. *)
Definition mesh_get (m : nat) : JS Mesh :=
  o ← gets (λ w, meshes (heap w) !! m);
  match o with
  | Some mesh => mret mesh
  | None => throw TypeError
  end.

Definition mesh_rotation_set (m : nat) (x y z : number) : JS unit :=
  modify (map_heap (map_meshes (alter (λ mesh,
    {| mesh_geometry := mesh_geometry mesh; mesh_material := mesh_material mesh;
       mesh_rotation := {| rot_x := x; rot_y := y; rot_z := z |} |}) m))).

Definition material_set_wireframe (m : nat) (wf : bool) : JS unit :=
  modify (map_heap (map_materials (alter (λ mat,
    {| mat_color := mat_color mat; mat_wireframe := wf;
       mat_version := mat_version mat |}) m))).

Definition material_set_needsUpdate (m : nat) (v : bool) : JS unit :=
  modify (map_heap (map_materials (alter (λ mat,
    {| mat_color := mat_color mat; mat_wireframe := mat_wireframe mat;
       mat_version := if v then S (mat_version mat) else mat_version mat |}) m))).

(** ** The component *)

Record GeometryInfo : Type := {
  name : string;
  color : string;
  create : BufferGeometry
}.

(** The catalogue, in the order of the object literal. *)
Definition GEOMETRIES : list (string * GeometryInfo) := [
  ("box", {| name := "Cubo"; color := "#44aa88";
             create := BoxGeometry 1.5 1.5 1.5 |});
  ("sphere", {| name := "Esfera"; color := "#FF6B6B";
                create := SphereGeometry 1 32 16 |});
  ("plane", {| name := "Plano"; color := "#4ECDC4";
               create := PlaneGeometry 2 2 |});
  ("cone", {| name := "Cono"; color := "#FFD93D";
              create := ConeGeometry 1 2 16 |});
  ("cylinder", {| name := "Cilindro"; color := "#1A535C";
                  create := CylinderGeometry 1 1 2 16 |});
  ("torus", {| name := "Toro"; color := "#FF6B6B";
               create := TorusGeometry 1 0.3 16 64 |});
  ("torusKnot", {| name := "Nudo Toroidal"; color := "#4ECDC4";
                   create := TorusKnotGeometry 1 0.3 100 16 |});
  ("ring", {| name := "Anillo"; color := "#FFD93D";
              create := RingGeometry 0.5 1 32 |})
].

(** [Object.keys(GEOMETRIES)]. *)
Definition Object_keys (o : list (string * GeometryInfo)) : list string := o.*1.

(** [GEOMETRIES[key]], with [None] for [undefined]. *)
Fixpoint GEOMETRIES_get (o : list (string * GeometryInfo)) (key : string)
  : option GeometryInfo :=
  match o with
  | [] => None
  | (k, info) :: rest => if String.eqb key k then Some info else GEOMETRIES_get rest key
  end.

(** [String(b)] for a boolean. *)
Definition String_of_bool (b : bool) : string := if b then "true" else "false".

(** [String(v)] for the result of [JSON.stringify]. *)
Definition String_of_json (o : option string) : string := default "undefined" o.

(** The initializers of the three [useState] cells (lines 64-76). *)
Definition init_geometryKey : JS string :=
  stored ← localStorage_getItem "geometryKey";
  match stored with
  | Some stored =>
      if string_truthy stored && bool_decide (stored ∈ Object_keys GEOMETRIES)
      then mret stored
      else mret "box"
  | None => mret "box"
  end.

Definition init_wireframe : JS bool :=
  stored ← localStorage_getItem "wireframe";
  mret (bool_decide (stored = Some "true")).

Definition init_autoRotate : JS bool :=
  stored ← localStorage_getItem "autoRotate";
  mret (negb (bool_decide (stored = Some "false"))).

(** The three effects that mirror state into refs and the store
    (lines 83-98). *)
Definition effect_wireframe_sync : JS unit :=
  wf ← gets (λ w, wireframe (state w));
  modify (map_refs (map_wireframeRef (λ _, wf)));;
  localStorage_setItem "wireframe" (String_of_bool wf).

Definition effect_autoRotate_sync : JS unit :=
  ar ← gets (λ w, autoRotate (state w));
  modify (map_refs (map_autoRotateRef (λ _, ar)));;
  localStorage_setItem "autoRotate" (String_of_bool ar).

Definition effect_geometryKey_save : JS unit :=
  key ← gets (λ w, geometryKey (state w));
  localStorage_setItem "geometryKey" key.

(** [a && b], which evaluates [b] only when [a] is true. *)
Definition js_and (a b : JS bool) : JS bool :=
  a ≫= λ va : bool, if va then b else mret false.

(** [typeof v.k === t]. *)
Definition typeof_prop (v : JsValue) (k t : string) : JS bool :=
  p ← completion (get_prop v k);
  mret (String.eqb (typeof p) t).

(** The number that a value of type number is. *)
Definition as_number (v : JsValue) : number :=
  match v with
  | JsNumber n => n
  | _ => nan
  end.

(** Lines 142-151: the rotation stored under [meshRotation] is put on the new
    mesh when it parses to a value with numbers under [x], [y] and [z]. *)
Definition restore_rotation (mesh : nat) : JS unit :=
  rotStr ← localStorage_getItem "meshRotation";
  match rotStr with
  | Some rotStr =>
      when (string_truthy rotStr)
        (try_catch
           (rot ← completion (JSON.parse rotStr);
            ok ← js_and (mret (truthy rot))
                   (js_and (typeof_prop rot "x" "number")
                      (js_and (typeof_prop rot "y" "number")
                         (typeof_prop rot "z" "number")));
            when ok
              (x ← completion (get_prop rot "x");
               y ← completion (get_prop rot "y");
               z ← completion (get_prop rot "z");
               mesh_rotation_set mesh (as_number x) (as_number y) (as_number z)))
           (λ _, mret ()))
  | None => mret ()
  end.

(** Lines 106-159: the scene, the camera, the renderer, the lights, the mesh
    and the helpers. *)
Definition construct : JS SceneEnv :=
  scene ← new_Scene;
  scene_set_background scene 0x0a0a0a%Z;;
  modify (map_refs (map_sceneRef (λ _, Some scene)));;
  '(width, height) ← getBoundingClientRect;
  camera ← new_PerspectiveCamera 75 (width / height) 0.1 1000;
  camera_position_set camera 3 2 4;;
  modify (map_refs (map_cameraRef (λ _, Some camera)));;
  previous ← gets (λ w, rendererRef (refs w));
  match previous with
  | Some r =>
      renderer_dispose r;;
      attached ← mount_contains r;
      when attached (mount_removeChild r)
  | None => mret ()
  end;;
  renderer ← new_WebGLRenderer true;
  renderer_setSize renderer width height;;
  dpr ← gets (λ w, devicePixelRatio (browser w));
  renderer_setPixelRatio renderer dpr;;
  modify (map_refs (map_rendererRef (λ _, Some renderer)));;
  mount_appendChild renderer;;
  scene_add scene [AmbientLight 0xffffff%Z 0.35;
                   DirectionalLight 0xffffff%Z 0.9 {| vx := 5; vy := 5; vz := 5 |}];;
  key ← gets (λ w, geometryKey (state w));
  geoObj ← match GEOMETRIES_get GEOMETRIES key with
           | Some info => mret info
           | None => throw TypeError
           end;
  geometry ← new_Geometry (create geoObj);
  wf ← gets (λ w, wireframeRef (refs w));
  material ← new_MeshPhongMaterial (color geoObj) wf;
  mesh ← new_Mesh geometry material;
  restore_rotation mesh;;
  modify (map_refs (map_currentMeshRef (λ _, Some mesh)));;
  scene_add scene [MeshObject mesh];;
  scene_add scene [AxesHelper 2; GridHelper 10 10 0x444444%Z 0x222222%Z];;
  mret {| env_scene := scene; env_camera := camera; env_renderer := renderer;
          env_geometry := geometry; env_material := material |}.

(** [flag && ref] for a boolean flag and a handle that may be [null]. *)
Definition and_ref (flag : bool) (ref : option nat) : option nat :=
  if flag then ref else None.

(** Lines 162-172: one run of the loop body. *)
Definition animate (env : SceneEnv) : JS unit :=
  h ← requestAnimationFrame env;
  modify (map_refs (map_animRef (λ _, Some h)));;
  enabled ← gets (λ w, autoRotateRef (refs w));
  current ← gets (λ w, currentMeshRef (refs w));
  match and_ref enabled current with
  | Some mesh =>
      m ← mesh_get mesh;
      let r := mesh_rotation m in
      mesh_rotation_set mesh (rot_x r + 0.01) (rot_y r) (rot_z r);;
      m ← mesh_get mesh;
      let r := mesh_rotation m in
      mesh_rotation_set mesh (rot_x r) (rot_y r + 0.015) (rot_z r);;
      m ← mesh_get mesh;
      let r := mesh_rotation m in
      localStorage_setItem "meshRotation"
        (String_of_json
           (JSON.stringify
              (JsObject [("x", JsNumber (rot_x r)); ("y", JsNumber (rot_y r));
                         ("z", JsNumber (rot_z r))])))
  | None => mret ()
  end;;
  renderer_render (env_renderer env) (env_scene env) (env_camera env).

(** Lines 176-184. *)
Definition handleResize (env : SceneEnv) : JS unit :=
  mounted ← gets (λ w, mountRef (refs w));
  when mounted
    ('(rw, rh) ← getBoundingClientRect;
     let w := if number_truthy rw then rw else 800%float in
     let h := if number_truthy rh then rh else 600%float in
     camera_set_aspect (env_camera env) (w / h);;
     camera_updateProjectionMatrix (env_camera env);;
     renderer_setSize (env_renderer env) w h).

(** [if (animRef.current)]: neither [null] nor zero. *)
Definition handle_truthy (h : option nat) : bool :=
  match h with
  | Some (S _) => true
  | _ => false
  end.

(** Lines 188-196: the cleanup function of the scene effect. *)
Definition cleanup (env : SceneEnv) : JS unit :=
  removeResizeListener env;;
  h ← gets (λ w, animRef (refs w));
  when (handle_truthy h) (cancelAnimationFrame (default 0 h));;
  renderer_dispose (env_renderer env);;
  geometry_dispose (env_geometry env);;
  material_dispose (env_material env);;
  scene_clear (env_scene env).

(** Lines 102-197: the scene effect; its result is the cleanup function it
    returns, if it returns one. *)
Definition effect_scene : JS (option SceneEnv) :=
  mounted ← gets (λ w, mountRef (refs w));
  if negb mounted then mret None
  else
    env ← construct;
    animate env;;
    addResizeListener env;;
    mret (Some env).

(** Lines 200-207: the wireframe effect. *)
Definition effect_wireframe_apply : JS unit :=
  current ← gets (λ w, currentMeshRef (refs w));
  match current with
  | Some mesh =>
      m ← mesh_get mesh;
      wf ← gets (λ w, wireframe (state w));
      material_set_wireframe (mesh_material m) wf;;
      material_set_needsUpdate (mesh_material m) true
  | None => mret ()
  end.

(** ** React: mounting, state updates, unmounting *)

(** Runs the cleanup function of the previous run of the scene effect. *)
Definition run_sceneCleanup : JS unit :=
  c ← gets (λ w, sceneCleanup (state w));
  match c with
  | Some env => cleanup env
  | None => mret ()
  end.

(** The first render and commit: the state cells are initialized, the refs
    are created, the [div] is attached to [mountRef], and the five effects
    run in the order of their declaration. *)
Definition mount : JS unit :=
  key ← init_geometryKey;
  wf ← init_wireframe;
  ar ← init_autoRotate;
  modify (map_state (λ _,
    {| phase := Mounted; geometryKey := key; wireframe := wf; autoRotate := ar;
       sceneCleanup := None |}));;
  modify (map_refs (λ _,
    {| mountRef := true; sceneRef := None; cameraRef := None; rendererRef := None;
       currentMeshRef := None; animRef := None; wireframeRef := wf;
       autoRotateRef := ar |}));;
  effect_wireframe_sync;;
  effect_autoRotate_sync;;
  effect_geometryKey_save;;
  c ← effect_scene;
  modify (map_state (map_sceneCleanup (λ _, c)));;
  effect_wireframe_apply.

(** [setGeometryKey(key)]: an update to the same key is dropped; otherwise
    the effects that depend on [geometryKey] run again, cleanups first. *)
Definition setGeometryKey (key : string) : JS unit :=
  current ← gets (λ w, geometryKey (state w));
  if String.eqb key current then mret ()
  else
    modify (map_state (map_geometryKey (λ _, key)));;
    run_sceneCleanup;;
    effect_geometryKey_save;;
    c ← effect_scene;
    modify (map_state (map_sceneCleanup (λ _, c))).

(** [setWireframe(w => !w)], then the effects that depend on [wireframe]. *)
Definition toggleWireframe : JS unit :=
  modify (map_state (map_wireframe negb));;
  effect_wireframe_sync;;
  effect_wireframe_apply.

(** [setAutoRotate(r => !r)], then the effect that depends on [autoRotate]. *)
Definition toggleAutoRotate : JS unit :=
  modify (map_state (map_autoRotate negb));;
  effect_autoRotate_sync.

(** Unmounting: the [div] leaves [mountRef], then the cleanup function runs. *)
Definition unmount : JS unit :=
  modify (map_refs (map_mountRef (λ _, false)));;
  run_sceneCleanup;;
  modify (map_state (map_sceneCleanup (λ _, None)));;
  modify (map_state (map_phase (λ _, Unmounted))).

(** A display refresh: the callbacks queued so far are taken off the queue
    and run. *)
Definition animationFrame : JS unit :=
  cbs ← gets (λ w, frameCallbacks (browser w));
  modify (map_browser (map_frameCallbacks (λ _, [])));;
  for_each cbs (λ cb, animate cb.2).

(** The window takes a new size and notifies its resize listeners. *)
Definition windowResize (width height : number) : JS unit :=
  modify (map_browser (map_viewport (λ _, (width, height))));;
  ls ← gets (λ w, resizeListeners (browser w));
  for_each ls handleResize.

(** What happens to the page. *)
Inductive Event : Type :=
| Mount
| ClickShape (key : string)
| ClickWireframe
| ClickAutoRotate
| AnimationFrame
| WindowResize (width height : number)
| Unmount.

(** The buttons exist while the component is mounted, one per key of the
    catalogue; the browser delivers frames and resizes at any time. *)
Definition dispatch (ev : Event) : JS unit :=
  ph ← gets (λ w, phase (state w));
  match ev, ph with
  | Mount, NotMounted => mount
  | ClickShape key, Mounted =>
      when (bool_decide (key ∈ Object_keys GEOMETRIES)) (setGeometryKey key)
  | ClickWireframe, Mounted => toggleWireframe
  | ClickAutoRotate, Mounted => toggleAutoRotate
  | Unmount, Mounted => unmount
  | AnimationFrame, _ => animationFrame
  | WindowResize width height, _ => windowResize width height
  | _, _ => mret ()
  end.

Definition run (evs : list Event) : JS unit := for_each evs dispatch.

(** A page that has not mounted the component yet. *)
Definition boot (store : gmap string string) (size : number * number) (dpr : number)
  : World :=
  {| browser := {| localStorage := store; viewport := size; devicePixelRatio := dpr;
                   mountChildren := []; resizeListeners := []; frameHandle := 0;
                   frameCallbacks := [] |};
     heap := {| scenes := []; cameras := []; renderers := []; geometries := [];
                materials := []; meshes := [] |};
     refs := {| mountRef := false; sceneRef := None; cameraRef := None;
                rendererRef := None; currentMeshRef := None; animRef := None;
                wireframeRef := false; autoRotateRef := false |};
     state := {| phase := NotMounted; geometryKey := "box"; wireframe := false;
                 autoRotate := false; sceneCleanup := None |};
     calls := [] |}.

(** ** The rendered page *)

(** A button: its label, the two colours of its style that depend on the
    state (the two switches set neither), and its click handler. *)
Record Button : Type := {
  btn_label : string;
  btn_background : option string;
  btn_color : option string;
  onClick : JS unit
}.

(** What the component returns: the buttons of the catalogue, each under the
    key of its list item, then the wireframe switch and the auto-rotate
    switch.  The parts of the markup that do not depend on the state are left
    out. *)
Record Page : Type := {
  shapeButtons : list (string * Button);
  wireframeButton : Button;
  autoRotateButton : Button
}.

(** [Object.entries(GEOMETRIES)]. *)
Definition Object_entries (o : list (string * GeometryInfo))
  : list (string * GeometryInfo) := o.

(** Lines 209-249, for the values of the state cells. *)
Definition render (s : State) : Page :=
  {| shapeButtons :=
       (λ entry, match entry with
                 | (key, g) =>
                     (key,
                      {| btn_label := name g;
                         btn_background :=
                           Some (if String.eqb (geometryKey s) key then color g
                                 else "#333");
                         btn_color :=
                           Some (if String.eqb (geometryKey s) key then "#222"
                                 else "#fff");
                         onClick := setGeometryKey key |})
                 end) <$> Object_entries GEOMETRIES;
     wireframeButton :=
       {| btn_label := if wireframe s then "🔲 Sólido" else "🔳 Wireframe";
          btn_background := None; btn_color := None;
          onClick := toggleWireframe |};
     autoRotateButton :=
       {| btn_label := if autoRotate s then "⏸️ Pausar Rotación"
                       else "▶️ Reanudar Rotación";
          btn_background := None; btn_color := None;
          onClick := toggleAutoRotate |} |}.

(** ** Vocabulary of the specification

    The definitions below are not part of the component: they name what the
    statements about it talk about. *)

(** A mesh with another rotation. *)
Definition set_rotation (r : Euler) (mesh : Mesh) : Mesh :=
  {| mesh_geometry := mesh_geometry mesh; mesh_material := mesh_material mesh;
     mesh_rotation := r |}.

(** The rotation that a parsed value carries: an object whose own [x], [y] and
    [z] are numbers. *)
Definition rotation_of_value (v : JsValue) : option Euler :=
  match v with
  | JsObject props =>
      match props_lookup "x" props, props_lookup "y" props, props_lookup "z" props with
      | Some (JsNumber x), Some (JsNumber y), Some (JsNumber z) =>
          Some {| rot_x := x; rot_y := y; rot_z := z |}
      | _, _, _ => None
      end
  | _ => None
  end.

(** The rotation that the restore step accepts from what the store holds under
    [meshRotation]. *)
Definition stored_rotation (o : option string) : option Euler :=
  match o with
  | Some s =>
      match JSON.parse s with
      | Normal v => rotation_of_value v
      | Throw _ => None
      end
  | None => None
  end.

(** The handles that the next construction in [w] will allocate. *)
Definition env_at (w : World) : SceneEnv :=
  {| env_scene := length (scenes (heap w)); env_camera := length (cameras (heap w));
     env_renderer := length (renderers (heap w));
     env_geometry := length (geometries (heap w));
     env_material := length (materials (heap w)) |}.

(** The rotation after one step of the loop with auto-rotate on. *)
Definition advance (r : Euler) : Euler :=
  {| rot_x := rot_x r + 0.01; rot_y := rot_y r + 0.015; rot_z := rot_z r |}.

(** The string that the loop writes to the store for a rotation. *)
Definition rotationSnapshot (r : Euler) : string :=
  String_of_json
    (JSON.stringify
       (JsObject [("x", JsNumber (rot_x r)); ("y", JsNumber (rot_y r));
                  ("z", JsNumber (rot_z r))])).

(** The object literal that the loop serializes. *)
Definition snapshot_value (r : Euler) : JsValue :=
  JsObject [("x", JsNumber (rot_x r)); ("y", JsNumber (rot_y r));
            ("z", JsNumber (rot_z r))].

(** A rotation whose snapshot reads back as written.  ECMA-262 promises it of
    every finite number other than negative zero. *)
Definition survives_json (r : Euler) : Prop :=
  JSON.parse (rotationSnapshot r) = Normal (snapshot_value r).

(** The rotation of the mesh at an index, if there is one. *)
Definition rotation_at (w : World) (mesh : nat) : option Euler :=
  mesh_rotation <$> meshes (heap w) !! mesh.

(** The handles of construction number [k]: each is the [k]-th of its kind. *)
Definition env_of (k : nat) : SceneEnv :=
  {| env_scene := k; env_camera := k; env_renderer := k; env_geometry := k;
     env_material := k |}.

(** How many times a call was made. *)
Fixpoint occurrences (target : Call) (cs : list Call) : nat :=
  match cs with
  | [] => 0
  | c :: rest => (if bool_decide (c = target) then 1 else 0) + occurrences target rest
  end.

(** Every kind of object has been allocated [n] times. *)
Definition heap_size (w : World) (n : nat) : Prop :=
  length (scenes (heap w)) = n ∧ length (cameras (heap w)) = n ∧
  length (renderers (heap w)) = n ∧ length (geometries (heap w)) = n ∧
  length (materials (heap w)) = n ∧ length (meshes (heap w)) = n.

(** How often each resource has been disposed so far, when [k] is the last
    construction and its resources have been disposed [last] times. *)
Definition disposals (w : World) (k last : nat) : Prop :=
  ∀ i,
    occurrences (RendererDispose i) (calls w) =
      (if decide (i < k) then 2 else if decide (i = k) then last else 0) ∧
    occurrences (GeometryDispose i) (calls w) =
      (if decide (i < k) then 1 else if decide (i = k) then last else 0) ∧
    occurrences (MaterialDispose i) (calls w) =
      (if decide (i < k) then 1 else if decide (i = k) then last else 0).

(** The calls of one teardown, in order: the frame callback of handle [h] is
    cancelled before anything of construction [k] is disposed. *)
Definition teardown_calls (k h : nat) : list Call :=
  [RemoveResizeListener (env_of k); CancelAnimationFrame h;
   RendererDispose k; GeometryDispose k; MaterialDispose k; SceneClear k].

(** Construction [i] is the one on screen. *)
Definition active (w : World) (i : nat) : bool :=
  bool_decide (phase (state w) = Mounted ∧ S i = length (renderers (heap w))).

(** What holds of every reachable world while the component is mounted, [k]
    being the number of the construction on screen. *)
Record MountedInv (w : World) (k : nat) : Prop := {
  inv_heap : heap_size w (S k);
  inv_disposals : disposals w k 0;
  inv_cleanup : sceneCleanup (state w) = Some (env_of k);
  inv_mountRef : mountRef (refs w) = true;
  inv_rendererRef : rendererRef (refs w) = Some k;
  inv_currentMeshRef : currentMeshRef (refs w) = Some k;
  inv_mesh : ∃ m, meshes (heap w) !! k = Some m ∧ mesh_geometry m = k ∧ mesh_material m = k;
  inv_animRef : animRef (refs w) = Some (frameHandle (browser w));
  inv_handle : frameHandle (browser w) ≠ 0;
  inv_queue : frameCallbacks (browser w) = [(frameHandle (browser w), env_of k)];
  inv_key : geometryKey (state w) ∈ Object_keys GEOMETRIES;
  inv_wireframeRef : wireframeRef (refs w) = wireframe (state w);
  inv_autoRotateRef : autoRotateRef (refs w) = autoRotate (state w)
}.

(** The invariant of the reachable worlds. *)
Definition Inv (w : World) : Prop :=
  match phase (state w) with
  | NotMounted =>
      heap_size w 0 ∧ calls w = [] ∧ frameCallbacks (browser w) = []
  | Mounted => ∃ k, MountedInv w k
  | Unmounted =>
      ∃ k, heap_size w (S k) ∧ disposals w k 1 ∧ frameCallbacks (browser w) = [] ∧
           sceneCleanup (state w) = None
  end.

(** The worlds that some sequence of events leads to from a fresh page. *)
Definition reachable (w : World) : Prop :=
  ∃ store size dpr evs, run evs (boot store size dpr) = (Normal (), w).

(** Worlds that differ only in the size of the viewport and in the sizes
    written to cameras and renderers. *)
Definition resized (w w' : World) : Prop :=
  localStorage (browser w') = localStorage (browser w) ∧
  devicePixelRatio (browser w') = devicePixelRatio (browser w) ∧
  mountChildren (browser w') = mountChildren (browser w) ∧
  resizeListeners (browser w') = resizeListeners (browser w) ∧
  frameHandle (browser w') = frameHandle (browser w) ∧
  frameCallbacks (browser w') = frameCallbacks (browser w) ∧
  scenes (heap w') = scenes (heap w) ∧
  length (cameras (heap w')) = length (cameras (heap w)) ∧
  length (renderers (heap w')) = length (renderers (heap w)) ∧
  geometries (heap w') = geometries (heap w) ∧
  materials (heap w') = materials (heap w) ∧
  meshes (heap w') = meshes (heap w) ∧
  refs w' = refs w ∧ state w' = state w ∧ calls w' = calls w.

(** The values of the three state cells on the first render. *)
Definition initial_geometryKey (store : gmap string string) : string :=
  match store !! "geometryKey" with
  | Some stored =>
      if bool_decide (stored ∈ Object_keys GEOMETRIES) then stored else "box"
  | None => "box"
  end.

Definition initial_wireframe (store : gmap string string) : bool :=
  bool_decide (store !! "wireframe" = Some "true").

Definition initial_autoRotate (store : gmap string string) : bool :=
  negb (bool_decide (store !! "autoRotate" = Some "false")).

(** The value of [v.k], with [undefined] where the read would throw or find
    nothing. *)
Definition component (v : JsValue) (k : string) : JsValue :=
  match v with
  | JsObject props => default JsUndefined (props_lookup k props)
  | _ => JsUndefined
  end.

(** [typeof v.x], [typeof v.y] and [typeof v.z] are all ["number"]. *)
Definition all_numbers (v : JsValue) : Prop :=
  typeof (component v "x") = "number" ∧ typeof (component v "y") = "number" ∧
  typeof (component v "z") = "number".

(** The scene that a construction builds around its mesh, and a scene after
    [clear()]. *)
Definition scene_of (mesh : nat) : Scene :=
  {| scene_background := Some 0x0a0a0a%Z;
     scene_children :=
       [AmbientLight 0xffffff%Z 0.35;
        DirectionalLight 0xffffff%Z 0.9 {| vx := 5; vy := 5; vz := 5 |};
        MeshObject mesh; AxesHelper 2; GridHelper 10 10 0x444444%Z 0x222222%Z] |}.

Definition cleared (sc : Scene) : Scene :=
  {| scene_background := scene_background sc; scene_children := [] |}.

(** A camera and the renderer of the same construction are in step: the
    aspect ratio is the width of the canvas over its height, the projection
    matrix was computed from that aspect ratio, and the settings that the
    component never updates are those of the construction. *)
Definition in_step (dpr : number) (cam : PerspectiveCamera) (rd : WebGLRenderer) : Prop :=
  cam_aspect cam = (rd_width rd / rd_height rd)%float ∧
  cam_projection cam = cam_aspect cam ∧
  cam_fov cam = 75%float ∧ cam_near cam = 0.1%float ∧ cam_far cam = 1000%float ∧
  cam_position cam = {| vx := 3; vy := 2; vz := 4 |} ∧
  rd_antialias rd = true ∧ rd_pixelRatio rd = dpr.

(** [measured || fallback] on numbers. *)
Definition or_else (measured fallback : number) : number :=
  if number_truthy measured then measured else fallback.

(** Every render with a renderer comes before every dispose of it. *)
Definition never_renders_disposed (cs : list Call) : Prop :=
  ∀ i j r s c,
    cs !! i = Some (RendererDispose r) → cs !! j = Some (RendererRender r s c) → j < i.

(** The store holds the three preferences as the state cells have them. *)
Definition preferences_saved (w : World) : Prop :=
  localStorage (browser w) !! "geometryKey" = Some (geometryKey (state w)) ∧
  localStorage (browser w) !! "wireframe" = Some (String_of_bool (wireframe (state w))) ∧
  localStorage (browser w) !! "autoRotate" = Some (String_of_bool (autoRotate (state w))).

(** An event that makes the scene effect run: the first render, and a click
    on the button of a shape other than the selected one. *)
Definition constructs (ev : Event) (w : World) : bool :=
  match ev, phase (state w) with
  | Mount, NotMounted => true
  | ClickShape key, Mounted =>
      bool_decide (key ∈ Object_keys GEOMETRIES) &&
      negb (String.eqb key (geometryKey (state w)))
  | _, _ => false
  end.

(** The keys of the store that the component writes. *)
Definition own_keys : list string :=
  ["geometryKey"; "wireframe"; "autoRotate"; "meshRotation"].

(** The keys of the catalogue buttons that are shown as selected. *)
Definition highlighted (p : Page) : list string :=
  (filter (λ kb, btn_color kb.2 = Some "#222") (shapeButtons p)).*1.

(** What holds, besides [MountedInv], of every reachable world while the
    component is mounted. *)
Record SceneInv (w : World) (k : nat) : Prop := {
  si_mounted : MountedInv w k;
  si_canvas : mountChildren (browser w) = [k];
  si_listeners : resizeListeners (browser w) = [env_of k];
  si_sceneRef : sceneRef (refs w) = Some k;
  si_cameraRef : cameraRef (refs w) = Some k;
  si_saved : preferences_saved w;
  si_shape : ∃ info mat,
    GEOMETRIES_get GEOMETRIES (geometryKey (state w)) = Some info ∧
    geometries (heap w) !! k = Some (create info) ∧
    materials (heap w) !! k = Some mat ∧
    mat_color mat = color info ∧ mat_wireframe mat = wireframe (state w);
  si_scene : scenes (heap w) !! k = Some (scene_of k);
  si_cleared : ∀ i, i < k → scenes (heap w) !! i = Some (cleared (scene_of i));
  si_in_step : ∀ i cam rd,
    cameras (heap w) !! i = Some cam → renderers (heap w) !! i = Some rd →
    in_step (devicePixelRatio (browser w)) cam rd;
  si_renders : never_renders_disposed (calls w)
}.

(** What holds of every reachable world after the unmount, [k] being the
    number of the last construction. *)
Record TornDown (w : World) (k : nat) : Prop := {
  td_heap : heap_size w (S k);
  td_queue : frameCallbacks (browser w) = [];
  td_mountRef : mountRef (refs w) = false;
  td_rendererRef : rendererRef (refs w) = Some k;
  td_canvas : mountChildren (browser w) = [k];
  td_listeners : resizeListeners (browser w) = [];
  td_saved : preferences_saved w;
  td_key : geometryKey (state w) ∈ Object_keys GEOMETRIES;
  td_cleared : ∀ i, i ≤ k → scenes (heap w) !! i = Some (cleared (scene_of i));
  td_in_step : ∀ i cam rd,
    cameras (heap w) !! i = Some cam → renderers (heap w) !! i = Some rd →
    in_step (devicePixelRatio (browser w)) cam rd;
  td_renders : never_renders_disposed (calls w)
}.

(** The second invariant of the reachable worlds. *)
Definition SceneInvariant (w : World) : Prop :=
  match phase (state w) with
  | NotMounted => ∃ store size dpr, w = boot store size dpr
  | Mounted => ∃ k, SceneInv w k
  | Unmounted => ∃ k, TornDown w k
  end.

(** ** Fractions, digits and what is read back *)

(** The vocabulary of the proof that a snapshot of the rotation is read back
    as it was written: a fraction rounded to binary64, the decimal digits of
    a number, and the number that [JSON.parse] reads from them. *)

Local Open Scope Z_scope.

(** Where [r / b] lies in the unit interval, for [0 <= r < b]. *)
Definition loc_of (r b : Z) : location :=
  if r =? 0 then loc_Exact else loc_Inexact (2 * r ?= b).

(** [a / b] as its integer part and the position of the rest. *)
Definition quotient_record (a b : Z) : shr_record :=
  shr_record_of_loc (a / b) (loc_of (a mod b) b).

(** The end of [binary_round_aux]: the rounded digits [m] at the exponent
    [e], renormalised and checked against the largest exponent. *)
Definition finish (sx : bool) (m e : Z) : spec_float :=
  let '(mrs, e') := shr_fexp prec emax m e loc_Exact in
  match shr_m mrs with
  | Z0 => S754_zero sx
  | Zpos m' => if e' <=? emax - prec then S754_finite sx m' e' else S754_infinity sx
  | Zneg _ => S754_nan
  end.

(** [a / b], scaled by [2^s] before the division, and rounded. *)
Definition round_at (sx : bool) (a b s : Z) : spec_float :=
  binary_round_aux prec emax sx ((2 ^ s * a) / b) (- s) (loc_of ((2 ^ s * a) mod b) b).

(** The scale [s] is fine enough for [a / b]. *)
Definition fine (a b s : Z) : Prop :=
  0 ≤ s ∧ 1 ≤ (2 ^ s * a) / b ∧ - s ≤ fexp prec emax (Zdigits2 ((2 ^ s * a) / b) - s).

(** The fraction that a decimal denotes. *)
Definition decimal_num (m e10 : Z) : Z := if 0 <=? e10 then m * 10 ^ e10 else m.
Definition decimal_den (e10 : Z) : Z := if 0 <=? e10 then 1 else 10 ^ (- e10).

(** The fraction that a finite binary64 value denotes. *)
Definition binary_num (m : positive) (e : Z) : Z := if 0 <=? e then Zpos m * 2 ^ e else Zpos m.
Definition binary_den (e : Z) : Z := if 0 <=? e then 1 else 2 ^ (- e).

(** The value of a row of digits read after the digits worth [acc]. *)
Fixpoint uint_value (acc : Z) (d : Decimal.uint) : Z :=
  match d with
  | Decimal.Nil => acc
  | Decimal.D0 d => uint_value (acc * 10 + 0) d
  | Decimal.D1 d => uint_value (acc * 10 + 1) d
  | Decimal.D2 d => uint_value (acc * 10 + 2) d
  | Decimal.D3 d => uint_value (acc * 10 + 3) d
  | Decimal.D4 d => uint_value (acc * 10 + 4) d
  | Decimal.D5 d => uint_value (acc * 10 + 5) d
  | Decimal.D6 d => uint_value (acc * 10 + 6) d
  | Decimal.D7 d => uint_value (acc * 10 + 7) d
  | Decimal.D8 d => uint_value (acc * 10 + 8) d
  | Decimal.D9 d => uint_value (acc * 10 + 9) d
  end.

(** The fraction [a / b] that [shortest_decimal] divides at the position [p]. *)
Definition grid_num (num p : Z) : Z := if 0 <=? p then num else num * 10 ^ (- p).
Definition grid_den (den p : Z) : Z := if 0 <=? p then den * 10 ^ p else den.

(** A row of digits that starts with a digit other than zero. *)
Definition leading (d : Decimal.uint) : Prop :=
  match d with
  | Decimal.Nil | Decimal.D0 _ => False
  | _ => True
  end.

(** A string of decimal digits, and the number it denotes after the digits
    worth [acc]. *)
Fixpoint all_digits (s : string) : bool :=
  match s with
  | EmptyString => true
  | String c rest => JSON.is_digit c && all_digits rest
  end.

Fixpoint digits_value (acc : Z) (s : string) : Z :=
  match s with
  | EmptyString => acc
  | String c rest => digits_value (acc * 10 + JSON.digit_value c) rest
  end.

(** A string at whose head no further digit is read. *)
Definition stops (s : string) : Prop :=
  match s with
  | EmptyString => True
  | String c _ => JSON.is_digit c = false
  end.

(** The number grammar after the sign. *)
Definition parse_unsigned (neg : bool) (s : string) : option (number * string) :=
  '(m, s2) ← JSON.parse_int s;
  '(m', flen, s3) ← JSON.parse_frac m s2;
  '(e, s4) ← JSON.parse_exp s3;
  Some (decimal_to_number neg m' (e - flen), s4).

(** The number that [JSON.parse] reads from what [JSON.stringify] writes
    for a finite number: the number itself, and [0] for [-0]. *)
Definition read_back (x : number) : number := if is_zero x then 0%float else x.

(** What [JSON.parse] reads from the serialization of a number: the number,
    with [0] for [-0], and [null] for a number that is not finite. *)
Definition reread (x : number) : JsValue :=
  if is_finite x then JsNumber (read_back x) else JsNull.

(** A rotation of finite numbers. *)
Definition finite_rotation (r : Euler) : bool :=
  is_finite (rot_x r) && is_finite (rot_y r) && is_finite (rot_z r).

(** The rotation read back from the snapshot of a finite one. *)
Definition read_back_rotation (r : Euler) : Euler :=
  {| rot_x := read_back (rot_x r); rot_y := read_back (rot_y r);
     rot_z := read_back (rot_z r) |}.

Local Close Scope Z_scope.

(** The rotation that a construction restores from the snapshot of [r]: [r]
    read back when its numbers are finite, the rotation of a new mesh when
    one of them is not. *)
Definition restored (r : Euler) : Euler :=
  if finite_rotation r then read_back_rotation r else Euler_default.

(** ** Sample pages *)

(** An empty store, in a viewport of 800 by 600. *)
Definition sample_store : gmap string string := ∅.

Definition sample_page : World := boot sample_store (800, 600)%float 1%float.

(** After the first render; auto-rotate is on by default. *)
Definition mounted_page : World := (run [Mount] sample_page).2.

(** After a change of shape and the unmount. *)
Definition switched_page : World :=
  (run [Mount; ClickShape "sphere"; Unmount] sample_page).2.

(** Mounted, with auto-rotate switched off. *)
Definition idle_page : World := (run [Mount; ClickAutoRotate] sample_page).2.

(** Mounted, one display refresh later. *)
Definition ticked_page : World := (run [Mount; AnimationFrame] sample_page).2.

(** The rotation on the mesh of [ticked_page]: the loop ran once inside the
    effect and once on the refresh. *)
Definition ticked_rotation : Euler := advance (advance Euler_default).

(** The rotation of the round-trip example. *)
Definition spec_rotation : Euler := {| rot_x := 1.2; rot_y := 0.4; rot_z := 0.0 |}.

(** What the loop writes when the [x] of the rotation is not finite:
    [{"x":null,"y":0,"z":0}]. *)
Definition null_rotation : string :=
  "{" +:+ JSON.quote "x" +:+ ":null," +:+ JSON.quote "y" +:+ ":0,"
      +:+ JSON.quote "z" +:+ ":0}".

Definition null_page : World :=
  boot (<["meshRotation" := null_rotation]> ∅) (800, 600)%float 1%float.

(** A stored rotation whose [x] overflows binary64:
    [{"x":1e999,"y":0,"z":0}]. *)
Definition overflowing_rotation : string :=
  "{" +:+ JSON.quote "x" +:+ ":1e999," +:+ JSON.quote "y" +:+ ":0,"
      +:+ JSON.quote "z" +:+ ":0}".

(** A store with that rotation, and auto-rotate off so that the loop leaves the
    restored rotation alone. *)
Definition overflowing_store : gmap string string :=
  <["meshRotation" := overflowing_rotation]> (<["autoRotate" := "false"]> ∅).

(** Mounted, after a change of shape. *)
Definition reshaped_page : World := (run [Mount; ClickShape "sphere"] sample_page).2.

(** The torus knot, in wireframe, paused, then unmounted. *)
Definition customized_page : World :=
  (run [Mount; ClickShape "torusKnot"; ClickWireframe; ClickAutoRotate; Unmount]
     sample_page).2.

(** Mounted at 800 by 600, then resized to 1024 by 0; the camera and the
    renderer that the resize leaves. *)
Definition resized_page : World := (run [Mount; WindowResize 1024 0] sample_page).2.

Definition resized_camera : PerspectiveCamera :=
  {| cam_fov := 75; cam_aspect := 1024 / 600; cam_near := 0.1; cam_far := 1000;
     cam_position := {| vx := 3; vy := 2; vz := 4 |}; cam_projection := 1024 / 600 |}.

Definition resized_renderer : WebGLRenderer :=
  {| rd_antialias := true; rd_width := 1024; rd_height := 600; rd_pixelRatio := 1 |}.

(** The button of the torus while the box is selected. *)
Definition torus_button : Button :=
  {| btn_label := "Toro"; btn_background := Some "#333"; btn_color := Some "#fff";
     onClick := setGeometryKey "torus" |}.

(** A store with an entry of another script of the page. *)
Definition visited_store : gmap string string := {["visits" := "7"]}.

(** A page whose mount element measures 800 by 0. *)
Definition flat_page : World := boot sample_store (800, 0)%float 1%float.

(** A stored rotation with its fields in another order, a field of another
    script and white space: [{"z": 3, "id": "a", "x": 1e0, "y": -2.5}]. *)
Definition foreign_rotation : string :=
  "{" +:+ JSON.quote "z" +:+ ": 3, " +:+ JSON.quote "id" +:+ ": " +:+ JSON.quote "a"
      +:+ ", " +:+ JSON.quote "x" +:+ ": 1e0, " +:+ JSON.quote "y" +:+ ": -2.5}".

Definition foreign_value : JsValue :=
  JsObject [("z", JsNumber 3); ("id", JsString "a"); ("x", JsNumber 1);
            ("y", JsNumber (-2.5))].

Definition foreign_page : World :=
  boot (<["meshRotation" := foreign_rotation]> ∅) (800, 600)%float 1%float.

(** Mounted over a stored rotation whose [x] overflows, with auto-rotate on
    by default, one display refresh later. *)
Definition overflowed_page : World :=
  (run [Mount; AnimationFrame]
     (boot {["meshRotation" := overflowing_rotation]} (800, 600)%float 1%float)).2.

(** A stored rotation too large for the increments:
    [{"x":1e16,"y":0,"z":0}]. *)
Definition large_rotation : string :=
  "{" +:+ JSON.quote "x" +:+ ":1e16," +:+ JSON.quote "y" +:+ ":0,"
      +:+ JSON.quote "z" +:+ ":0}".

(** Mounted over it, two hundred display refreshes later. *)
Definition large_page : World :=
  (run (Mount :: replicate 200 AnimationFrame)
     (boot {["meshRotation" := large_rotation]} (800, 600)%float 1%float)).2.

(** Mounted over the snapshot of the rotation of the round-trip example,
    with auto-rotate on by default; no display refresh yet. *)
Definition restored_page : World :=
  (run [Mount]
     (boot {["meshRotation" := rotationSnapshot spec_rotation]} (800, 600)%float 1%float)).2.

(** Mounted over a stored rotation whose [z] is negative zero,
    [{"x":0,"y":0,"z":-0}], with auto-rotate on by default. *)
Definition negative_zero_rotation : string :=
  "{" +:+ JSON.quote "x" +:+ ":0," +:+ JSON.quote "y" +:+ ":0,"
      +:+ JSON.quote "z" +:+ ":-0}".

Definition negative_zero_page : World :=
  (run [Mount]
     (boot {["meshRotation" := negative_zero_rotation]} (800, 600)%float 1%float)).2.

(** ** Tactics *)

#[global] Arguments GEOMETRIES_get : simpl never.

#[global] Arguments restore_rotation : simpl never.

#[global] Arguments JSON.stringify : simpl never.

(** Runs a computation on an explicit world. *)
Ltac js_run :=
  lazy beta iota zeta delta
    [new_Scene scene_set_background getBoundingClientRect new_PerspectiveCamera
     camera_position_set camera_set_aspect camera_updateProjectionMatrix
     renderer_dispose geometry_dispose material_dispose renderer_render
     mount_contains mount_removeChild mount_appendChild
     new_WebGLRenderer renderer_setSize renderer_setPixelRatio
     scene_add scene_clear new_Geometry new_MeshPhongMaterial new_Mesh
     mesh_get mesh_rotation_set material_set_wireframe material_set_needsUpdate
     requestAnimationFrame cancelAnimationFrame addResizeListener removeResizeListener
     localStorage_getItem localStorage_setItem call when throw completion
     mbind JS_bind mret JS_ret gets modify try_catch
     map_browser map_heap map_refs map_state map_calls
     map_localStorage map_viewport map_devicePixelRatio map_mountChildren
     map_resizeListeners map_frameHandle map_frameCallbacks
     map_scenes map_cameras map_renderers map_geometries map_materials map_meshes
     map_mountRef map_sceneRef map_cameraRef map_rendererRef map_currentMeshRef
     map_animRef map_wireframeRef map_autoRotateRef
     map_phase map_geometryKey map_wireframe map_autoRotate map_sceneCleanup
     fst snd
     browser heap refs state calls localStorage viewport devicePixelRatio
     mountChildren resizeListeners frameHandle frameCallbacks scenes cameras
     renderers geometries materials meshes mountRef sceneRef cameraRef rendererRef
     currentMeshRef animRef wireframeRef autoRotateRef phase geometryKey wireframe
     autoRotate sceneCleanup env_scene env_camera env_renderer env_geometry
     env_material scene_background scene_children cam_fov cam_aspect cam_near
     cam_far cam_position cam_projection rd_antialias rd_width rd_height
     rd_pixelRatio mat_color mat_wireframe mat_version mesh_geometry mesh_material
     mesh_rotation].

(** Makes a world explicit, field by field. *)
Ltac destruct_world w :=
  destruct w as [[ls [width height] dpr mc rl fh fc] [sc ca re ge ma me]
                 [mr sr cr rr cmr ar wr arr] [ph gk wf aro scl] cs].

(** One step of the option monad. *)
Ltac bind_step := change (Some ?x ≫= ?f) with (f x); cbv beta iota zeta.

(** Two readings of one decimal that differ in how the exponent is written. *)
Ltac same_exponent :=
  match goal with
  | |- Some (decimal_to_number _ _ ?a, _) = Some (decimal_to_number _ _ ?b, _) =>
      replace a with b by lia; reflexivity
  end.

(** ** The platform model on examples *)

Example number_to_string_examples :
  number_to_string 1.2 = "1.2" ∧ number_to_string 0.000001 = "0.000001" ∧
  number_to_string 1e-7 = "1e-7" ∧ number_to_string 1e21 = "1e+21" ∧
  number_to_string 123456789012345680000 = "123456789012345680000" ∧
  number_to_string (-0.015) = "-0.015" ∧ number_to_string (0.1 + 0.2) = "0.30000000000000004".
Proof. vm_compute. done. Qed.

Example JSON_parse_examples :
  JSON.parse "1e999" = Normal (JsNumber infinity) ∧
  JSON.parse "-0" = Normal (JsNumber neg_zero) ∧
  JSON.parse " [1, 2.5e3, null] " =
    Normal (JsArray [JsNumber 1; JsNumber 2500; JsNull]) ∧
  JSON.parse "01" = Throw SyntaxError ∧ JSON.parse "NaN" = Throw SyntaxError ∧
  JSON.parse "" = Throw SyntaxError ∧ JSON.parse "{,}" = Throw SyntaxError.
Proof. vm_compute. done. Qed.

Example rotationSnapshot_example :
  rotationSnapshot spec_rotation =
    "{" +:+ JSON.quote "x" +:+ ":1.2," +:+ JSON.quote "y" +:+ ":0.4,"
        +:+ JSON.quote "z" +:+ ":0}" ∧
  rotationSnapshot {| rot_x := infinity; rot_y := 0; rot_z := 0 |} = null_rotation.
Proof. vm_compute. done. Qed.

(** ** What each piece of the component does *)

Lemma alter_snoc {A} (f : A → A) (l : list A) (x : A) :
  alter f (length l) (l ++ [x]) = l ++ [f x].
Proof.
  replace (length l) with (length l + 0) by lia.
  rewrite alter_app_r. reflexivity.
Qed.

Lemma alter_lookup_insert {A} (f : A → A) (l : list A) (i : nat) (x : A) :
  l !! i = Some x → alter f i l = <[i := f x]> l.
Proof.
  revert i. induction l as [|a l IH]; intros [|i] H; simplify_eq/=; [done|].
  f_equal. by apply IH.
Qed.

Lemma filter_ne_notin (r : nat) (l : list nat) :
  r ∉ l → filter (λ c, c ≠ r) l = l.
Proof.
  induction l as [|a l IH]; [done|]. intros Hn.
  rewrite not_elem_of_cons in Hn. destruct Hn as [Ha Hl].
  rewrite filter_cons_True by congruence. f_equal. by apply IH.
Qed.

Lemma bind_eq {A B} (m : JS A) (k : A → JS B) w a w1 :
  m w = (Normal a, w1) → (m ≫= k) w = k a w1.
Proof. intros H. unfold mbind, JS_bind. by rewrite H. Qed.

Lemma occurrences_app target cs cs' :
  occurrences target (cs ++ cs') = occurrences target cs + occurrences target cs'.
Proof. induction cs as [|c cs IH]; simpl; [done|]. rewrite IH. lia. Qed.

(** Counts calls in an explicit list. *)
Ltac occ :=
  rewrite ?occurrences_app; simpl (occurrences _ _);
  repeat case_bool_decide; repeat case_decide; simplify_eq; try lia.

Lemma GEOMETRIES_get_Some key :
  key ∈ Object_keys GEOMETRIES → is_Some (GEOMETRIES_get GEOMETRIES key).
Proof.
  unfold Object_keys, GEOMETRIES. simpl. rewrite !elem_of_cons, elem_of_nil.
  intros H. repeat (destruct H as [->|H]; [eexists; reflexivity|]). done.
Qed.

Lemma restore_rotation_spec mesh w :
  restore_rotation mesh w =
  (Normal (),
   match stored_rotation (localStorage (browser w) !! "meshRotation") with
   | Some r => map_heap (map_meshes (alter (set_rotation r) mesh)) w
   | None => w
   end).
Proof.
  unfold restore_rotation, stored_rotation.
  unfold mbind, JS_bind, localStorage_getItem, gets. simpl.
  destruct (localStorage (browser w) !! "meshRotation") as [s|]; [|reflexivity].
  destruct s as [|c s]; [reflexivity|].
  unfold when, string_truthy, try_catch, completion, mbind, JS_bind.
  destruct (JSON.parse (String c s)) as [v|e]; [|reflexivity].
  destruct v as [| |b|n|s'|l|props]; simpl; try reflexivity.
  - destruct b; reflexivity.
  - destruct (number_truthy n); reflexivity.
  - destruct (string_truthy s'); reflexivity.
  - unfold js_and, typeof_prop, completion, mbind, JS_bind, mret, JS_ret. simpl.
    destruct (props_lookup "x" props) as [[]|]; simpl; try reflexivity;
    destruct (props_lookup "y" props) as [[]|]; simpl; try reflexivity;
    destruct (props_lookup "z" props) as [[]|]; simpl; reflexivity.
Qed.

Lemma restore_rotation_never_throws mesh w :
  ∃ w', restore_rotation mesh w = (Normal (), w').
Proof. rewrite restore_rotation_spec. by eexists. Qed.

Lemma construct_spec w info :
  GEOMETRIES_get GEOMETRIES (geometryKey (state w)) = Some info →
  construct w =
  (Normal (env_at w),
   {| browser :=
        map_mountChildren
          (λ cs, filter (λ c, c ≠ length (renderers (heap w)))
                   (match rendererRef (refs w) with
                    | Some r => filter (λ c, c ≠ r) cs
                    | None => cs
                    end) ++ [length (renderers (heap w))])
          (browser w);
      heap :=
        {| scenes :=
             scenes (heap w) ++
               [{| scene_background := Some 0x0a0a0a%Z;
                   scene_children :=
                     [AmbientLight 0xffffff%Z 0.35;
                      DirectionalLight 0xffffff%Z 0.9 {| vx := 5; vy := 5; vz := 5 |};
                      MeshObject (length (meshes (heap w)));
                      AxesHelper 2; GridHelper 10 10 0x444444%Z 0x222222%Z] |}];
           cameras :=
             cameras (heap w) ++
               [{| cam_fov := 75;
                   cam_aspect := (viewport (browser w)).1 / (viewport (browser w)).2;
                   cam_near := 0.1; cam_far := 1000;
                   cam_position := {| vx := 3; vy := 2; vz := 4 |};
                   cam_projection :=
                     (viewport (browser w)).1 / (viewport (browser w)).2 |}];
           renderers :=
             renderers (heap w) ++
               [{| rd_antialias := true; rd_width := (viewport (browser w)).1;
                   rd_height := (viewport (browser w)).2;
                   rd_pixelRatio := devicePixelRatio (browser w) |}];
           geometries := geometries (heap w) ++ [create info];
           materials :=
             materials (heap w) ++
               [{| mat_color := color info; mat_wireframe := wireframeRef (refs w);
                   mat_version := 0 |}];
           meshes :=
             meshes (heap w) ++
               [{| mesh_geometry := length (geometries (heap w));
                   mesh_material := length (materials (heap w));
                   mesh_rotation :=
                     default Euler_default
                       (stored_rotation (localStorage (browser w) !! "meshRotation")) |}]
        |};
      refs :=
        {| mountRef := mountRef (refs w); sceneRef := Some (length (scenes (heap w)));
           cameraRef := Some (length (cameras (heap w)));
           rendererRef := Some (length (renderers (heap w)));
           currentMeshRef := Some (length (meshes (heap w)));
           animRef := animRef (refs w); wireframeRef := wireframeRef (refs w);
           autoRotateRef := autoRotateRef (refs w) |};
      state := state w;
      calls :=
        calls w ++ match rendererRef (refs w) with
                   | Some r => [RendererDispose r]
                   | None => []
                   end |}).
Proof.
  destruct_world w. intros Hk. unfold construct, env_at. js_run.
  destruct rr as [r|]; js_run;
    [destruct (bool_decide_reflect (r ∈ mc)) as [Hin|Hin]; js_run|].
  all: lazy beta iota delta [state geometryKey] in Hk; rewrite Hk; js_run;
    rewrite restore_rotation_spec.
  all: js_run; destruct (stored_rotation _); js_run.
  all: rewrite ?length_alter, ?length_app, ?alter_snoc; js_run.
  all: rewrite ?alter_snoc, ?app_nil_r, ?(filter_ne_notin r) by done.
  all: reflexivity.
Qed.

Lemma animate_rotating env w mesh m :
  autoRotateRef (refs w) = true →
  currentMeshRef (refs w) = Some mesh →
  meshes (heap w) !! mesh = Some m →
  animate env w =
  (Normal (),
   {| browser :=
        map_localStorage
          (insert "meshRotation" (rotationSnapshot (advance (mesh_rotation m))))
          (map_frameCallbacks (λ cbs, cbs ++ [(S (frameHandle (browser w)), env)])
             (map_frameHandle S (browser w)));
      heap := map_meshes (insert mesh (set_rotation (advance (mesh_rotation m)) m)) (heap w);
      refs := map_animRef (λ _, Some (S (frameHandle (browser w)))) (refs w);
      state := state w;
      calls :=
        calls w ++
          [RequestAnimationFrame (S (frameHandle (browser w))) env;
           RendererRender (env_renderer env) (env_scene env) (env_camera env)] |}).
Proof.
  destruct_world w. lazy beta iota delta [refs heap autoRotateRef currentMeshRef meshes].
  intros -> -> Hm. unfold animate, and_ref. js_run.
  rewrite Hm. js_run.
  rewrite list_lookup_alter_eq, Hm. js_run. unfold fmap, option_fmap, option_map.
  rewrite list_lookup_alter_eq, list_lookup_alter_eq, Hm. js_run.
  unfold fmap, option_fmap, option_map.
  rewrite list_alter_alter_eq, (alter_lookup_insert _ _ _ _ Hm).
  rewrite <- app_assoc. reflexivity.
Qed.

Lemma animate_idle env w :
  autoRotateRef (refs w) = false →
  animate env w =
  (Normal (),
   {| browser :=
        map_frameCallbacks (λ cbs, cbs ++ [(S (frameHandle (browser w)), env)])
          (map_frameHandle S (browser w));
      heap := heap w;
      refs := map_animRef (λ _, Some (S (frameHandle (browser w)))) (refs w);
      state := state w;
      calls :=
        calls w ++
          [RequestAnimationFrame (S (frameHandle (browser w))) env;
           RendererRender (env_renderer env) (env_scene env) (env_camera env)] |}).
Proof.
  destruct_world w. lazy beta iota delta [refs autoRotateRef].
  intros ->. unfold animate, and_ref. js_run.
  rewrite <- app_assoc. reflexivity.
Qed.

Lemma cleanup_spec env w :
  cleanup env w =
  (Normal (),
   {| browser :=
        map_frameCallbacks
          (λ cbs, if handle_truthy (animRef (refs w))
                  then filter (λ cb, cb.1 ≠ default 0 (animRef (refs w))) cbs
                  else cbs)
          (map_resizeListeners (filter (λ l, l ≠ env)) (browser w));
      heap :=
        map_scenes (alter (λ sc, {| scene_background := scene_background sc;
                                    scene_children := [] |}) (env_scene env)) (heap w);
      refs := refs w;
      state := state w;
      calls :=
        calls w ++
          [RemoveResizeListener env] ++
          (if handle_truthy (animRef (refs w))
           then [CancelAnimationFrame (default 0 (animRef (refs w)))]
           else []) ++
          [RendererDispose (env_renderer env); GeometryDispose (env_geometry env);
           MaterialDispose (env_material env); SceneClear (env_scene env)] |}).
Proof.
  destruct_world w. unfold cleanup. js_run.
  destruct (handle_truthy ar); js_run; rewrite <- !app_assoc; reflexivity.
Qed.

Lemma handleResize_spec env w :
  handleResize env w =
  (Normal (),
   if mountRef (refs w) then
     let width := if number_truthy (viewport (browser w)).1
                  then (viewport (browser w)).1 else 800%float in
     let height := if number_truthy (viewport (browser w)).2
                   then (viewport (browser w)).2 else 600%float in
     map_heap
       (λ h, map_renderers
               (alter (λ rd, {| rd_antialias := rd_antialias rd; rd_width := width;
                                rd_height := height;
                                rd_pixelRatio := rd_pixelRatio rd |})
                  (env_renderer env))
               (map_cameras
                  (alter (λ cam, {| cam_fov := cam_fov cam;
                                    cam_aspect := (width / height)%float;
                                    cam_near := cam_near cam; cam_far := cam_far cam;
                                    cam_position := cam_position cam;
                                    cam_projection := (width / height)%float |})
                     (env_camera env)) h)) w
   else w).
Proof.
  destruct_world w. unfold handleResize. js_run.
  destruct mr; js_run; [|reflexivity].
  rewrite list_alter_alter_eq. reflexivity.
Qed.

Lemma effect_wireframe_apply_spec w mesh m :
  currentMeshRef (refs w) = Some mesh →
  meshes (heap w) !! mesh = Some m →
  effect_wireframe_apply w =
  (Normal (),
   map_heap
     (map_materials
        (alter (λ mat, {| mat_color := mat_color mat;
                          mat_wireframe := wireframe (state w);
                          mat_version := S (mat_version mat) |}) (mesh_material m))) w).
Proof.
  destruct_world w. lazy beta iota delta [refs heap currentMeshRef meshes].
  intros -> Hm. unfold effect_wireframe_apply. js_run.
  rewrite Hm. js_run. rewrite list_alter_alter_eq. reflexivity.
Qed.

Lemma effect_scene_spec w info :
  mountRef (refs w) = true →
  GEOMETRIES_get GEOMETRIES (geometryKey (state w)) = Some info →
  ∃ w', effect_scene w = (Normal (Some (env_at w)), w') ∧
    state w' = state w ∧
    refs w' =
      {| mountRef := true; sceneRef := Some (length (scenes (heap w)));
         cameraRef := Some (length (cameras (heap w)));
         rendererRef := Some (length (renderers (heap w)));
         currentMeshRef := Some (length (meshes (heap w)));
         animRef := Some (S (frameHandle (browser w)));
         wireframeRef := wireframeRef (refs w);
         autoRotateRef := autoRotateRef (refs w) |} ∧
    calls w' =
      calls w ++
        match rendererRef (refs w) with
        | Some r => [RendererDispose r]
        | None => []
        end ++
        [RequestAnimationFrame (S (frameHandle (browser w))) (env_at w);
         RendererRender (length (renderers (heap w))) (length (scenes (heap w)))
           (length (cameras (heap w)));
         AddResizeListener (env_at w)] ∧
    frameHandle (browser w') = S (frameHandle (browser w)) ∧
    frameCallbacks (browser w') =
      frameCallbacks (browser w) ++ [(S (frameHandle (browser w)), env_at w)] ∧
    (∀ k, k ≠ "meshRotation" →
          localStorage (browser w') !! k = localStorage (browser w) !! k) ∧
    length (scenes (heap w')) = S (length (scenes (heap w))) ∧
    length (cameras (heap w')) = S (length (cameras (heap w))) ∧
    length (renderers (heap w')) = S (length (renderers (heap w))) ∧
    length (geometries (heap w')) = S (length (geometries (heap w))) ∧
    length (materials (heap w')) = S (length (materials (heap w))) ∧
    length (meshes (heap w')) = S (length (meshes (heap w))) ∧
    materials (heap w') =
      materials (heap w) ++
        [{| mat_color := color info; mat_wireframe := wireframeRef (refs w);
            mat_version := 0 |}] ∧
    ∃ m, meshes (heap w') !! length (meshes (heap w)) = Some m ∧
         mesh_geometry m = length (geometries (heap w)) ∧
         mesh_material m = length (materials (heap w)).
Proof.
  intros Hmount Hk. unfold effect_scene.
  unfold mbind at 1, JS_bind at 1, gets at 1. rewrite Hmount.
  lazy beta iota delta [negb]. unfold mbind at 1, JS_bind at 1.
  rewrite (construct_spec w info Hk).
  set (w1 := {| browser := _ |}).
  assert (Hm : meshes (heap w1) !! length (meshes (heap w)) =
               Some {| mesh_geometry := length (geometries (heap w));
                       mesh_material := length (materials (heap w));
                       mesh_rotation :=
                         default Euler_default
                           (stored_rotation (localStorage (browser w) !! "meshRotation")) |}).
  { subst w1. simpl. apply list_lookup_middle. reflexivity. }
  assert (Hrot : autoRotateRef (refs w1) = autoRotateRef (refs w)) by done.
  unfold mbind at 1, JS_bind at 1.
  destruct (autoRotateRef (refs w)) eqn:Hrot'.
  - rewrite (animate_rotating _ w1 _ _ Hrot eq_refl Hm).
    subst w1. destruct_world w. unfold env_at. js_run.
    lazy beta iota delta [refs mountRef autoRotateRef] in Hmount, Hrot'. subst.
    eexists; split; [reflexivity|]. js_run.
    rewrite !length_app, !length_insert, !length_app. simpl.
    repeat split; try reflexivity; try lia.
    + by rewrite <- !app_assoc.
    + intros k Hne. by rewrite lookup_insert_ne.
    + eexists. split.
      { apply list_lookup_insert_eq. rewrite length_app. simpl. lia. }
      split; reflexivity.
  - rewrite (animate_idle _ w1 Hrot).
    subst w1. destruct_world w. unfold env_at. js_run.
    lazy beta iota delta [refs mountRef autoRotateRef] in Hmount, Hrot'. subst.
    eexists; split; [reflexivity|]. js_run.
    rewrite !length_app. simpl.
    repeat split; try reflexivity; try lia.
    + by rewrite <- !app_assoc.
    + eexists. split; [by apply list_lookup_middle|]. split; reflexivity.
Qed.

Lemma toggleWireframe_spec w mesh m :
  currentMeshRef (refs w) = Some mesh →
  meshes (heap w) !! mesh = Some m →
  toggleWireframe w =
  (Normal (),
   {| browser :=
        map_localStorage
          (insert "wireframe" (String_of_bool (negb (wireframe (state w))))) (browser w);
      heap :=
        map_materials
          (alter (λ mat, {| mat_color := mat_color mat;
                            mat_wireframe := negb (wireframe (state w));
                            mat_version := S (mat_version mat) |}) (mesh_material m))
          (heap w);
      refs := map_wireframeRef (λ _, negb (wireframe (state w))) (refs w);
      state := map_wireframe negb (state w);
      calls := calls w |}).
Proof.
  intros Hcur Hm. unfold toggleWireframe, effect_wireframe_sync.
  unfold mbind at 1, JS_bind at 1, modify at 1.
  unfold mbind at 1, JS_bind at 1.
  unfold mbind at 1, JS_bind at 1, gets at 1.
  unfold mbind at 1, JS_bind at 1, modify at 1.
  unfold localStorage_setItem, modify at 1.
  erewrite effect_wireframe_apply_spec; [|by destruct_world w..].
  destruct_world w. reflexivity.
Qed.

Lemma toggleAutoRotate_spec w :
  toggleAutoRotate w =
  (Normal (),
   {| browser :=
        map_localStorage
          (insert "autoRotate" (String_of_bool (negb (autoRotate (state w))))) (browser w);
      heap := heap w;
      refs := map_autoRotateRef (λ _, negb (autoRotate (state w))) (refs w);
      state := map_autoRotate negb (state w);
      calls := calls w |}).
Proof. destruct_world w. reflexivity. Qed.

(** The teardown of construction [k] while its loop is queued. *)
Lemma teardown_spec w k :
  sceneCleanup (state w) = Some (env_of k) →
  animRef (refs w) = Some (frameHandle (browser w)) →
  frameHandle (browser w) ≠ 0 →
  frameCallbacks (browser w) = [(frameHandle (browser w), env_of k)] →
  run_sceneCleanup w =
  (Normal (),
   {| browser :=
        map_frameCallbacks (λ _, [])
          (map_resizeListeners (filter (λ l, l ≠ env_of k)) (browser w));
      heap :=
        map_scenes (alter (λ sc, {| scene_background := scene_background sc;
                                    scene_children := [] |}) k) (heap w);
      refs := refs w;
      state := state w;
      calls :=
        calls w ++
          [RemoveResizeListener (env_of k); CancelAnimationFrame (frameHandle (browser w));
           RendererDispose k; GeometryDispose k; MaterialDispose k; SceneClear k] |}).
Proof.
  intros Hc Har Hfh Hq. unfold run_sceneCleanup.
  unfold mbind at 1, JS_bind at 1, gets at 1. rewrite Hc, cleanup_spec.
  destruct_world w. simpl in *. subst.
  destruct fh as [|fh]; [done|]. simpl.
  unfold map_frameCallbacks, map_resizeListeners. simpl.
  rewrite filter_cons_False, filter_nil by (simpl; intros ?; congruence).
  reflexivity.
Qed.

(** One display refresh while the loop of construction [k] is queued. *)
Lemma tick_rotating w k m :
  frameCallbacks (browser w) = [(frameHandle (browser w), env_of k)] →
  autoRotateRef (refs w) = true →
  currentMeshRef (refs w) = Some k →
  meshes (heap w) !! k = Some m →
  animationFrame w =
  (Normal (),
   {| browser :=
        map_localStorage
          (insert "meshRotation" (rotationSnapshot (advance (mesh_rotation m))))
          (map_frameCallbacks (λ _, [(S (frameHandle (browser w)), env_of k)])
             (map_frameHandle S (browser w)));
      heap := map_meshes (insert k (set_rotation (advance (mesh_rotation m)) m)) (heap w);
      refs := map_animRef (λ _, Some (S (frameHandle (browser w)))) (refs w);
      state := state w;
      calls :=
        calls w ++ [RequestAnimationFrame (S (frameHandle (browser w))) (env_of k);
                    RendererRender k k k] |}).
Proof.
  intros Hq Hrot Hcur Hm. unfold animationFrame.
  unfold mbind at 1, JS_bind at 1, gets at 1. rewrite Hq.
  unfold mbind at 1, JS_bind at 1, modify at 1.
  simpl for_each. unfold mbind at 1, JS_bind at 1.
  rewrite (animate_rotating _ _ k m); [|by destruct_world w..].
  destruct_world w. reflexivity.
Qed.

Lemma tick_idle w k :
  frameCallbacks (browser w) = [(frameHandle (browser w), env_of k)] →
  autoRotateRef (refs w) = false →
  animationFrame w =
  (Normal (),
   {| browser :=
        map_frameCallbacks (λ _, [(S (frameHandle (browser w)), env_of k)])
          (map_frameHandle S (browser w));
      heap := heap w;
      refs := map_animRef (λ _, Some (S (frameHandle (browser w)))) (refs w);
      state := state w;
      calls :=
        calls w ++ [RequestAnimationFrame (S (frameHandle (browser w))) (env_of k);
                    RendererRender k k k] |}).
Proof.
  intros Hq Hrot. unfold animationFrame.
  unfold mbind at 1, JS_bind at 1, gets at 1. rewrite Hq.
  unfold mbind at 1, JS_bind at 1, modify at 1.
  simpl for_each. unfold mbind at 1, JS_bind at 1.
  rewrite animate_idle; [|by destruct_world w].
  destruct_world w. reflexivity.
Qed.

Lemma tick_empty w :
  frameCallbacks (browser w) = [] →
  animationFrame w = (Normal (), w).
Proof.
  intros Hq. unfold animationFrame.
  unfold mbind at 1, JS_bind at 1, gets at 1. rewrite Hq.
  destruct_world w. simpl in Hq. subst. reflexivity.
Qed.

Lemma init_geometryKey_spec w :
  init_geometryKey w = (Normal (initial_geometryKey (localStorage (browser w))), w).
Proof.
  unfold init_geometryKey, initial_geometryKey.
  unfold mbind, JS_bind, localStorage_getItem, gets.
  destruct (localStorage (browser w) !! "geometryKey") as [s|]; [|done].
  destruct s as [|c s]; [done|]. simpl.
  by destruct (bool_decide _).
Qed.

Lemma init_wireframe_spec w :
  init_wireframe w = (Normal (initial_wireframe (localStorage (browser w))), w).
Proof. reflexivity. Qed.

Lemma init_autoRotate_spec w :
  init_autoRotate w = (Normal (initial_autoRotate (localStorage (browser w))), w).
Proof. reflexivity. Qed.

Lemma initial_geometryKey_valid store :
  initial_geometryKey store ∈ Object_keys GEOMETRIES.
Proof.
  unfold initial_geometryKey.
  destruct (store !! "geometryKey") as [s|]; [case_bool_decide; [done|]|];
    constructor.
Qed.

(** ** The invariant *)

Lemma resized_refl w : resized w w.
Proof. by repeat split. Qed.

Lemma resized_trans w1 w2 w3 : resized w1 w2 → resized w2 w3 → resized w1 w3.
Proof.
  unfold resized. intros H1 H2. destruct_and!.
  repeat split; congruence.
Qed.

Lemma handleResize_resized env w :
  ∃ w', handleResize env w = (Normal (), w') ∧ resized w w'.
Proof.
  rewrite handleResize_spec. eexists; split; [reflexivity|].
  destruct (mountRef (refs w)); [|apply resized_refl].
  destruct_world w. unfold resized. js_run.
  rewrite !length_alter. by repeat split.
Qed.

Lemma for_each_handleResize ls w :
  ∃ w', for_each ls handleResize w = (Normal (), w') ∧ resized w w'.
Proof.
  revert w. induction ls as [|env ls IH]; intros w.
  - eexists; split; [reflexivity|apply resized_refl].
  - destruct (handleResize_resized env w) as (w1 & H1 & R1).
    destruct (IH w1) as (w2 & H2 & R2).
    exists w2. split; [|by eapply resized_trans].
    simpl. unfold mbind, JS_bind. by rewrite H1.
Qed.

Lemma windowResize_resized vw vh w :
  ∃ w', windowResize vw vh w = (Normal (), w') ∧ resized w w'.
Proof.
  unfold windowResize. unfold mbind at 1, JS_bind at 1, modify at 1.
  unfold mbind at 1, JS_bind at 1, gets at 1.
  set (w1 := map_browser _ w).
  destruct (for_each_handleResize (resizeListeners (browser w1)) w1) as (w2 & H2 & R2).
  exists w2. split; [done|].
  eapply resized_trans; [|exact R2].
  subst w1. destruct_world w. by repeat split.
Qed.

Lemma Inv_resized w w' : resized w w' → Inv w → Inv w'.
Proof.
  intros (Hls & Hdpr & Hmc & Hrl & Hfh & Hfc & Hsc & Hca & Hre & Hge & Hma & Hme &
          Hrefs & Hstate & Hcalls).
  unfold Inv. rewrite Hstate.
  destruct (phase (state w)).
  - unfold heap_size. rewrite Hsc, Hca, Hre, Hge, Hma, Hme, Hcalls, Hfc. done.
  - intros [k [Hh Hd ? ? ? ? ? ? ? ? ? ? ?]]. exists k.
    split; unfold heap_size, disposals in *;
      rewrite ?Hsc, ?Hca, ?Hre, ?Hge, ?Hma, ?Hme, ?Hcalls, ?Hfc, ?Hfh, ?Hrefs, ?Hstate;
      done.
  - intros (k & Hh & Hd & ? & ?). exists k.
    unfold heap_size, disposals in *.
    rewrite ?Hsc, ?Hca, ?Hre, ?Hge, ?Hma, ?Hme, ?Hcalls, ?Hfc, ?Hfh, ?Hrefs, ?Hstate.
    done.
Qed.

Lemma disposals_app w w' k last extra :
  calls w' = calls w ++ extra →
  (∀ i, occurrences (RendererDispose i) extra = 0 ∧
        occurrences (GeometryDispose i) extra = 0 ∧
        occurrences (MaterialDispose i) extra = 0) →
  disposals w k last → disposals w' k last.
Proof.
  intros Hc Hx Hd i. destruct (Hd i) as (Hr & Hg & Hm), (Hx i) as (Xr & Xg & Xm).
  rewrite Hc, !occurrences_app, Hr, Hg, Hm, Xr, Xg, Xm. by rewrite !Nat.add_0_r.
Qed.

Lemma disposals_unfold w k last i :
  disposals w k last →
  occurrences (RendererDispose i) (calls w) =
    (if decide (i < k) then 2 else if decide (i = k) then last else 0) ∧
  occurrences (GeometryDispose i) (calls w) =
    (if decide (i < k) then 1 else if decide (i = k) then last else 0) ∧
  occurrences (MaterialDispose i) (calls w) =
    (if decide (i < k) then 1 else if decide (i = k) then last else 0).
Proof. intros H. apply H. Qed.

Lemma MountedInv_tick_rotating w k m :
  MountedInv w k → autoRotateRef (refs w) = true → meshes (heap w) !! k = Some m →
  ∃ w', animationFrame w = (Normal (), w') ∧ MountedInv w' k.
Proof.
  intros [Hh Hd Hc Hmr Hrr Hcm (m' & Hm' & Hg & Hma) Har Hfh Hq Hkey Hwf Haro] Hrot Hm.
  rewrite (tick_rotating w k m) by done.
  eexists; split; [reflexivity|].
  assert (m' = m) as -> by congruence.
  destruct_world w. unfold heap_size in *. simpl in *.
  split; unfold heap_size; simpl; rewrite ?length_insert; try done.
  - eapply disposals_app; [| |exact Hd]; [reflexivity|]. intros i. by occ.
  - exists (set_rotation (advance (mesh_rotation m)) m). split; [|done].
    apply list_lookup_insert_eq. by eapply lookup_lt_Some.
Qed.

Lemma MountedInv_tick_idle w k :
  MountedInv w k → autoRotateRef (refs w) = false →
  ∃ w', animationFrame w = (Normal (), w') ∧ MountedInv w' k.
Proof.
  intros [Hh Hd Hc Hmr Hrr Hcm (m' & Hm' & Hg & Hma) Har Hfh Hq Hkey Hwf Haro] Hrot.
  rewrite (tick_idle w k) by done.
  eexists; split; [reflexivity|].
  destruct_world w. unfold heap_size in *. simpl in *.
  split; unfold heap_size; simpl; try done.
  - eapply disposals_app; [| |exact Hd]; [reflexivity|]. intros i. by occ.
  - by exists m'.
Qed.

Lemma animationFrame_inv w : Inv w → ∃ w', animationFrame w = (Normal (), w') ∧ Inv w'.
Proof.
  unfold Inv. destruct (phase (state w)) eqn:Hph.
  - intros (Hh & Hc & Hq). rewrite tick_empty by done.
    eexists; split; [reflexivity|]. by rewrite Hph.
  - intros [k HI].
    destruct (autoRotateRef (refs w)) eqn:Hrot.
    + destruct (inv_mesh _ _ HI) as (m & Hm & _).
      destruct (MountedInv_tick_rotating w k m HI Hrot Hm) as (w' & Hrun & HI').
      exists w'. split; [done|].
      rewrite (tick_rotating w k m) in Hrun;
        [|apply HI|done|apply HI|done]. simplify_eq. simpl. rewrite Hph. by exists k.
    + destruct (MountedInv_tick_idle w k HI Hrot) as (w' & Hrun & HI').
      exists w'. split; [done|].
      rewrite (tick_idle w k) in Hrun; [|apply HI|done]. simplify_eq. simpl.
      rewrite Hph. by exists k.
  - intros (k & Hh & Hd & Hq & Hc). rewrite tick_empty by done.
    eexists; split; [reflexivity|]. rewrite Hph. by exists k.
Qed.

Lemma toggleWireframe_inv w k :
  MountedInv w k → ∃ w', toggleWireframe w = (Normal (), w') ∧ MountedInv w' k.
Proof.
  intros [Hh Hd Hc Hmr Hrr Hcm (m & Hm & Hg & Hma) Har Hfh Hq Hkey Hwf Haro].
  rewrite (toggleWireframe_spec w k m) by done.
  eexists; split; [reflexivity|].
  destruct_world w. unfold heap_size in *. simpl in *.
  split; unfold heap_size; simpl; rewrite ?length_alter; try done.
  by exists m.
Qed.

Lemma toggleAutoRotate_inv w k :
  MountedInv w k → ∃ w', toggleAutoRotate w = (Normal (), w') ∧ MountedInv w' k.
Proof.
  intros [Hh Hd Hc Hmr Hrr Hcm (m & Hm & Hg & Hma) Har Hfh Hq Hkey Hwf Haro].
  rewrite toggleAutoRotate_spec.
  eexists; split; [reflexivity|].
  destruct_world w. unfold heap_size in *. simpl in *.
  split; unfold heap_size; simpl; try done.
  by exists m.
Qed.

Lemma unmount_spec w k :
  MountedInv w k →
  unmount w =
  (Normal (),
   {| browser :=
        map_frameCallbacks (λ _, [])
          (map_resizeListeners (filter (λ l, l ≠ env_of k)) (browser w));
      heap :=
        map_scenes (alter (λ sc, {| scene_background := scene_background sc;
                                    scene_children := [] |}) k) (heap w);
      refs := map_mountRef (λ _, false) (refs w);
      state := map_phase (λ _, Unmounted) (map_sceneCleanup (λ _, None) (state w));
      calls :=
        calls w ++
          [RemoveResizeListener (env_of k); CancelAnimationFrame (frameHandle (browser w));
           RendererDispose k; GeometryDispose k; MaterialDispose k; SceneClear k] |}).
Proof.
  intros [Hh Hd Hc Hmr Hrr Hcm (m & Hm & Hg & Hma) Har Hfh Hq Hkey Hwf Haro].
  unfold unmount.
  unfold mbind at 1, JS_bind at 1, modify at 1.
  erewrite bind_eq; [|apply (teardown_spec _ k); by destruct_world w].
  by destruct_world w.
Qed.

Lemma unmount_inv w k :
  phase (state w) = Mounted → MountedInv w k →
  ∃ w', unmount w = (Normal (), w') ∧ Inv w'.
Proof.
  intros Hph HI. rewrite (unmount_spec w k HI).
  destruct HI as [Hh Hd Hc Hmr Hrr Hcm (m & Hm & Hg & Hma) Har Hfh Hq Hkey Hwf Haro].
  eexists; split; [reflexivity|].
  destruct_world w. unfold Inv, heap_size in *. simpl in *.
  exists k. rewrite length_alter. split; [done|]. split; [|done].
  intros i. destruct (Hd i) as (Hr' & Hg' & Hm'). simpl in *.
  rewrite !occurrences_app, Hr', Hg', Hm'. repeat split; by occ.
Qed.

Lemma setGeometryKey_same w key :
  String.eqb key (geometryKey (state w)) = true →
  setGeometryKey key w = (Normal (), w).
Proof.
  intros Heq. unfold setGeometryKey.
  unfold mbind at 1, JS_bind at 1, gets at 1. by rewrite Heq.
Qed.

Lemma setGeometryKey_new w k key :
  key ∈ Object_keys GEOMETRIES →
  String.eqb key (geometryKey (state w)) = false →
  MountedInv w k →
  ∃ w', setGeometryKey key w = (Normal (), w') ∧
        state w' = map_sceneCleanup (λ _, Some (env_of (S k)))
                     (map_geometryKey (λ _, key) (state w)) ∧
        calls w' =
          calls w ++
            [RemoveResizeListener (env_of k); CancelAnimationFrame (frameHandle (browser w));
             RendererDispose k; GeometryDispose k; MaterialDispose k; SceneClear k] ++
            [RendererDispose k;
             RequestAnimationFrame (S (frameHandle (browser w))) (env_of (S k));
             RendererRender (S k) (S k) (S k); AddResizeListener (env_of (S k))] ∧
        frameHandle (browser w') = S (frameHandle (browser w)) ∧
        MountedInv w' (S k).
Proof.
  intros Hkey Heq HI. unfold setGeometryKey.
  unfold mbind at 1, JS_bind at 1, gets at 1. rewrite Heq.
  destruct HI as [Hh Hd Hc Hmr Hrr Hcm (m & Hm & Hg & Hma) Har Hfh Hq Hkey' Hwf Haro].
  unfold mbind at 1, JS_bind at 1, modify at 1.
  erewrite bind_eq; [|apply (teardown_spec _ k); by destruct_world w].
  unfold mbind at 1, JS_bind at 1, effect_geometryKey_save at 1.
  unfold mbind at 1, JS_bind at 1, gets at 1.
  unfold localStorage_setItem, modify at 1.
  destruct (GEOMETRIES_get_Some key Hkey) as [info Hinfo].
  set (w3 := map_browser _ _).
  destruct (effect_scene_spec w3 info) as
    (w4 & Hrun & Hstate & Hrefs & Hcalls & Hfh4 & Hfc4 & Hls4 &
     Lsc & Lca & Lre & Lge & Lma & Lme & Hmats & m4 & Hm4 & Hg4 & Hma4);
    [by subst w3; destruct_world w..|].
  erewrite bind_eq by exact Hrun. clear Hrun.
  eexists; split; [reflexivity|].
  destruct Hh as (Hsc & Hca & Hre & Hge & Hmat & Hme).
  assert (Henv : env_at w3 = env_of (S k)).
  { subst w3. unfold env_at, env_of. simpl. rewrite length_alter. by f_equal. }
  rewrite Henv in Hcalls, Hfc4 |- *. clear Henv Hls4 Hmats. subst w3.
  simpl in Hstate, Hrefs, Hcalls, Hfh4, Hfc4, Lsc, Lca, Lre, Lge, Lma, Lme, Hm4, Hg4, Hma4.
  rewrite length_alter in Lsc, Hcalls. rewrite Hrr, Hsc, Hca, Hre in Hcalls.
  split; [simpl; by rewrite Hstate|].
  split; [simpl; by rewrite Hcalls, <- !app_assoc|].
  split; [simpl; by rewrite Hfh4|].
  split; unfold heap_size; simpl; rewrite ?Hstate, ?Hrefs, ?Hfh4, ?Hfc4; simpl;
    try done.
  - rewrite Lsc, Lca, Lre, Lge, Lma, Lme. repeat split; congruence.
  - intros i. destruct (Hd i) as (Hr' & Hg' & Hm').
    simpl. rewrite Hcalls.
    rewrite !occurrences_app, Hr', Hg', Hm'. repeat split; by occ.
  - congruence.
  - congruence.
  - exists m4. rewrite Hme in Hm4. rewrite Hge in Hg4. rewrite Hmat in Hma4. done.
Qed.

Lemma mount_spec w :
  ∃ w' info,
    mount w = (Normal (), w') ∧
    GEOMETRIES_get GEOMETRIES (initial_geometryKey (localStorage (browser w))) = Some info ∧
    state w' =
      {| phase := Mounted;
         geometryKey := initial_geometryKey (localStorage (browser w));
         wireframe := initial_wireframe (localStorage (browser w));
         autoRotate := initial_autoRotate (localStorage (browser w));
         sceneCleanup := Some (env_at w) |} ∧
    materials (heap w') =
      materials (heap w) ++
        [{| mat_color := color info;
            mat_wireframe := initial_wireframe (localStorage (browser w));
            mat_version := 1 |}] ∧
    (heap_size w 0 → calls w = [] → frameCallbacks (browser w) = [] → MountedInv w' 0).
Proof.
  unfold mount.
  erewrite bind_eq by apply init_geometryKey_spec.
  erewrite bind_eq by apply init_wireframe_spec.
  erewrite bind_eq by apply init_autoRotate_spec.
  unfold mbind at 1, JS_bind at 1, modify at 1.
  unfold mbind at 1, JS_bind at 1, modify at 1.
  unfold effect_wireframe_sync, effect_autoRotate_sync, effect_geometryKey_save.
  unfold localStorage_setItem.
  do 3 (unfold mbind at 1, JS_bind at 1;
        unfold mbind at 1, JS_bind at 1, gets at 1;
        try (unfold mbind at 1, JS_bind at 1); unfold modify at 1; try unfold modify at 1).
  set (key := initial_geometryKey _). set (wf0 := initial_wireframe _).
  set (ar0 := initial_autoRotate _).
  destruct (GEOMETRIES_get_Some key (initial_geometryKey_valid _)) as [info Hinfo].
  set (w2 := map_browser _ _).
  destruct (effect_scene_spec w2 info) as
    (w4 & Hrun & Hstate & Hrefs & Hcalls & Hfh4 & Hfc4 & Hls4 &
     Lsc & Lca & Lre & Lge & Lma & Lme & Hmats & m4 & Hm4 & Hg4 & Hma4);
    [by subst w2..|].
  assert (Henv : env_at w2 = env_at w) by done.
  rewrite Henv in *. clear Henv Hls4.
  rewrite Hrun. clear Hrun.
  unfold mbind at 1, JS_bind at 1.
  set (w5 := map_state _ w4).
  subst w2.
  simpl in Hstate, Hrefs, Hcalls, Hfh4, Hfc4, Lsc, Lca, Lre, Lge, Lma, Lme, Hmats, Hm4, Hg4, Hma4.
  rewrite (effect_wireframe_apply_spec w5 (length (meshes (heap w))) m4);
    [|by subst w5; simpl; rewrite Hrefs|done].
  exists (map_heap (map_materials
            (alter (λ mat, {| mat_color := mat_color mat;
                              mat_wireframe := wireframe (state w5);
                              mat_version := S (mat_version mat) |}) (mesh_material m4))) w5),
         info.
  split; [done|]. split; [done|].
  subst w5. simpl. rewrite Hstate. simpl. split; [done|]. split.
  { rewrite Hmats, Hma4, alter_snoc. done. }
  intros (Hsc & Hca & Hre & Hge & Hmat & Hme) Hcs Hq.
  rewrite Hme in Hm4. rewrite Hge in Hg4. rewrite Hmat in Hma4.
  assert (Henv0 : env_at w = env_of 0).
  { unfold env_at, env_of. by rewrite Hsc, Hca, Hre, Hge, Hmat. }
  rewrite Henv0 in *. rewrite Hq in Hfc4. rewrite Hcs in Hcalls.
  rewrite Hsc in *. rewrite Hca in *. rewrite Hre in *. rewrite Hge in *.
  rewrite Hmat in *. rewrite Hme in *.
  split; unfold heap_size; simpl; rewrite ?Hstate, ?Hrefs, ?Hfh4, ?Hfc4, ?length_alter;
    simpl; try done.
  all: try (by exists m4); try apply initial_geometryKey_valid.
  intros i. simpl. rewrite Hcalls. simpl. repeat split; by occ.
Qed.

Lemma Inv_Mounted w k : phase (state w) = Mounted → MountedInv w k → Inv w.
Proof. intros Hph HI. unfold Inv. rewrite Hph. by exists k. Qed.

Lemma Inv_Mounted_inv w : phase (state w) = Mounted → Inv w → ∃ k, MountedInv w k.
Proof. intros Hph. unfold Inv. by rewrite Hph. Qed.

Lemma dispatch_inv ev w : Inv w → ∃ w', dispatch ev w = (Normal (), w') ∧ Inv w'.
Proof.
  intros HI. unfold dispatch. unfold mbind, JS_bind, gets.
  destruct ev as [|key| | | |vw vh|].
  - destruct (phase (state w)) eqn:Hph; try by (exists w).
    destruct (mount_spec w) as (w' & info & Hrun & _ & Hstate & _ & Hinv).
    exists w'. split; [done|].
    unfold Inv in HI. rewrite Hph in HI. destruct HI as (Hh & Hc & Hq).
    apply (Inv_Mounted _ 0); [by rewrite Hstate|by apply Hinv].
  - destruct (phase (state w)) eqn:Hph; try by (exists w).
    destruct (Inv_Mounted_inv w Hph HI) as [k Hk].
    unfold when. case_bool_decide as Hkey; [|by exists w].
    destruct (String.eqb key (geometryKey (state w))) eqn:Heq.
    { rewrite setGeometryKey_same by done. exists w. split; [done|].
      by apply (Inv_Mounted _ k). }
    destruct (setGeometryKey_new w k key Hkey Heq Hk) as (w' & Hrun & Hstate & _ & _ & Hk').
    exists w'. split; [done|]. apply (Inv_Mounted _ (S k)); [|done].
    by rewrite Hstate.
  - destruct (phase (state w)) eqn:Hph; try by (exists w).
    destruct (Inv_Mounted_inv w Hph HI) as [k Hk].
    destruct (toggleWireframe_inv w k Hk) as (w' & Hrun & Hk').
    exists w'. split; [done|]. apply (Inv_Mounted _ k); [|done].
    destruct (inv_mesh _ _ Hk) as (m & Hm & _).
    rewrite (toggleWireframe_spec w k m) in Hrun; [|apply Hk|done].
    by simplify_eq.
  - destruct (phase (state w)) eqn:Hph; try by (exists w).
    destruct (Inv_Mounted_inv w Hph HI) as [k Hk].
    destruct (toggleAutoRotate_inv w k Hk) as (w' & Hrun & Hk').
    exists w'. split; [done|]. apply (Inv_Mounted _ k); [|done].
    rewrite toggleAutoRotate_spec in Hrun. by simplify_eq.
  - destruct (animationFrame_inv w HI) as (w' & Hrun & HI').
    exists w'. by destruct (phase (state w)).
  - destruct (windowResize_resized vw vh w) as (w' & Hrun & R).
    exists w'. split; [by destruct (phase (state w))|]. by eapply Inv_resized.
  - destruct (phase (state w)) eqn:Hph; try by (exists w).
    destruct (Inv_Mounted_inv w Hph HI) as [k Hk].
    by apply (unmount_inv w k).
Qed.

Lemma run_inv evs w : Inv w → ∃ w', run evs w = (Normal (), w') ∧ Inv w'.
Proof.
  revert w. induction evs as [|ev evs IH]; intros w HI.
  - by exists w.
  - destruct (dispatch_inv ev w HI) as (w1 & H1 & HI1).
    destruct (IH w1 HI1) as (w2 & H2 & HI2).
    exists w2. split; [|done].
    unfold run. simpl. unfold mbind, JS_bind. by rewrite H1.
Qed.

Lemma boot_inv store size dpr : Inv (boot store size dpr).
Proof. by repeat split. Qed.

Lemma reachable_inv w : reachable w → Inv w.
Proof.
  intros (store & size & dpr & evs & Hrun).
  destruct (run_inv evs _ (boot_inv store size dpr)) as (w' & Hrun' & HI).
  congruence.
Qed.

Lemma run_app evs1 evs2 w w1 :
  run evs1 w = (Normal (), w1) → run (evs1 ++ evs2) w = run evs2 w1.
Proof.
  revert w. induction evs1 as [|ev evs IH]; intros w H.
  - unfold run in H. simpl in H. unfold mret, JS_ret in H. by simplify_eq.
  - unfold run in *. simpl in *. unfold mbind, JS_bind in *.
    destruct (dispatch ev w) as [[[]|e] w']; [|done].
    by apply IH.
Qed.

Lemma reachable_run w evs w' :
  reachable w → run evs w = (Normal (), w') → reachable w'.
Proof.
  intros (store & size & dpr & evs0 & Hrun) H.
  exists store, size, dpr, (evs0 ++ evs). by rewrite (run_app _ _ _ _ Hrun).
Qed.

Lemma run_cons ev evs w w1 :
  dispatch ev w = (Normal (), w1) → run (ev :: evs) w = run evs w1.
Proof. intros H. unfold run. simpl. unfold mbind, JS_bind. by rewrite H. Qed.

Lemma dispatch_AnimationFrame w : dispatch AnimationFrame w = animationFrame w.
Proof. unfold dispatch, mbind, JS_bind, gets. by destruct (phase (state w)). Qed.

Lemma iter_advance n r : Nat.iter n advance (advance r) = advance (Nat.iter n advance r).
Proof. induction n as [|n IH]; simpl; [done|]. by rewrite IH. Qed.

Lemma ticks_rotating N : ∀ w k m,
  MountedInv w k → autoRotateRef (refs w) = true → meshes (heap w) !! k = Some m →
  ∃ w', run (replicate N AnimationFrame) w = (Normal (), w') ∧
        MountedInv w' k ∧ state w' = state w ∧
        rotation_at w' k = Some (Nat.iter N advance (mesh_rotation m)) ∧
        localStorage (browser w') !! "meshRotation" =
          match N with
          | O => localStorage (browser w) !! "meshRotation"
          | S _ => Some (rotationSnapshot (Nat.iter N advance (mesh_rotation m)))
          end.
Proof.
  induction N as [|N IH]; intros w k m HI Hrot Hm.
  - exists w. unfold rotation_at. rewrite Hm. done.
  - destruct (MountedInv_tick_rotating w k m HI Hrot Hm) as (w1 & Hrun & HI1).
    pose proof Hrun as Hrun'.
    rewrite (tick_rotating w k m) in Hrun'; [|apply HI|done|apply HI|done].
    destruct (IH w1 k (set_rotation (advance (mesh_rotation m)) m) HI1) as
      (w' & Hrun2 & HI2 & Hst & Hrot2 & Hls).
    { simplify_eq. by destruct_world w. }
    { simplify_eq. destruct_world w. simpl in *.
      apply list_lookup_insert_eq. by eapply lookup_lt_Some. }
    exists w'. simpl replicate.
    rewrite (run_cons _ _ _ w1) by by rewrite dispatch_AnimationFrame.
    split; [done|]. split; [done|].
    split; [rewrite Hst; simplify_eq; by destruct_world w|].
    simpl in Hrot2, Hls. rewrite iter_advance in Hrot2, Hls.
    split; [done|].
    rewrite Hls. destruct N; [|done].
    simplify_eq. destruct_world w. simpl. by rewrite lookup_insert_eq.
Qed.

Lemma ticks_idle N : ∀ w k,
  MountedInv w k → autoRotateRef (refs w) = false →
  ∃ w', run (replicate N AnimationFrame) w = (Normal (), w') ∧
        MountedInv w' k ∧ state w' = state w ∧ heap w' = heap w ∧
        localStorage (browser w') = localStorage (browser w) ∧
        occurrences (RendererRender k k k) (calls w') =
          occurrences (RendererRender k k k) (calls w) + N.
Proof.
  induction N as [|N IH]; intros w k HI Hrot.
  - exists w. by rewrite Nat.add_0_r.
  - destruct (MountedInv_tick_idle w k HI Hrot) as (w1 & Hrun & HI1).
    pose proof Hrun as Hrun'.
    rewrite (tick_idle w k) in Hrun'; [|apply HI|done].
    destruct (IH w1 k HI1) as (w' & Hrun2 & HI2 & Hst & Hheap & Hls & Hocc).
    { simplify_eq. by destruct_world w. }
    exists w'. simpl replicate.
    rewrite (run_cons _ _ _ w1) by by rewrite dispatch_AnimationFrame.
    split; [done|]. split; [done|].
    rewrite Hst, Hheap, Hls, Hocc. simplify_eq. destruct_world w. simpl.
    repeat split. rewrite occurrences_app. simpl.
    rewrite bool_decide_true by done. lia.
Qed.

Lemma rotation_of_snapshot r : rotation_of_value (snapshot_value r) = Some r.
Proof. by destruct r. Qed.

Lemma rotation_of_value_numbers v r : rotation_of_value v = Some r → all_numbers v.
Proof.
  unfold rotation_of_value, all_numbers, component.
  destruct v as [| | | | | |props]; try done.
  destruct (props_lookup "x" props) as [[]|]; try done.
  destruct (props_lookup "y" props) as [[]|]; try done.
  destruct (props_lookup "z" props) as [[]|]; try done.
Qed.

Lemma mounted_page_reachable : reachable mounted_page.
Proof. exists sample_store, (800, 600)%float, 1%float, [Mount]. vm_compute. reflexivity. Qed.

Lemma switched_page_reachable : reachable switched_page.
Proof.
  exists sample_store, (800, 600)%float, 1%float, [Mount; ClickShape "sphere"; Unmount].
  vm_compute. reflexivity.
Qed.

Lemma idle_page_reachable : reachable idle_page.
Proof.
  exists sample_store, (800, 600)%float, 1%float, [Mount; ClickAutoRotate].
  vm_compute. reflexivity.
Qed.

(** ** The scene effect, the first render and a change of shape, in full *)

Lemma insert_snoc {A} (l : list A) (x y : A) :
  <[length l := y]> (l ++ [x]) = l ++ [y].
Proof.
  replace (length l) with (length l + 0) by lia.
  rewrite insert_app_r. reflexivity.
Qed.

Lemma filter_ne_singleton `{EqDecision A} (x : A) :
  filter (λ y, y ≠ x) [x] = [].
Proof. by rewrite filter_cons_False, filter_nil by (intros ?; congruence). Qed.

Lemma effect_scene_run w info :
  mountRef (refs w) = true →
  GEOMETRIES_get GEOMETRIES (geometryKey (state w)) = Some info →
  effect_scene w =
  (Normal (Some (env_at w)),
   {| browser :=
        {| localStorage :=
             if autoRotateRef (refs w) then
               <["meshRotation" :=
                   rotationSnapshot
                     (advance (default Euler_default
                                 (stored_rotation
                                    (localStorage (browser w) !! "meshRotation"))))]>
                 (localStorage (browser w))
             else localStorage (browser w);
           viewport := viewport (browser w);
           devicePixelRatio := devicePixelRatio (browser w);
           mountChildren :=
             filter (λ c, c ≠ length (renderers (heap w)))
               (match rendererRef (refs w) with
                | Some r => filter (λ c, c ≠ r) (mountChildren (browser w))
                | None => mountChildren (browser w)
                end) ++ [length (renderers (heap w))];
           resizeListeners :=
             if bool_decide (env_at w ∈ resizeListeners (browser w))
             then resizeListeners (browser w)
             else resizeListeners (browser w) ++ [env_at w];
           frameHandle := S (frameHandle (browser w));
           frameCallbacks :=
             frameCallbacks (browser w) ++ [(S (frameHandle (browser w)), env_at w)] |};
      heap :=
        {| scenes := scenes (heap w) ++ [scene_of (length (meshes (heap w)))];
           cameras :=
             cameras (heap w) ++
               [{| cam_fov := 75;
                   cam_aspect := (viewport (browser w)).1 / (viewport (browser w)).2;
                   cam_near := 0.1; cam_far := 1000;
                   cam_position := {| vx := 3; vy := 2; vz := 4 |};
                   cam_projection :=
                     (viewport (browser w)).1 / (viewport (browser w)).2 |}];
           renderers :=
             renderers (heap w) ++
               [{| rd_antialias := true; rd_width := (viewport (browser w)).1;
                   rd_height := (viewport (browser w)).2;
                   rd_pixelRatio := devicePixelRatio (browser w) |}];
           geometries := geometries (heap w) ++ [create info];
           materials :=
             materials (heap w) ++
               [{| mat_color := color info; mat_wireframe := wireframeRef (refs w);
                   mat_version := 0 |}];
           meshes :=
             meshes (heap w) ++
               [{| mesh_geometry := length (geometries (heap w));
                   mesh_material := length (materials (heap w));
                   mesh_rotation :=
                     (if autoRotateRef (refs w) then advance else id)
                       (default Euler_default
                          (stored_rotation
                             (localStorage (browser w) !! "meshRotation"))) |}] |};
      refs :=
        {| mountRef := true; sceneRef := Some (length (scenes (heap w)));
           cameraRef := Some (length (cameras (heap w)));
           rendererRef := Some (length (renderers (heap w)));
           currentMeshRef := Some (length (meshes (heap w)));
           animRef := Some (S (frameHandle (browser w)));
           wireframeRef := wireframeRef (refs w);
           autoRotateRef := autoRotateRef (refs w) |};
      state := state w;
      calls :=
        calls w ++
          match rendererRef (refs w) with
          | Some r => [RendererDispose r]
          | None => []
          end ++
          [RequestAnimationFrame (S (frameHandle (browser w))) (env_at w);
           RendererRender (length (renderers (heap w))) (length (scenes (heap w)))
             (length (cameras (heap w)));
           AddResizeListener (env_at w)] |}).
Proof.
  intros Hmount Hk. unfold effect_scene.
  unfold mbind at 1, JS_bind at 1, gets at 1. rewrite Hmount.
  lazy beta iota delta [negb]. unfold mbind at 1, JS_bind at 1.
  rewrite (construct_spec w info Hk).
  set (w1 := {| browser := _ |}).
  assert (Hm : meshes (heap w1) !! length (meshes (heap w)) =
               Some {| mesh_geometry := length (geometries (heap w));
                       mesh_material := length (materials (heap w));
                       mesh_rotation :=
                         default Euler_default
                           (stored_rotation (localStorage (browser w) !! "meshRotation")) |}).
  { subst w1. simpl. apply list_lookup_middle. reflexivity. }
  assert (Hrot : autoRotateRef (refs w1) = autoRotateRef (refs w)) by done.
  unfold mbind at 1, JS_bind at 1.
  destruct (autoRotateRef (refs w)) eqn:Hrot'.
  - rewrite (animate_rotating _ w1 _ _ Hrot eq_refl Hm).
    subst w1. destruct_world w. unfold env_at, scene_of. js_run.
    lazy beta iota delta [refs mountRef autoRotateRef] in Hmount, Hrot'. subst.
    unfold set_rotation. js_run. rewrite insert_snoc, <- !app_assoc. reflexivity.
  - rewrite (animate_idle _ w1 Hrot).
    subst w1. destruct_world w. unfold env_at, scene_of. js_run.
    lazy beta iota delta [refs mountRef autoRotateRef] in Hmount, Hrot'. subst.
    rewrite <- !app_assoc. reflexivity.
Qed.

Lemma mount_boot store size dpr info :
  GEOMETRIES_get GEOMETRIES (initial_geometryKey store) = Some info →
  mount (boot store size dpr) =
  (Normal (),
   {| browser :=
        {| localStorage :=
             (if initial_autoRotate store then
                insert "meshRotation"
                  (rotationSnapshot
                     (advance (default Euler_default
                                 (stored_rotation (store !! "meshRotation")))))
              else id)
               (<["geometryKey" := initial_geometryKey store]>
                  (<["autoRotate" := String_of_bool (initial_autoRotate store)]>
                     (<["wireframe" := String_of_bool (initial_wireframe store)]> store)));
           viewport := size; devicePixelRatio := dpr;
           mountChildren := [0]; resizeListeners := [env_of 0];
           frameHandle := 1; frameCallbacks := [(1, env_of 0)] |};
      heap :=
        {| scenes := [scene_of 0];
           cameras :=
             [{| cam_fov := 75; cam_aspect := size.1 / size.2; cam_near := 0.1;
                 cam_far := 1000; cam_position := {| vx := 3; vy := 2; vz := 4 |};
                 cam_projection := size.1 / size.2 |}];
           renderers :=
             [{| rd_antialias := true; rd_width := size.1; rd_height := size.2;
                 rd_pixelRatio := dpr |}];
           geometries := [create info];
           materials :=
             [{| mat_color := color info; mat_wireframe := initial_wireframe store;
                 mat_version := 1 |}];
           meshes :=
             [{| mesh_geometry := 0; mesh_material := 0;
                 mesh_rotation :=
                   (if initial_autoRotate store then advance else id)
                     (default Euler_default
                        (stored_rotation (store !! "meshRotation"))) |}] |};
      refs :=
        {| mountRef := true; sceneRef := Some 0; cameraRef := Some 0;
           rendererRef := Some 0; currentMeshRef := Some 0; animRef := Some 1;
           wireframeRef := initial_wireframe store;
           autoRotateRef := initial_autoRotate store |};
      state :=
        {| phase := Mounted; geometryKey := initial_geometryKey store;
           wireframe := initial_wireframe store;
           autoRotate := initial_autoRotate store;
           sceneCleanup := Some (env_of 0) |};
      calls :=
        [RequestAnimationFrame 1 (env_of 0); RendererRender 0 0 0;
         AddResizeListener (env_of 0)] |}).
Proof.
  intros Hinfo. unfold mount.
  erewrite bind_eq by apply init_geometryKey_spec.
  erewrite bind_eq by apply init_wireframe_spec.
  erewrite bind_eq by apply init_autoRotate_spec.
  unfold effect_wireframe_sync, effect_autoRotate_sync, effect_geometryKey_save.
  unfold boot. js_run.
  set (key := initial_geometryKey _) in *. set (wf0 := initial_wireframe _).
  set (ar0 := initial_autoRotate _).
  erewrite effect_scene_run; [|reflexivity|exact Hinfo].
  unfold effect_wireframe_apply, env_at, env_of. js_run.
  simpl. rewrite !lookup_insert_ne by done.
  destruct ar0; reflexivity.
Qed.

Lemma setGeometryKey_run w k key info :
  GEOMETRIES_get GEOMETRIES key = Some info →
  String.eqb key (geometryKey (state w)) = false →
  SceneInv w k →
  setGeometryKey key w =
  (Normal (),
   {| browser :=
        {| localStorage :=
             (if autoRotateRef (refs w) then
                insert "meshRotation"
                  (rotationSnapshot
                     (advance (default Euler_default
                                 (stored_rotation
                                    (localStorage (browser w) !! "meshRotation")))))
              else id)
               (<["geometryKey" := key]> (localStorage (browser w)));
           viewport := viewport (browser w);
           devicePixelRatio := devicePixelRatio (browser w);
           mountChildren := [S k]; resizeListeners := [env_of (S k)];
           frameHandle := S (frameHandle (browser w));
           frameCallbacks := [(S (frameHandle (browser w)), env_of (S k))] |};
      heap :=
        {| scenes := alter cleared k (scenes (heap w)) ++ [scene_of (S k)];
           cameras :=
             cameras (heap w) ++
               [{| cam_fov := 75;
                   cam_aspect := (viewport (browser w)).1 / (viewport (browser w)).2;
                   cam_near := 0.1; cam_far := 1000;
                   cam_position := {| vx := 3; vy := 2; vz := 4 |};
                   cam_projection :=
                     (viewport (browser w)).1 / (viewport (browser w)).2 |}];
           renderers :=
             renderers (heap w) ++
               [{| rd_antialias := true; rd_width := (viewport (browser w)).1;
                   rd_height := (viewport (browser w)).2;
                   rd_pixelRatio := devicePixelRatio (browser w) |}];
           geometries := geometries (heap w) ++ [create info];
           materials :=
             materials (heap w) ++
               [{| mat_color := color info; mat_wireframe := wireframeRef (refs w);
                   mat_version := 0 |}];
           meshes :=
             meshes (heap w) ++
               [{| mesh_geometry := S k; mesh_material := S k;
                   mesh_rotation :=
                     (if autoRotateRef (refs w) then advance else id)
                       (default Euler_default
                          (stored_rotation
                             (localStorage (browser w) !! "meshRotation"))) |}] |};
      refs :=
        {| mountRef := true; sceneRef := Some (S k); cameraRef := Some (S k);
           rendererRef := Some (S k); currentMeshRef := Some (S k);
           animRef := Some (S (frameHandle (browser w)));
           wireframeRef := wireframeRef (refs w);
           autoRotateRef := autoRotateRef (refs w) |};
      state :=
        map_sceneCleanup (λ _, Some (env_of (S k)))
          (map_geometryKey (λ _, key) (state w));
      calls :=
        calls w ++ teardown_calls k (frameHandle (browser w)) ++
          [RendererDispose k;
           RequestAnimationFrame (S (frameHandle (browser w))) (env_of (S k));
           RendererRender (S k) (S k) (S k); AddResizeListener (env_of (S k))] |}).
Proof.
  intros Hinfo Heq [HI Hmc Hrl _ _ _ _ _ _ _ _]. unfold setGeometryKey.
  unfold mbind at 1, JS_bind at 1, gets at 1. rewrite Heq.
  destruct HI as [Hh Hd Hc Hmr Hrr Hcm (m & Hm & Hg & Hma) Har Hfh Hq Hkey' Hwf Haro].
  unfold mbind at 1, JS_bind at 1, modify at 1.
  erewrite bind_eq; [|apply (teardown_spec _ k); by destruct_world w].
  unfold mbind at 1, JS_bind at 1, effect_geometryKey_save at 1.
  unfold mbind at 1, JS_bind at 1, gets at 1.
  unfold localStorage_setItem, modify at 1.
  erewrite bind_eq; [|apply (effect_scene_run _ info); by destruct_world w].
  destruct Hh as (Hsc & Hca & Hre & Hge & Hmat & Hme).
  destruct_world w. unfold env_at, env_of, teardown_calls, cleared. js_run.
  simpl in *. subst. rewrite length_alter, Hsc, Hca, Hre, Hge, Hmat, Hme.
  rewrite !filter_ne_singleton. simpl.
  rewrite lookup_insert_ne by done.
  rewrite <- !app_assoc. simpl.
  destruct aro; reflexivity.
Qed.

Lemma windowResize_run w k vw vh :
  SceneInv w k →
  windowResize vw vh w =
  (Normal (),
   {| browser := map_viewport (λ _, (vw, vh)) (browser w);
      heap :=
        map_renderers
          (alter (λ rd, {| rd_antialias := rd_antialias rd;
                           rd_width := or_else vw 800; rd_height := or_else vh 600;
                           rd_pixelRatio := rd_pixelRatio rd |}) k)
          (map_cameras
             (alter (λ cam, {| cam_fov := cam_fov cam;
                               cam_aspect := or_else vw 800 / or_else vh 600;
                               cam_near := cam_near cam; cam_far := cam_far cam;
                               cam_position := cam_position cam;
                               cam_projection := or_else vw 800 / or_else vh 600 |}) k)
             (heap w));
      refs := refs w; state := state w; calls := calls w |}).
Proof.
  intros [HI Hmc Hrl _ _ _ _ _ _ _ _]. unfold windowResize.
  unfold mbind at 1, JS_bind at 1, modify at 1.
  unfold mbind at 1, JS_bind at 1, gets at 1.
  pose proof (inv_mountRef _ _ HI) as Hmr.
  destruct_world w. simpl in Hrl, Hmr. subst. simpl.
  unfold mbind at 1, JS_bind at 1. rewrite handleResize_spec. reflexivity.
Qed.

Lemma dispatch_Mounted ev w :
  phase (state w) = Mounted →
  dispatch ev w =
    match ev with
    | Mount => mret ()
    | ClickShape key => when (bool_decide (key ∈ Object_keys GEOMETRIES)) (setGeometryKey key)
    | ClickWireframe => toggleWireframe
    | ClickAutoRotate => toggleAutoRotate
    | AnimationFrame => animationFrame
    | WindowResize vw vh => windowResize vw vh
    | Unmount => unmount
    end w.
Proof.
  intros Hph. unfold dispatch. unfold mbind, JS_bind, gets. rewrite Hph. by destruct ev.
Qed.

(** ** The second invariant *)

Lemma occurrences_lookup c cs i : cs !! i = Some c → 0 < occurrences c cs.
Proof.
  revert i. induction cs as [|c' cs IH]; intros [|i] H; simplify_eq/=.
  - rewrite bool_decide_true by done. lia.
  - specialize (IH _ H). lia.
Qed.

Lemma never_renders_disposed_app cs extra :
  never_renders_disposed cs →
  never_renders_disposed extra →
  (∀ j r s c, extra !! j = Some (RendererRender r s c) →
              occurrences (RendererDispose r) cs = 0) →
  never_renders_disposed (cs ++ extra).
Proof.
  intros H1 H2 H3 i j r s c Hi Hj.
  apply lookup_app_Some in Hi as [Hi|[Li Hi]]; apply lookup_app_Some in Hj as [Hj|[Lj Hj]].
  - by eapply H1.
  - apply H3 in Hj. apply occurrences_lookup in Hi. lia.
  - apply lookup_lt_Some in Hj. lia.
  - specialize (H2 _ _ _ _ _ Hi Hj). lia.
Qed.

Lemma never_renders_disposed_nil : never_renders_disposed [].
Proof. intros i j r s c Hi. by rewrite lookup_nil in Hi. Qed.

(** Settles the order of renders and disposes in an explicit list. *)
Ltac explicit_calls :=
  let i := fresh "i" in let j := fresh "j" in
  intros i j ? ? ? ? ?;
  repeat (destruct i as [|i]; simplify_eq/=);
  repeat (destruct j as [|j]; simplify_eq/=); try lia.

Lemma in_step_snoc dpr (cams : list PerspectiveCamera) (rds : list WebGLRenderer) cam rd :
  length cams = length rds →
  (∀ i cam rd, cams !! i = Some cam → rds !! i = Some rd → in_step dpr cam rd) →
  in_step dpr cam rd →
  ∀ i cam' rd', (cams ++ [cam]) !! i = Some cam' → (rds ++ [rd]) !! i = Some rd' →
                in_step dpr cam' rd'.
Proof.
  intros Hlen Hold Hnew i cam' rd' Hc Hr.
  apply lookup_app_Some in Hc as [Hc|[Lc Hc]];
    apply lookup_app_Some in Hr as [Hr|[Lr Hr]].
  - by eapply Hold.
  - apply lookup_lt_Some in Hc. lia.
  - apply lookup_lt_Some in Hr. lia.
  - apply list_lookup_singleton_Some in Hc as [_ <-].
    apply list_lookup_singleton_Some in Hr as [_ <-]. done.
Qed.

Lemma in_step_resize dpr (cams : list PerspectiveCamera) (rds : list WebGLRenderer) k
    (W H : number) :
  (∀ i cam rd, cams !! i = Some cam → rds !! i = Some rd → in_step dpr cam rd) →
  ∀ i cam rd,
    alter (λ cam, {| cam_fov := cam_fov cam; cam_aspect := W / H;
                     cam_near := cam_near cam; cam_far := cam_far cam;
                     cam_position := cam_position cam;
                     cam_projection := W / H |}) k cams !! i = Some cam →
    alter (λ rd, {| rd_antialias := rd_antialias rd; rd_width := W; rd_height := H;
                    rd_pixelRatio := rd_pixelRatio rd |}) k rds !! i = Some rd →
    in_step dpr cam rd.
Proof.
  intros Hold i cam rd Hc Hr.
  destruct (decide (i = k)) as [->|Hne].
  - rewrite list_lookup_alter_eq in Hc. rewrite list_lookup_alter_eq in Hr.
    destruct (cams !! k) as [cam0|] eqn:Ec; [|done].
    destruct (rds !! k) as [rd0|] eqn:Er; [|done].
    simpl in *. simplify_eq.
    destruct (Hold _ _ _ Ec Er) as (? & ? & ? & ? & ? & ? & ? & ?).
    by repeat split.
  - rewrite list_lookup_alter_ne in Hc by done.
    rewrite list_lookup_alter_ne in Hr by done. by eapply Hold.
Qed.

Lemma MountedInv_resized w w' k : resized w w' → MountedInv w k → MountedInv w' k.
Proof.
  intros (Hls & Hdpr & Hmc & Hrl & Hfh & Hfc & Hsc & Hca & Hre & Hge & Hma & Hme &
          Hrefs & Hstate & Hcalls).
  intros [Hh Hd ? ? ? ? ? ? ? ? ? ? ?].
  split; unfold heap_size, disposals in *;
    rewrite ?Hsc, ?Hca, ?Hre, ?Hge, ?Hma, ?Hme, ?Hcalls, ?Hfc, ?Hfh, ?Hrefs, ?Hstate;
    done.
Qed.

Lemma SceneInv_tick w k :
  SceneInv w k →
  ∃ w', animationFrame w = (Normal (), w') ∧ SceneInv w' k ∧
        phase (state w') = phase (state w).
Proof.
  intros [HI Hmc Hrl Hsr Hcr Hsv Hsh Hsc Hcl Hst Hnr].
  destruct (inv_mesh _ _ HI) as (m & Hm & _).
  pose proof (inv_disposals _ _ HI k) as (Hk0 & _).
  rewrite decide_False, decide_True in Hk0 by lia.
  destruct (autoRotateRef (refs w)) eqn:Hrot.
  - destruct (MountedInv_tick_rotating w k m HI Hrot Hm) as (w' & Hrun & HI').
    exists w'. split; [done|].
    rewrite (tick_rotating w k m) in Hrun; [|apply HI|done|apply HI|done].
    injection Hrun as <-. split; [|done].
    destruct_world w. split; unfold preferences_saved in *; simpl in *; try done.
    + by rewrite !lookup_insert_ne.
    + apply never_renders_disposed_app; [done|explicit_calls|].
      intros [|[|[|j]]] ????; by simplify_eq/=.
  - destruct (MountedInv_tick_idle w k HI Hrot) as (w' & Hrun & HI').
    exists w'. split; [done|].
    rewrite (tick_idle w k) in Hrun; [|apply HI|done].
    injection Hrun as <-. split; [|done].
    destruct_world w. split; unfold preferences_saved in *; simpl in *; try done.
    apply never_renders_disposed_app; [done|explicit_calls|].
    intros [|[|[|j]]] ????; by simplify_eq/=.
Qed.

Lemma SceneInv_toggleWireframe w k :
  SceneInv w k →
  ∃ w', toggleWireframe w = (Normal (), w') ∧ SceneInv w' k ∧
        phase (state w') = phase (state w).
Proof.
  intros [HI Hmc Hrl Hsr Hcr Hsv Hsh Hsc Hcl Hst Hnr].
  destruct (inv_mesh _ _ HI) as (m & Hm & _ & Hma).
  destruct (toggleWireframe_inv w k HI) as (w' & Hrun & HI').
  exists w'. split; [done|].
  rewrite (toggleWireframe_spec w k m) in Hrun; [|apply HI|done].
  injection Hrun as <-. split; [|by destruct_world w].
  destruct Hsh as (info & mat & Hinfo & Hgeo & Hmat & Hcol & Hwf).
  destruct_world w. split; unfold preferences_saved in *; simpl in *; try done.
  - destruct_and!. rewrite lookup_insert_eq, !lookup_insert_ne by done. done.
  - eexists info, _. split; [done|]. split; [done|].
    rewrite Hma, list_lookup_alter_eq, Hmat. simpl. done.
Qed.

Lemma SceneInv_toggleAutoRotate w k :
  SceneInv w k →
  ∃ w', toggleAutoRotate w = (Normal (), w') ∧ SceneInv w' k ∧
        phase (state w') = phase (state w).
Proof.
  intros [HI Hmc Hrl Hsr Hcr Hsv Hsh Hsc Hcl Hst Hnr].
  destruct (toggleAutoRotate_inv w k HI) as (w' & Hrun & HI').
  exists w'. split; [done|].
  rewrite toggleAutoRotate_spec in Hrun.
  injection Hrun as <-. split; [|by destruct_world w].
  destruct_world w. split; unfold preferences_saved in *; simpl in *; try done.
  destruct_and!. rewrite lookup_insert_eq, !lookup_insert_ne by done. done.
Qed.

Lemma SceneInv_windowResize w k vw vh :
  SceneInv w k →
  ∃ w', windowResize vw vh w = (Normal (), w') ∧ SceneInv w' k ∧
        phase (state w') = phase (state w).
Proof.
  intros HS. pose proof HS as [HI Hmc Hrl Hsr Hcr Hsv Hsh Hsc Hcl Hst Hnr].
  destruct (windowResize_resized vw vh w) as (w' & Hrun & R).
  exists w'. split; [done|].
  pose proof (MountedInv_resized _ _ _ R HI) as HI'.
  rewrite (windowResize_run w k) in Hrun by done.
  injection Hrun as <-. split; [|by destruct_world w].
  destruct_world w. split; unfold preferences_saved in *; simpl in *; try done.
  by apply in_step_resize.
Qed.

Lemma SceneInv_setGeometryKey w k key :
  key ∈ Object_keys GEOMETRIES →
  String.eqb key (geometryKey (state w)) = false →
  SceneInv w k →
  ∃ w', setGeometryKey key w = (Normal (), w') ∧ SceneInv w' (S k) ∧
        phase (state w') = phase (state w) ∧ geometryKey (state w') = key.
Proof.
  intros Hkey Heq HS. pose proof HS as [HI Hmc Hrl Hsr Hcr Hsv Hsh Hsc Hcl Hst Hnr].
  destruct (GEOMETRIES_get_Some key Hkey) as [info Hinfo].
  destruct (setGeometryKey_new w k key Hkey Heq HI) as (w' & Hrun & _ & _ & _ & HI').
  exists w'. split; [done|].
  rewrite (setGeometryKey_run w k key info) in Hrun by done.
  injection Hrun as <-. split; [|by destruct_world w].
  pose proof (inv_heap _ _ HI) as (Lsc & Lca & Lre & Lge & Lma & Lme).
  pose proof (inv_wireframeRef _ _ HI) as Hwr.
  pose proof (inv_disposals _ _ HI) as Hd.
  destruct_world w. split; unfold preferences_saved in *; simpl in *; try done.
  - destruct_and!. destruct arr; simpl;
      rewrite ?(lookup_insert_ne _ "meshRotation") by done;
      rewrite lookup_insert_eq, !lookup_insert_ne by done; done.
  - eexists info, _. split; [done|].
    rewrite <- Lge at 1. rewrite <- Lma at 1.
    rewrite !list_lookup_middle by done. done.
  - rewrite <- (length_alter cleared sc k) in Lsc.
    rewrite <- Lsc at 1. by rewrite list_lookup_middle.
  - intros i Hi. rewrite lookup_app_l by (rewrite length_alter; lia).
    destruct (decide (i = k)) as [->|Hne].
    + by rewrite list_lookup_alter_eq, Hsc.
    + rewrite list_lookup_alter_ne by done. apply Hcl. lia.
  - apply in_step_snoc; [congruence|done|]. by repeat split.
  - unfold teardown_calls.
    apply never_renders_disposed_app; [done|explicit_calls|].
    intros j r s c Hj.
    assert (r = S k) as ->.
    { do 10 (destruct j as [|j]; simplify_eq/=; try done). }
    destruct (Hd (S k)) as (Hr' & _). simpl in Hr'.
    rewrite Hr'. rewrite !decide_False by lia. done.
Qed.

Lemma SceneInv_unmount w k :
  SceneInv w k →
  ∃ w', unmount w = (Normal (), w') ∧ TornDown w' k ∧ phase (state w') = Unmounted.
Proof.
  intros [HI Hmc Hrl Hsr Hcr Hsv Hsh Hsc Hcl Hst Hnr].
  rewrite (unmount_spec w k HI). eexists. split; [reflexivity|].
  split; [|by destruct_world w].
  pose proof (inv_heap _ _ HI) as (Lsc & Lca & Lre & Lge & Lma & Lme).
  pose proof (inv_key _ _ HI) as Hkey.
  pose proof (inv_rendererRef _ _ HI) as Hrr.
  destruct_world w. split; unfold preferences_saved, heap_size in *; simpl in *; try done.
  - by rewrite length_alter.
  - rewrite Hrl. apply filter_ne_singleton.
  - intros i Hi. destruct (decide (i = k)) as [->|Hne].
    + by rewrite list_lookup_alter_eq, Hsc.
    + rewrite list_lookup_alter_ne by done. apply Hcl. lia.
  - apply never_renders_disposed_app; [done|explicit_calls|].
    intros j r s c Hj. do 7 (destruct j as [|j]; simplify_eq/=; try done).
Qed.

Lemma SceneInv_mount store size dpr :
  ∃ w', mount (boot store size dpr) = (Normal (), w') ∧ SceneInv w' 0 ∧
        phase (state w') = Mounted.
Proof.
  destruct (mount_spec (boot store size dpr)) as (w' & info & Hrun & Hinfo & _ & _ & HI).
  exists w'. split; [done|].
  specialize (HI ltac:(by repeat split) eq_refl eq_refl).
  rewrite (mount_boot store size dpr info) in Hrun by done.
  injection Hrun as <-. split; [|done].
  split; unfold preferences_saved; simpl; try done.
  - destruct (initial_autoRotate store); simpl; repeat split;
      repeat (rewrite lookup_insert_eq || rewrite lookup_insert_ne by done); done.
  - by eexists info, _.
  - intros i Hi. lia.
  - intros [|i] cam rd Hc Hr; simplify_eq/=. by repeat split.
  - explicit_calls.
Qed.

Lemma TornDown_viewport w k size :
  TornDown w k → TornDown (map_browser (map_viewport (λ _, size)) w) k.
Proof. intros []. by destruct_world w. Qed.

Lemma SceneInvariant_Mounted w k :
  phase (state w) = Mounted → SceneInv w k → SceneInvariant w.
Proof. intros Hph HS. unfold SceneInvariant. rewrite Hph. by exists k. Qed.

Lemma SceneInvariant_Unmounted w k :
  phase (state w) = Unmounted → TornDown w k → SceneInvariant w.
Proof. intros Hph HS. unfold SceneInvariant. rewrite Hph. by exists k. Qed.

(** After the unmount only a resize changes the world, and only the
    viewport. *)
Lemma dispatch_Unmounted ev w k :
  phase (state w) = Unmounted → TornDown w k →
  dispatch ev w =
    (Normal (),
     match ev with
     | WindowResize vw vh => map_browser (map_viewport (λ _, (vw, vh))) w
     | _ => w
     end).
Proof.
  intros Hph [_ Hq _ _ _ Hrl _ _ _ _ _].
  unfold dispatch. unfold mbind, JS_bind, gets. rewrite Hph.
  destruct ev as [|key| | | |vw vh|]; try reflexivity.
  - by apply tick_empty.
  - unfold windowResize, mbind, JS_bind, modify, gets.
    destruct_world w. simpl in Hrl. by subst.
Qed.

Lemma dispatch_scene ev w :
  SceneInvariant w → ∃ w', dispatch ev w = (Normal (), w') ∧ SceneInvariant w'.
Proof.
  unfold SceneInvariant at 1. destruct (phase (state w)) eqn:Hph.
  - intros (store & size & dpr & ->).
    destruct ev as [|key| | | |vw vh|].
    2-5, 7: by (exists (boot store size dpr); split; [reflexivity|];
                unfold SceneInvariant; simpl; eauto).
    + destruct (SceneInv_mount store size dpr) as (w' & Hrun & HS & Hph').
      exists w'. split; [done|]. by eapply SceneInvariant_Mounted.
    + exists (boot store (vw, vh) dpr). split; [reflexivity|].
      by exists store, (vw, vh), dpr.
  - intros [k HS]. rewrite dispatch_Mounted by done.
    destruct ev as [|key| | | |vw vh|].
    + exists w. split; [done|]. by eapply SceneInvariant_Mounted.
    + unfold when. case_bool_decide as Hkey;
        [|exists w; split; [done|]; by eapply SceneInvariant_Mounted].
      destruct (String.eqb key (geometryKey (state w))) eqn:Heq.
      { rewrite setGeometryKey_same by done. exists w. split; [done|].
        by eapply SceneInvariant_Mounted. }
      destruct (SceneInv_setGeometryKey w k key Hkey Heq HS) as (w' & Hrun & HS' & Hph' & _).
      exists w'. split; [done|]. eapply SceneInvariant_Mounted; [|done]. congruence.
    + destruct (SceneInv_toggleWireframe w k HS) as (w' & Hrun & HS' & Hph').
      exists w'. split; [done|]. eapply SceneInvariant_Mounted; [|done]. congruence.
    + destruct (SceneInv_toggleAutoRotate w k HS) as (w' & Hrun & HS' & Hph').
      exists w'. split; [done|]. eapply SceneInvariant_Mounted; [|done]. congruence.
    + destruct (SceneInv_tick w k HS) as (w' & Hrun & HS' & Hph').
      exists w'. split; [done|]. eapply SceneInvariant_Mounted; [|done]. congruence.
    + destruct (SceneInv_windowResize w k vw vh HS) as (w' & Hrun & HS' & Hph').
      exists w'. split; [done|]. eapply SceneInvariant_Mounted; [|done]. congruence.
    + destruct (SceneInv_unmount w k HS) as (w' & Hrun & HS' & Hph').
      exists w'. split; [done|]. by eapply SceneInvariant_Unmounted.
  - intros [k HT]. rewrite (dispatch_Unmounted ev w k) by done.
    eexists. split; [reflexivity|].
    destruct ev as [|key| | | |vw vh|]; try (by eapply SceneInvariant_Unmounted).
    eapply (SceneInvariant_Unmounted _ k); [by destruct_world w|].
    by apply TornDown_viewport.
Qed.

Lemma run_scene evs w :
  SceneInvariant w → ∃ w', run evs w = (Normal (), w') ∧ SceneInvariant w'.
Proof.
  revert w. induction evs as [|ev evs IH]; intros w HI.
  - by exists w.
  - destruct (dispatch_scene ev w HI) as (w1 & H1 & HI1).
    destruct (IH w1 HI1) as (w2 & H2 & HI2).
    exists w2. split; [|done]. by rewrite (run_cons _ _ _ _ H1).
Qed.

Lemma reachable_scene w : reachable w → SceneInvariant w.
Proof.
  intros (store & size & dpr & evs & Hrun).
  destruct (run_scene evs (boot store size dpr)) as (w' & Hrun' & HI).
  { by exists store, size, dpr. }
  congruence.
Qed.

Lemma reachable_SceneInv w :
  reachable w → phase (state w) = Mounted → ∃ k, SceneInv w k.
Proof.
  intros Hr Hph. apply reachable_scene in Hr. unfold SceneInvariant in Hr.
  by rewrite Hph in Hr.
Qed.

Lemma reachable_TornDown w :
  reachable w → phase (state w) = Unmounted → ∃ k, TornDown w k.
Proof.
  intros Hr Hph. apply reachable_scene in Hr. unfold SceneInvariant in Hr.
  by rewrite Hph in Hr.
Qed.

Lemma run_Unmounted evs : ∀ w k,
  phase (state w) = Unmounted → TornDown w k →
  ∃ w', run evs w = (Normal (), w') ∧
        localStorage (browser w') = localStorage (browser w) ∧
        mountChildren (browser w') = mountChildren (browser w) ∧
        frameCallbacks (browser w') = [] ∧ resizeListeners (browser w') = [] ∧
        heap w' = heap w ∧ refs w' = refs w ∧ state w' = state w ∧ calls w' = calls w.
Proof.
  induction evs as [|ev evs IH]; intros w k Hph HT.
  - exists w. split; [done|]. repeat split; apply HT.
  - pose proof (dispatch_Unmounted ev w k Hph HT) as Hd.
    rewrite (run_cons _ _ _ _ Hd).
    set (w1 := match ev with WindowResize vw vh => _ | _ => w end) in *.
    assert (H1 : localStorage (browser w1) = localStorage (browser w) ∧
                 mountChildren (browser w1) = mountChildren (browser w) ∧
                 heap w1 = heap w ∧ refs w1 = refs w ∧ state w1 = state w ∧
                 calls w1 = calls w ∧ TornDown w1 k).
    { subst w1. destruct ev as [|key| | | |vw vh|]; try done.
      do 6 (split; [by destruct_world w|]). by apply TornDown_viewport. }
    destruct H1 as (E1 & E2 & E3 & E4 & E5 & E6 & HT1).
    destruct (IH w1 k) as (w' & Hrun & F1 & F2 & F3 & F4 & F5 & F6 & F7 & F8);
      [congruence|done|].
    exists w'. split; [done|]. repeat split; congruence.
Qed.

Lemma own_keys_ne key :
  key ∉ own_keys →
  key ≠ "geometryKey" ∧ key ≠ "wireframe" ∧ key ≠ "autoRotate" ∧ key ≠ "meshRotation".
Proof.
  unfold own_keys. rewrite !not_elem_of_cons. intros (? & ? & ? & ? & _). done.
Qed.

(** No event changes what the store holds under a key that is not one of the
    component's. *)
Lemma dispatch_store ev w w' key :
  key ∉ own_keys → SceneInvariant w → dispatch ev w = (Normal (), w') →
  localStorage (browser w') !! key = localStorage (browser w) !! key.
Proof.
  intros Hkey HI. apply own_keys_ne in Hkey as (Hg & Hw & Ha & Hm).
  unfold SceneInvariant in HI. destruct (phase (state w)) eqn:Hph.
  - destruct HI as (store & size & dpr & ->).
    destruct ev as [|k'| | | |vw vh|]; try (intros H; by injection H as <-).
    destruct (GEOMETRIES_get_Some _ (initial_geometryKey_valid store)) as [info Hinfo].
    unfold dispatch, mbind, JS_bind, gets. simpl.
    rewrite (mount_boot store size dpr info Hinfo). intros H. injection H as <-. simpl.
    destruct (initial_autoRotate store); simpl; by rewrite !lookup_insert_ne.
  - destruct HI as [k HS]. pose proof (si_mounted _ _ HS) as HM.
    rewrite dispatch_Mounted by done.
    destruct ev as [|k'| | | |vw vh|].
    + intros H. by injection H as <-.
    + unfold when. case_bool_decide as Hk'; [|intros H; by injection H as <-].
      destruct (String.eqb k' (geometryKey (state w))) eqn:Heq.
      { rewrite setGeometryKey_same by done. intros H. by injection H as <-. }
      destruct (GEOMETRIES_get_Some k' Hk') as [info Hinfo].
      rewrite (setGeometryKey_run w k k' info) by done.
      intros H. injection H as <-. simpl.
      destruct (autoRotateRef (refs w)); simpl; by rewrite !lookup_insert_ne.
    + destruct (inv_mesh _ _ HM) as (m & Hmesh & _).
      rewrite (toggleWireframe_spec w k m); [|apply HM|done].
      intros H. injection H as <-. simpl. by rewrite lookup_insert_ne.
    + rewrite toggleAutoRotate_spec.
      intros H. injection H as <-. simpl. by rewrite lookup_insert_ne.
    + destruct (inv_mesh _ _ HM) as (m & Hmesh & _).
      destruct (autoRotateRef (refs w)) eqn:Hrot.
      * rewrite (tick_rotating w k m); [|apply HM|done|apply HM|done].
        intros H. injection H as <-. simpl. by rewrite lookup_insert_ne.
      * rewrite (tick_idle w k); [|apply HM|done].
        intros H. by injection H as <-.
    + rewrite (windowResize_run w k) by done. intros H. by injection H as <-.
    + rewrite (unmount_spec w k HM). intros H. by injection H as <-.
  - destruct HI as [k HT]. rewrite (dispatch_Unmounted ev w k) by done.
    intros H. injection H as <-. by destruct ev.
Qed.

Lemma run_store evs : ∀ w key,
  key ∉ own_keys → SceneInvariant w →
  ∃ w', run evs w = (Normal (), w') ∧
        localStorage (browser w') !! key = localStorage (browser w) !! key.
Proof.
  induction evs as [|ev evs IH]; intros w key Hkey HI.
  - by exists w.
  - destruct (dispatch_scene ev w HI) as (w1 & H1 & HI1).
    destruct (IH w1 key Hkey HI1) as (w2 & H2 & Hs2).
    exists w2. rewrite (run_cons _ _ _ _ H1). split; [done|].
    rewrite Hs2. by eapply dispatch_store.
Qed.

(** Which events allocate. *)
Lemma dispatch_heap_size ev w w' :
  SceneInvariant w → dispatch ev w = (Normal (), w') →
  ∃ n, heap_size w n ∧ heap_size w' (if constructs ev w then S n else n).
Proof.
  intros HI Hd. unfold SceneInvariant in HI. unfold constructs.
  destruct (phase (state w)) eqn:Hph.
  - destruct HI as (store & size & dpr & ->). exists 0. split; [by repeat split|].
    destruct ev as [|k'| | | |vw vh|]; try (injection Hd as <-; by repeat split).
    destruct (SceneInv_mount store size dpr) as (w1 & Hrun & HS & _).
    change (dispatch Mount (boot store size dpr)) with (mount (boot store size dpr)) in Hd.
    rewrite Hrun in Hd. injection Hd as <-. apply (inv_heap _ _ (si_mounted _ _ HS)).
  - destruct HI as [k HS]. pose proof (inv_heap _ _ (si_mounted _ _ HS)) as Hh.
    exists (S k). split; [done|]. rewrite dispatch_Mounted in Hd by done.
    destruct ev as [|k'| | | |vw vh|].
    + by injection Hd as <-.
    + unfold when in Hd. case_bool_decide as Hk'; [|by injection Hd as <-].
      destruct (String.eqb k' (geometryKey (state w))) eqn:Heq; simpl.
      { rewrite setGeometryKey_same in Hd by done. by injection Hd as <-. }
      destruct (SceneInv_setGeometryKey w k k' Hk' Heq HS) as (w1 & Hrun & HS1 & _).
      rewrite Hrun in Hd. injection Hd as <-. apply (inv_heap _ _ (si_mounted _ _ HS1)).
    + destruct (SceneInv_toggleWireframe w k HS) as (w1 & Hrun & HS1 & _).
      rewrite Hrun in Hd. injection Hd as <-. apply (inv_heap _ _ (si_mounted _ _ HS1)).
    + destruct (SceneInv_toggleAutoRotate w k HS) as (w1 & Hrun & HS1 & _).
      rewrite Hrun in Hd. injection Hd as <-. apply (inv_heap _ _ (si_mounted _ _ HS1)).
    + destruct (SceneInv_tick w k HS) as (w1 & Hrun & HS1 & _).
      rewrite Hrun in Hd. injection Hd as <-. apply (inv_heap _ _ (si_mounted _ _ HS1)).
    + destruct (SceneInv_windowResize w k vw vh HS) as (w1 & Hrun & HS1 & _).
      rewrite Hrun in Hd. injection Hd as <-. apply (inv_heap _ _ (si_mounted _ _ HS1)).
    + destruct (SceneInv_unmount w k HS) as (w1 & Hrun & HT1 & _).
      rewrite Hrun in Hd. injection Hd as <-. apply (td_heap _ _ HT1).
  - destruct HI as [k HT]. exists (S k). split; [apply HT|].
    rewrite (dispatch_Unmounted ev w k) in Hd by done. injection Hd as <-.
    destruct ev as [|k'| | | |vw vh|]; apply HT.
Qed.

Lemma initial_geometryKey_saved store key :
  store !! "geometryKey" = Some key → key ∈ Object_keys GEOMETRIES →
  initial_geometryKey store = key.
Proof.
  intros Hs Hk. unfold initial_geometryKey. rewrite Hs. by rewrite bool_decide_true.
Qed.

Lemma initial_wireframe_saved store b :
  store !! "wireframe" = Some (String_of_bool b) → initial_wireframe store = b.
Proof. intros Hs. unfold initial_wireframe. rewrite Hs. by destruct b. Qed.

Lemma initial_autoRotate_saved store b :
  store !! "autoRotate" = Some (String_of_bool b) → initial_autoRotate store = b.
Proof. intros Hs. unfold initial_autoRotate. rewrite Hs. by destruct b. Qed.

Lemma highlighted_selected s :
  geometryKey s ∈ Object_keys GEOMETRIES → highlighted (render s) = [geometryKey s].
Proof.
  destruct s as [ph gk wf ar sc]. simpl.
  unfold Object_keys, GEOMETRIES. simpl. rewrite !elem_of_cons, elem_of_nil.
  intros H. repeat (destruct H as [->|H]; [vm_compute; reflexivity|]). done.
Qed.

Lemma shapeButtons_elem s key b :
  (key, b) ∈ shapeButtons (render s) →
  key ∈ Object_keys GEOMETRIES ∧ onClick b = setGeometryKey key.
Proof.
  intros H. apply (list_elem_of_fmap_1 _ (Object_entries GEOMETRIES)) in H.
  destruct H as ([key' g] & Heq & Hin). simplify_eq. split; [|done].
  unfold Object_keys. apply list_elem_of_fmap. by exists (key', g).
Qed.

Lemma reshaped_page_reachable : reachable reshaped_page.
Proof.
  exists sample_store, (800, 600)%float, 1%float, [Mount; ClickShape "sphere"].
  vm_compute. reflexivity.
Qed.

Lemma customized_page_reachable : reachable customized_page.
Proof.
  exists sample_store, (800, 600)%float, 1%float,
    [Mount; ClickShape "torusKnot"; ClickWireframe; ClickAutoRotate; Unmount].
  vm_compute. reflexivity.
Qed.

Lemma resized_page_reachable : reachable resized_page.
Proof.
  exists sample_store, (800, 600)%float, 1%float, [Mount; WindowResize 1024 0].
  vm_compute. reflexivity.
Qed.

Lemma ticked_page_reachable : reachable ticked_page.
Proof.
  exists sample_store, (800, 600)%float, 1%float, [Mount; AnimationFrame].
  vm_compute. reflexivity.
Qed.

(** ** Division in binary64 *)

Section Rounding.
Local Open Scope Z_scope.

Lemma shr_1_nonneg mrs : 0 ≤ shr_m mrs → 0 ≤ shr_m (shr_1 mrs).
Proof. destruct mrs as [[|[p|p|]|p] r s]; simpl; lia. Qed.

Lemma iter_shr_1_nonneg p :
  ∀ mrs, 0 ≤ shr_m mrs → 0 ≤ shr_m (SpecFloat.iter_pos shr_1 p mrs).
Proof.
  induction p as [p IH|p IH|]; intros mrs H; simpl.
  - by apply IH, IH, shr_1_nonneg.
  - by apply IH, IH.
  - by apply shr_1_nonneg.
Qed.

Lemma shr_fexp_nonneg m e l : 0 ≤ m → 0 ≤ shr_m (shr_fexp prec emax m e l).1.
Proof.
  intros H. unfold shr_fexp, shr.
  assert (H0 : 0 ≤ shr_m (shr_record_of_loc m l)) by by destruct l as [|[]].
  destruct (_ - e); simpl; [done| |done]. by apply iter_shr_1_nonneg.
Qed.

Lemma round_nearest_even_nonneg m l : 0 ≤ m → 0 ≤ round_nearest_even m l.
Proof.
  intros H. unfold round_nearest_even.
  destruct l as [|[]]; try destruct (Z.even m); lia.
Qed.

(** Rounding a magnitude never yields NaN. *)
Lemma binary_round_aux_not_nan s m e l :
  0 ≤ m → binary_round_aux prec emax s m e l ≠ S754_nan.
Proof.
  intros H. unfold binary_round_aux.
  pose proof (shr_fexp_nonneg m e l H) as H1.
  destruct (shr_fexp prec emax m e l) as [mrs' e']. simpl in H1.
  pose proof (shr_fexp_nonneg _ e' loc_Exact
                (round_nearest_even_nonneg _ (loc_of_shr_record mrs') H1)) as H2.
  destruct (shr_fexp prec emax _ e' loc_Exact) as [mrs'' e'']. simpl in H2.
  destruct (shr_m mrs'') as [|p|p]; [done| |lia].
  by destruct (e'' <=? emax - prec).
Qed.

Lemma SFdiv_finite_not_nan sx mx ex sy my ey :
  SFdiv prec emax (S754_finite sx mx ex) (S754_finite sy my ey) ≠ S754_nan.
Proof.
  unfold SFdiv, SFdiv_core_binary.
  set (s := _ - _ - Z.min _ _).
  set (m' := match s with Z0 => Zpos mx | Zpos _ => Z.shiftl (Zpos mx) s | Zneg _ => 0 end).
  assert (Hm : 0 ≤ m').
  { subst m'. destruct s; [lia| |lia]. apply Z.shiftl_nonneg. lia. }
  pose proof (Z.div_pos m' (Zpos my) Hm ltac:(lia)) as Hq.
  unfold Z.div in Hq. destruct (Z.div_eucl m' (Zpos my)) as [q r]. simpl in Hq.
  by apply binary_round_aux_not_nan.
Qed.
End Rounding.

Lemma SFeqb_refl x : x ≠ S754_nan → SFeqb x x = true.
Proof.
  intros H. unfold SFeqb, SFcompare.
  destruct x as [[]|[]| |[] m e]; try done;
    by rewrite Z.compare_refl, Pos.compare_cont_refl.
Qed.

Lemma is_nan_SF x :
  is_nan x = match Prim2SF x with S754_nan => true | _ => false end.
Proof.
  unfold is_nan. rewrite FloatAxioms.eqb_spec.
  destruct (Prim2SF x) as [s|s| |s m e] eqn:E; [by destruct s|by destruct s|done|].
  by rewrite SFeqb_refl.
Qed.

Lemma is_zero_SF x :
  is_zero x = match Prim2SF x with S754_zero _ => true | _ => false end.
Proof.
  unfold is_zero. rewrite FloatAxioms.eqb_spec.
  destruct (Prim2SF x) as [s|s| |s m e] eqn:E; by try destruct s.
Qed.

Lemma is_infinity_SF x :
  is_infinity x = match Prim2SF x with S754_infinity _ => true | _ => false end.
Proof.
  unfold is_infinity. rewrite FloatAxioms.eqb_spec, abs_spec.
  destruct (Prim2SF x) as [s|s| |s m e] eqn:E; by try destruct s.
Qed.

(** A quotient is NaN exactly when an operand is, or both are zero, or both
    are infinite. *)
Lemma div_nan_iff x y :
  is_nan (x / y) = true ↔
  is_nan x = true ∨ is_nan y = true ∨ (is_zero x = true ∧ is_zero y = true) ∨
  (is_infinity x = true ∧ is_infinity y = true).
Proof.
  rewrite (is_nan_SF (x / y)), div_spec.
  rewrite (is_nan_SF x), (is_nan_SF y), (is_zero_SF x), (is_zero_SF y),
    (is_infinity_SF x), (is_infinity_SF y).
  destruct (Prim2SF x) as [sx|sx| |sx mx ex], (Prim2SF y) as [sy|sy| |sy my ey];
    try (simpl; intuition congruence).
  pose proof (SFdiv_finite_not_nan sx mx ex sy my ey) as Hn.
  unfold SF64div. destruct (SFdiv _ _ _ _); intuition congruence.
Qed.

Lemma or_else_nan measured fallback :
  number_truthy fallback = true → is_nan (or_else measured fallback) = false.
Proof.
  unfold or_else, number_truthy. intros Hf.
  destruct (is_zero measured || is_nan measured) eqn:E; simpl.
  - by destruct (is_zero fallback), (is_nan fallback).
  - by destruct (is_zero measured), (is_nan measured).
Qed.

Lemma or_else_zero measured fallback :
  number_truthy fallback = true → is_zero (or_else measured fallback) = false.
Proof.
  unfold or_else, number_truthy. intros Hf.
  destruct (is_zero measured || is_nan measured) eqn:E; simpl.
  - by destruct (is_zero fallback), (is_nan fallback).
  - by destruct (is_zero measured), (is_nan measured).
Qed.

Lemma or_else_infinity measured fallback :
  is_infinity fallback = false →
  is_infinity (or_else measured fallback) = is_infinity measured.
Proof.
  unfold or_else, number_truthy. intros Hf.
  destruct (is_zero measured || is_nan measured) eqn:E; simpl; [|done].
  rewrite Hf. rewrite is_infinity_SF. rewrite is_zero_SF, is_nan_SF in E.
  by destruct (Prim2SF measured).
Qed.

(** The quotient that the resize handler computes is NaN exactly when both
    measures are infinite. *)
Lemma resize_aspect_nan_iff vw vh :
  is_nan (or_else vw 800 / or_else vh 600) = true ↔
  is_infinity vw = true ∧ is_infinity vh = true.
Proof.
  rewrite div_nan_iff.
  rewrite !or_else_nan, !or_else_zero, !or_else_infinity by reflexivity.
  intuition congruence.
Qed.

(** A number that is neither zero nor NaN, divided by zero, is infinite. *)
Lemma div_zero_infinity x y :
  is_zero y = true → is_zero x = false → is_nan x = false →
  is_infinity (x / y) = true.
Proof.
  rewrite (is_infinity_SF (x / y)), div_spec.
  rewrite (is_zero_SF y), (is_zero_SF x), (is_nan_SF x).
  by destruct (Prim2SF x) as [sx|sx| |sx mx ex], (Prim2SF y) as [sy|sy| |sy my ey].
Qed.

Local Open Scope Z_scope.

(** ** Rounding to binary64, for every rational *)

Lemma shr_m_of_loc m l : shr_m (shr_record_of_loc m l) = m.
Proof. by destruct l as [|[]]. Qed.

Lemma loc_of_record_of_loc m l : loc_of_shr_record (shr_record_of_loc m l) = l.
Proof. by destruct l as [|[]]. Qed.

Lemma new_location_loc_of b r : 0 ≤ r < b → new_location b r = loc_of r b.
Proof.
  intros Hr. unfold new_location, new_location_even, new_location_odd, loc_of.
  destruct (Z.even b) eqn:Hb; [done|].
  destruct (r =? 0) eqn:Hr0; [done|]. f_equal.
  assert (Hodd : Z.odd b = true) by (rewrite <- Z.negb_even, Hb; done).
  apply Z.odd_spec in Hodd as [k Hk].
  destruct (Z.compare_spec (2 * r + 1) b), (Z.compare_spec (2 * r) b); try done; lia.
Qed.

Lemma shr_1_quotient a b :
  0 ≤ a → 0 < b → shr_1 (quotient_record a b) = quotient_record a (2 * b).
Proof.
  intros Ha Hb. unfold quotient_record.
  pose proof (Z.div_mod a b ltac:(lia)) as Hab.
  pose proof (Z.mod_pos_bound a b Hb) as Hr.
  pose proof (Z.div_pos a b Ha Hb) as Hm.
  set (m := a / b) in *. set (r := a mod b) in *.
  assert (Hq : a / (2 * b) = m / 2).
  { rewrite Z.mul_comm, <- Z.div_div by lia. done. }
  assert (Hr2 : a mod (2 * b) = (m mod 2) * b + r).
  { pose proof (Z.div_mod a (2 * b) ltac:(lia)) as H2. rewrite Hq in H2.
    pose proof (Z.div_mod m 2 ltac:(lia)). nia. }
  rewrite Hq, Hr2.
  assert (Hm2 : m mod 2 = 0 ∨ m mod 2 = 1) by (pose proof (Z.mod_pos_bound m 2); lia).
  assert (Hcases : (m = 0 ∧ m / 2 = 0 ∧ m mod 2 = 0) ∨ (m = 1 ∧ m / 2 = 0 ∧ m mod 2 = 1) ∨
                   (∃ p, m = Zpos (xO p) ∧ m / 2 = Zpos p ∧ m mod 2 = 0) ∨
                   (∃ p, m = Zpos (xI p) ∧ m / 2 = Zpos p ∧ m mod 2 = 1)).
  { destruct m as [|[p|p|]|]; [| | | |lia].
    - left. done.
    - right; right; right. exists p. rewrite Pos2Z.inj_xI.
      split; [done|]. split; [symmetry; apply Z.div_unique with 1; lia | symmetry; apply Z.mod_unique with (Zpos p); lia].
    - right; right; left. exists p. rewrite Pos2Z.inj_xO.
      split; [done|]. split; [symmetry; apply Z.div_unique with 0; lia | symmetry; apply Z.mod_unique with (Zpos p); lia].
    - right; left. done. }
  unfold loc_of.
  destruct Hcases as [(-> & -> & ->)|[(-> & -> & ->)|[(p & -> & -> & ->)|(p & -> & -> & ->)]]].
  all: destruct (Z.eqb_spec r 0) as [->|Hr0]; simpl.
  all: try (destruct (Z.eqb_spec b 0); [lia|]).
  all: try (destruct (Z.eqb_spec (1 * b + 0) 0); [lia|]).
  all: try (destruct (Z.eqb_spec (1 * b + r) 0); [lia|]).
  all: try (destruct (Z.eqb_spec (0 * b + r) 0); [lia|]).
  all: try (destruct (Z.eqb_spec r 0); [lia|]).
  all: repeat match goal with
         | |- context [?x ?= ?y] => destruct (Z.compare_spec x y); try lia
         end; try done.
Qed.

Lemma iter_shr_1_quotient n a b :
  0 ≤ a → 0 < b →
  SpecFloat.iter_pos shr_1 n (quotient_record a b) = quotient_record a (2 ^ Zpos n * b).
Proof.
  intros Ha. revert b. induction n as [n IH|n IH|]; intros b Hb; simpl.
  - assert (0 < 2 ^ Zpos n) by (apply Z.pow_pos_nonneg; lia).
    rewrite shr_1_quotient, !IH by nia. f_equal.
    replace (Zpos n~1) with (Zpos n + Zpos n + 1) by lia.
    rewrite !Z.pow_add_r by lia. lia.
  - assert (0 < 2 ^ Zpos n) by (apply Z.pow_pos_nonneg; lia).
    rewrite !IH by nia. f_equal.
    replace (Zpos n~0) with (Zpos n + Zpos n) by lia.
    rewrite !Z.pow_add_r by lia. lia.
  - rewrite shr_1_quotient by lia. done.
Qed.

Lemma shr_quotient a b e n :
  0 ≤ a → 0 < b →
  shr (quotient_record a b) e n = (quotient_record a (2 ^ Z.max 0 n * b), e + Z.max 0 n).
Proof.
  intros Ha Hb. destruct n as [|n|n]; simpl.
  - rewrite Z.add_0_r. by destruct b.
  - rewrite iter_shr_1_quotient by done. done.
  - rewrite Z.add_0_r. by destruct b.
Qed.

(** The number of binary digits. *)
Lemma digits2_pos_size p : digits2_pos p = Pos.size p.
Proof. induction p; simpl; congruence. Qed.

Lemma Zdigits2_log2 m : 0 < m → Zdigits2 m = Z.log2 m + 1.
Proof.
  destruct m as [|p|]; [lia| |lia]. intros _. simpl.
  rewrite digits2_pos_size. destruct p; simpl; rewrite ?Pos2Z.inj_succ; lia.
Qed.

Lemma Zdigits2_bounds m : 0 < m → 2 ^ (Zdigits2 m - 1) ≤ m < 2 ^ Zdigits2 m.
Proof.
  intros Hm. rewrite Zdigits2_log2 by done.
  replace (Z.log2 m + 1 - 1) with (Z.log2 m) by lia.
  pose proof (Z.log2_spec m Hm). rewrite <- Z.add_1_r in *. lia.
Qed.

Lemma Zdigits2_unique m d : 2 ^ (d - 1) ≤ m < 2 ^ d → 0 < d → Zdigits2 m = d.
Proof.
  intros Hm Hd.
  assert (0 < m) by (pose proof (Z.pow_pos_nonneg 2 (d - 1)); lia).
  rewrite Zdigits2_log2 by done.
  rewrite (Z.log2_unique m (d - 1)); [lia|lia|].
  rewrite <- Z.add_1_r. replace (d - 1 + 1) with d by lia. done.
Qed.

Lemma Zdigits2_pos m : 0 < m → 0 < Zdigits2 m.
Proof. destruct m; simpl; lia. Qed.

(** Scaling by a power of two moves the digits of the integer part. *)
Lemma Zdigits2_shift a b j :
  0 < b → 1 ≤ a / b → 0 ≤ j → Zdigits2 ((2 ^ j * a) / b) = Zdigits2 (a / b) + j.
Proof.
  intros Hb Hm Hj.
  pose proof (Zdigits2_bounds (a / b) ltac:(lia)) as [Hlo Hhi].
  pose proof (Zdigits2_pos (a / b) ltac:(lia)) as Hd.
  set (d := Zdigits2 (a / b)) in *.
  assert (0 < 2 ^ j) by (apply Z.pow_pos_nonneg; lia).
  assert (0 < 2 ^ (d - 1)) by (apply Z.pow_pos_nonneg; lia).
  pose proof (Z.mul_div_le a b Hb) as H1.
  pose proof (Z.mul_succ_div_gt a b Hb) as H2.
  assert (b * 2 ^ (d - 1) ≤ a) by nia.
  assert (a < b * 2 ^ d) by nia.
  apply Zdigits2_unique; [|lia]. split.
  - apply Z.div_le_lower_bound; [done|].
    replace (d + j - 1) with (j + (d - 1)) by lia. rewrite Z.pow_add_r by lia. nia.
  - apply Z.div_lt_upper_bound; [done|].
    rewrite Z.pow_add_r by lia. nia.
Qed.

Lemma loc_of_scale c r b : 0 < c → loc_of (c * r) (c * b) = loc_of r b.
Proof.
  intros Hc. unfold loc_of.
  destruct (Z.eqb_spec r 0) as [->|Hr]; [by rewrite Z.mul_0_r|].
  destruct (Z.eqb_spec (c * r) 0); [nia|]. f_equal.
  rewrite Z.mul_assoc, (Z.mul_comm 2 c), <- Z.mul_assoc.
  destruct (Z.compare_spec (c * (2 * r)) (c * b)), (Z.compare_spec (2 * r) b);
    try done; nia.
Qed.

Lemma quotient_record_scale c a b :
  0 < c → 0 < b → quotient_record (c * a) (c * b) = quotient_record a b.
Proof.
  intros Hc Hb. unfold quotient_record.
  rewrite Z.div_mul_cancel_l, Z.mul_mod_distr_l, loc_of_scale by lia. done.
Qed.

(** The record depends on the rational only. *)
Lemma quotient_record_cross a b a' b' :
  0 < b → 0 < b' → a * b' = a' * b → quotient_record a b = quotient_record a' b'.
Proof.
  intros Hb Hb' Heq.
  rewrite <- (quotient_record_scale b' a b), <- (quotient_record_scale b a' b') by done.
  f_equal; lia.
Qed.

Lemma binary_round_aux_quotient sx a b e :
  0 ≤ a → 0 < b →
  binary_round_aux prec emax sx (a / b) e (loc_of (a mod b) b) =
  let n := Z.max 0 (fexp prec emax (Zdigits2 (a / b) + e) - e) in
  finish sx (round_nearest_even (a / (2 ^ n * b)) (loc_of (a mod (2 ^ n * b)) (2 ^ n * b)))
    (e + n).
Proof.
  intros Ha Hb. unfold binary_round_aux, shr_fexp at 1.
  fold (quotient_record a b). rewrite shr_quotient by done.
  unfold quotient_record. rewrite shr_m_of_loc, loc_of_record_of_loc. done.
Qed.

Lemma round_at_value sx a b s :
  0 < a → 0 < b → fine a b s →
  let E := fexp prec emax (Zdigits2 ((2 ^ s * a) / b) - s) in
  round_at sx a b s =
  finish sx (round_nearest_even ((2 ^ s * a) / (2 ^ (E + s) * b))
               (loc_of ((2 ^ s * a) mod (2 ^ (E + s) * b)) (2 ^ (E + s) * b))) E.
Proof.
  intros Ha Hb (Hs & Hm & HE). simpl. unfold round_at.
  assert (0 < 2 ^ s) by (apply Z.pow_pos_nonneg; lia).
  rewrite binary_round_aux_quotient by nia. simpl.
  replace (Zdigits2 ((2 ^ s * a) / b) + - s) with (Zdigits2 ((2 ^ s * a) / b) - s) by lia.
  set (E := fexp prec emax _) in *.
  replace (Z.max 0 (E - - s)) with (E + s) by lia.
  replace (- s + (E + s)) with E by lia. done.
Qed.

Lemma fine_mono a b s s' : 0 < a → 0 < b → fine a b s → s ≤ s' → fine a b s'.
Proof.
  intros Ha Hb (Hs & Hm & HE) Hss.
  assert (Hpow : 2 ^ s' * a = 2 ^ (s' - s) * (2 ^ s * a)).
  { rewrite Z.mul_assoc, <- Z.pow_add_r by lia. f_equal. f_equal. lia. }
  assert (Hd : Zdigits2 ((2 ^ s' * a) / b) = Zdigits2 ((2 ^ s * a) / b) + (s' - s)).
  { rewrite Hpow. apply Zdigits2_shift; lia. }
  split; [lia|]. split.
  - pose proof (Zdigits2_pos ((2 ^ s * a) / b) ltac:(lia)).
    destruct ((2 ^ s' * a) / b) eqn:Hq; simpl in Hd; try lia.
    assert (0 < 2 ^ s') by (apply Z.pow_pos_nonneg; lia).
    pose proof (Z.div_pos (2 ^ s' * a) b ltac:(nia) Hb). lia.
  - rewrite Hd. replace (Zdigits2 ((2 ^ s * a) / b) + (s' - s) - s')
      with (Zdigits2 ((2 ^ s * a) / b) - s) by lia. lia.
Qed.

Lemma round_at_scale sx a b s s' :
  0 < a → 0 < b → fine a b s → s ≤ s' → round_at sx a b s = round_at sx a b s'.
Proof.
  intros Ha Hb Hf Hss. pose proof (fine_mono a b s s' Ha Hb Hf Hss) as Hf'.
  rewrite !round_at_value by done. simpl.
  destruct Hf as (Hs & Hm & HE).
  assert (Hpow : 2 ^ s' * a = 2 ^ (s' - s) * (2 ^ s * a)).
  { rewrite Z.mul_assoc, <- Z.pow_add_r by lia. f_equal. f_equal. lia. }
  assert (Hd : Zdigits2 ((2 ^ s' * a) / b) - s' = Zdigits2 ((2 ^ s * a) / b) - s).
  { rewrite Hpow, Zdigits2_shift by lia. lia. }
  rewrite Hd. set (E := fexp prec emax _) in *.
  assert (0 < 2 ^ (s' - s)) by (apply Z.pow_pos_nonneg; lia).
  assert (0 < 2 ^ (E + s)) by (apply Z.pow_pos_nonneg; lia).
  assert (Hden : 2 ^ (E + s') * b = 2 ^ (s' - s) * (2 ^ (E + s) * b)).
  { rewrite Z.mul_assoc, <- Z.pow_add_r by lia. f_equal. f_equal. lia. }
  rewrite Hden, Hpow.
  rewrite Z.div_mul_cancel_l, Z.mul_mod_distr_l, loc_of_scale by nia. done.
Qed.

(** Two fractions of one value round alike. *)
Lemma round_at_cross sx a b s a' b' s' :
  0 < a → 0 < b → 0 < a' → 0 < b' → a * b' = a' * b →
  fine a b s → fine a' b' s' → round_at sx a b s = round_at sx a' b' s'.
Proof.
  intros Ha Hb Ha' Hb' Heq Hf Hf'.
  rewrite (round_at_scale sx a b s (Z.max s s')) by (done || lia).
  rewrite (round_at_scale sx a' b' s' (Z.max s s')) by (done || lia).
  apply (fine_mono _ _ _ (Z.max s s')) in Hf; [|done|done|lia].
  apply (fine_mono _ _ _ (Z.max s s')) in Hf'; [|done|done|lia].
  set (t := Z.max s s') in *.
  rewrite !round_at_value by done. simpl.
  assert (0 < 2 ^ t) by (apply Z.pow_pos_nonneg; destruct Hf; lia).
  assert (Hq : (2 ^ t * a) / b = (2 ^ t * a') / b').
  { pose proof (quotient_record_cross (2 ^ t * a) b (2 ^ t * a') b' Hb Hb' ltac:(nia)) as Hr.
    apply (f_equal shr_m) in Hr. unfold quotient_record in Hr.
    by rewrite !shr_m_of_loc in Hr. }
  rewrite Hq. set (E := fexp prec emax _) in *.
  assert (0 < 2 ^ (E + t)).
  { apply Z.pow_pos_nonneg; [lia|]. destruct Hf' as (_ & _ & HE'). fold E in HE'. lia. }
  pose proof (quotient_record_cross (2 ^ t * a) (2 ^ (E + t) * b) (2 ^ t * a') (2 ^ (E + t) * b')
                ltac:(nia) ltac:(nia) ltac:(nia)) as Hr.
  unfold quotient_record in Hr.
  pose proof (f_equal shr_m Hr) as Hm. rewrite !shr_m_of_loc in Hm.
  pose proof (f_equal loc_of_shr_record Hr) as Hl. rewrite !loc_of_record_of_loc in Hl.
  by rewrite Hm, Hl.
Qed.

Lemma decimal_num_pos m e10 : 0 < m → 0 < decimal_num m e10.
Proof.
  intros Hm. unfold decimal_num. destruct (Z.leb_spec 0 e10); [|done].
  pose proof (Z.pow_pos_nonneg 10 e10). nia.
Qed.

Lemma decimal_den_pos e10 : 0 < decimal_den e10.
Proof.
  unfold decimal_den. destruct (Z.leb_spec 0 e10); [done|].
  apply Z.pow_pos_nonneg; lia.
Qed.

Lemma iter_xO p d : Zpos (Pos.iter xO p d) = 2 ^ Zpos d * Zpos p.
Proof.
  induction d as [|d IH] using Pos.peano_ind.
  - simpl. lia.
  - rewrite Pos.iter_succ, Pos2Z.inj_xO, IH, Pos2Z.inj_succ, Z.pow_succ_r by lia. lia.
Qed.

Lemma fexp_digits_fine q s :
  2 ^ 63 ≤ q → - s ≤ fexp prec emax (Zdigits2 q - s).
Proof.
  intros Hq. unfold fexp.
  assert (64 ≤ Zdigits2 q).
  { rewrite Zdigits2_log2 by lia.
    pose proof (Z.log2_le_mono (2 ^ 63) q Hq) as Hl.
    rewrite Z.log2_pow2 in Hl by lia. lia. }
  unfold prec. lia.
Qed.

Lemma decimal_to_number_round neg m e10 :
  0 < m →
  ∃ s, fine (decimal_num m e10) (decimal_den e10) s ∧
       decimal_to_number neg m e10 =
       SF2Prim (round_at neg (decimal_num m e10) (decimal_den e10) s).
Proof.
  intros Hm. unfold decimal_to_number, decimal_num, decimal_den.
  destruct m as [|m|]; [lia| |lia].
  destruct (Z.leb_spec 0 e10) as [He|He].
  - assert (0 < 10 ^ e10) by (apply Z.pow_pos_nonneg; lia).
    destruct (Zpos m * 10 ^ e10) as [|p|] eqn:Hp; [lia| |lia].
    unfold binary_round, shl_align. rewrite Z.sub_0_r, Z.add_0_r.
    destruct (fexp prec emax (Zpos (digits2_pos p))) as [|f|d] eqn:Hf.
    + exists 0. unfold fine, round_at. rewrite Z.pow_0_r, Z.mul_1_l, Z.div_1_r, Z.mod_1_r.
      simpl Zdigits2. rewrite Z.sub_0_r, Hf. split; [lia|]. done.
    + exists 0. unfold fine, round_at. rewrite Z.pow_0_r, Z.mul_1_l, Z.div_1_r, Z.mod_1_r.
      simpl Zdigits2. rewrite Z.sub_0_r, Hf. split; [lia|]. done.
    + exists (Zpos d). unfold fine, round_at. rewrite Z.div_1_r, Z.mod_1_r.
      rewrite <- iter_xO. simpl Zdigits2. split; [|done].
      split; [lia|]. split; [lia|].
      pose proof (Zdigits2_shift (Zpos p) 1 (Zpos d) ltac:(lia) ltac:(rewrite Z.div_1_r; lia) ltac:(lia)) as Hs.
      rewrite !Z.div_1_r, <- iter_xO in Hs. simpl Zdigits2 in Hs. rewrite Hs.
      replace (Zpos (digits2_pos p) + Zpos d - Zpos d) with (Zpos (digits2_pos p)) by lia.
      rewrite Hf. lia.
  - set (d := 10 ^ (- e10)). set (s := Z.log2 d + 64).
    assert (Hd : 0 < d) by (apply Z.pow_pos_nonneg; lia).
    pose proof (Z.log2_nonneg d) as Hl.
    pose proof (Z.log2_spec d Hd) as [Hl1 Hl2].
    assert (Hs : 0 ≤ s) by (unfold s; lia).
    exists s.
    assert (Hsh : Z.shiftl (Zpos m) s = 2 ^ s * Zpos m) by (rewrite Z.shiftl_mul_pow2 by done; lia).
    rewrite Hsh.
    assert (Hq : 2 ^ 63 ≤ (2 ^ s * Zpos m) / d).
    { apply Z.div_le_lower_bound; [done|].
      unfold s. rewrite Z.pow_add_r by lia.
      replace (2 ^ 64) with (2 * 2 ^ 63) by done.
      rewrite <- Z.add_1_r, Z.pow_add_r in Hl2 by lia.
      assert (0 < 2 ^ Z.log2 d) by (apply Z.pow_pos_nonneg; lia). nia. }
    split.
    + split; [done|]. split; [lia|]. by apply fexp_digits_fine.
    + unfold round_at. f_equal.
      pose proof (Z.mod_pos_bound (2 ^ s * Zpos m) d Hd) as Hr.
      rewrite <- (new_location_loc_of d _ Hr).
      unfold Z.div, Z.modulo. by destruct (Z.div_eucl (2 ^ s * Zpos m) d).
Qed.

(** A decimal is read by its value: the digits and the exponent may be
    traded against each other. *)
Lemma decimal_to_number_value neg m e m' e' :
  0 < m → 0 < m' →
  decimal_num m e * decimal_den e' = decimal_num m' e' * decimal_den e →
  decimal_to_number neg m e = decimal_to_number neg m' e'.
Proof.
  intros Hm Hm' Heq.
  destruct (decimal_to_number_round neg m e Hm) as (s & Hf & ->).
  destruct (decimal_to_number_round neg m' e' Hm') as (s' & Hf' & ->).
  f_equal. apply round_at_cross; auto using decimal_num_pos, decimal_den_pos.
Qed.

Lemma binary_num_pos m e : 0 < binary_num m e.
Proof.
  unfold binary_num. destruct (Z.leb_spec 0 e); [|done].
  pose proof (Z.pow_pos_nonneg 2 e). nia.
Qed.

Lemma binary_den_pos e : 0 < binary_den e.
Proof.
  unfold binary_den. destruct (Z.leb_spec 0 e); [done|].
  apply Z.pow_pos_nonneg; lia.
Qed.

Lemma bounded_inv m e :
  bounded prec emax m e = true →
  fexp prec emax (Zpos (digits2_pos m) + e) = e ∧ e ≤ emax - prec ∧ Zpos m < 2 ^ 53.
Proof.
  unfold bounded, canonical_mantissa. intros [Hc He]%andb_prop.
  apply Z.eqb_eq in Hc. apply Z.leb_le in He. split; [done|]. split; [done|].
  pose proof (Zdigits2_bounds (Zpos m) ltac:(lia)) as [_ Hhi]. simpl in Hhi.
  assert (Zpos (digits2_pos m) ≤ 53) by (unfold fexp, prec in Hc; lia).
  eapply Z.lt_le_trans; [done|]. apply Z.pow_le_mono_r; lia.
Qed.

Lemma finish_canonical sx m e :
  bounded prec emax m e = true → finish sx (Zpos m) e = S754_finite sx m e.
Proof.
  intros (Hc & He & _)%bounded_inv. unfold finish, shr_fexp. simpl Zdigits2.
  rewrite Hc, Z.sub_diag. simpl. apply Z.leb_le in He. by rewrite He.
Qed.

(** A value just above a binary64 value, closer to it than half a unit in
    its last place, rounds to it. *)
Lemma round_at_near a b s m e :
  0 < a → 0 < b → fine a b s → bounded prec emax m e = true →
  binary_num m e * b ≤ a * binary_den e →
  2 ^ 54 * (a * binary_den e - binary_num m e * b) < binary_num m e * b →
  round_at false a b s = S754_finite false m e.
Proof.
  intros Ha Hb Hf Hbd Hle Hnear.
  pose proof Hbd as (Hc & He & Hm)%bounded_inv.
  set (t := Z.max s (- e)).
  rewrite (round_at_scale false a b s t) by (done || lia).
  apply (fine_mono _ _ _ t) in Hf; [|done|done|lia].
  rewrite round_at_value by done. simpl.
  set (A := if 0 <=? e then a else 2 ^ (- e) * a).
  set (B := if 0 <=? e then 2 ^ e * b else b).
  assert (HB : 0 < B).
  { unfold B. destruct (Z.leb_spec 0 e); [|done]. pose proof (Z.pow_pos_nonneg 2 e). nia. }
  assert (HAB : Zpos m * B ≤ A ∧ 2 ^ 54 * (A - Zpos m * B) < Zpos m * B).
  { unfold A, B, binary_num, binary_den in *. destruct (Z.leb_spec 0 e); split; lia. }
  destruct HAB as [HA1 HA2].
  assert (Hr : 0 ≤ A - Zpos m * B ∧ 2 * (A - Zpos m * B) < B).
  { split; [lia|]. replace (2 ^ 54) with (2 * 2 ^ 53) in HA2 by done. nia. }
  assert (Hdiv : A / B = Zpos m).
  { symmetry. apply Z.div_unique with (A - Zpos m * B); lia. }
  assert (Hmod : A mod B = A - Zpos m * B).
  { symmetry. apply Z.mod_unique with (Zpos m); lia. }
  assert (Ht : 0 ≤ t + e) by lia.
  assert (Ht0 : 0 ≤ t) by (destruct Hf; lia).
  assert (H2t : 0 < 2 ^ t) by (apply Z.pow_pos_nonneg; lia).
  assert (H2te : 0 < 2 ^ (t + e)) by (apply Z.pow_pos_nonneg; lia).
  assert (Hq : (2 ^ t * a) / b = (2 ^ (t + e) * A) / B).
  { unfold A, B. destruct (Z.leb_spec 0 e).
    - rewrite (Z.add_comm t e), Z.pow_add_r, <- Z.mul_assoc by lia.
      rewrite Z.div_mul_cancel_l; [done|lia|]. pose proof (Z.pow_pos_nonneg 2 e). lia.
    - rewrite Z.mul_assoc, <- Z.pow_add_r by lia. do 3 f_equal. lia. }
  assert (Hdig : Zdigits2 ((2 ^ t * a) / b) - t = Zpos (digits2_pos m) + e).
  { rewrite Hq, Zdigits2_shift, Hdiv by lia. simpl. lia. }
  rewrite Hdig, Hc.
  pose proof (quotient_record_cross (2 ^ t * a) (2 ^ (e + t) * b) A B) as Hrec.
  assert (H2et : 0 < 2 ^ (e + t)) by (apply Z.pow_pos_nonneg; lia).
  specialize (Hrec ltac:(nia) HB).
  assert (Hcross : 2 ^ t * a * B = A * (2 ^ (e + t) * b)).
  { unfold A, B. destruct (Z.leb_spec 0 e).
    - rewrite Z.pow_add_r by lia. lia.
    - replace (2 ^ t) with (2 ^ (- e) * 2 ^ (e + t)); [lia|].
      rewrite <- Z.pow_add_r by lia. f_equal. lia. }
  specialize (Hrec Hcross). unfold quotient_record in Hrec.
  pose proof (f_equal shr_m Hrec) as Hm'. rewrite !shr_m_of_loc in Hm'.
  pose proof (f_equal loc_of_shr_record Hrec) as Hl'. rewrite !loc_of_record_of_loc in Hl'.
  rewrite Hm', Hl', Hdiv, Hmod.
  assert (Hrne : round_nearest_even (Zpos m) (loc_of (A - Zpos m * B) B) = Zpos m).
  { unfold loc_of. destruct (_ =? 0); [done|].
    destruct (Z.compare_spec (2 * (A - Zpos m * B)) B); [lia|done|lia]. }
  rewrite Hrne. by apply finish_canonical.
Qed.

(** The sign only marks the result. *)
Lemma binary_round_aux_sign sx m e l :
  binary_round_aux prec emax sx m e l =
  match binary_round_aux prec emax false m e l with
  | S754_zero _ => S754_zero sx
  | S754_infinity _ => S754_infinity sx
  | S754_nan => S754_nan
  | S754_finite _ m' e' => S754_finite sx m' e'
  end.
Proof.
  unfold binary_round_aux.
  destruct (shr_fexp prec emax m e l) as [mrs e'].
  destruct (shr_fexp prec emax _ e' loc_Exact) as [mrs' e''].
  destruct (shr_m mrs'); [done| |done]. by destruct (e'' <=? emax - prec).
Qed.

(** ** Decimal digits *)

Lemma of_uint_acc_value d acc : Zpos (Pos.of_uint_acc d acc) = uint_value (Zpos acc) d.
Proof. revert acc. induction d; intros acc; simpl; rewrite ?IHd; f_equal; lia. Qed.

Lemma of_uint_value d : Z.of_N (Pos.of_uint d) = uint_value 0 d.
Proof. induction d; simpl; rewrite ?of_uint_acc_value; try done. Qed.

Lemma uint_value_acc acc d :
  uint_value acc d = acc * 10 ^ Z.of_nat (Decimal.nb_digits d) + uint_value 0 d.
Proof.
  revert acc. induction d; intros acc; simpl Decimal.nb_digits; simpl uint_value;
    [lia|..]; rewrite IHd, (IHd (0 * 10 + _)), Nat2Z.inj_succ, Z.pow_succ_r by lia; lia.
Qed.

Lemma uint_value_bounds d : 0 ≤ uint_value 0 d < 10 ^ Z.of_nat (Decimal.nb_digits d).
Proof.
  induction d; simpl Decimal.nb_digits; simpl uint_value; [simpl; lia|..];
    rewrite uint_value_acc, Nat2Z.inj_succ, Z.pow_succ_r by lia; lia.
Qed.

(** ** Finite binary64 values *)

Lemma finite_number x :
  is_nan x = false → is_zero x = false → is_infinity x = false →
  ∃ s m e, Prim2SF x = S754_finite s m e ∧ bounded prec emax m e = true ∧
           Prim2SF (abs x) = S754_finite false m e ∧ get_sign x = s ∧
           x = (if s then - abs x else abs x)%float.
Proof.
  intros Hn Hz Hi. pose proof (Prim2SF_valid x) as Hv.
  unfold get_sign. rewrite Hz.
  rewrite is_nan_SF in Hn. rewrite is_zero_SF in Hz. rewrite is_infinity_SF in Hi.
  rewrite ltb_spec, abs_spec.
  destruct (Prim2SF x) as [?|?| |s m e] eqn:Hx; try done.
  exists s, m, e. simpl in Hv. repeat split; try done.
  - by destruct s.
  - apply Prim2SF_inj. destruct s; [|by rewrite abs_spec, Hx].
    by rewrite opp_spec, abs_spec, Hx.
Qed.

Lemma eqb_finite y x m e :
  Prim2SF x = S754_finite false m e → PrimFloat.eqb y x = true → y = x.
Proof.
  intros Hx. rewrite FloatAxioms.eqb_spec, Hx. intros Heq.
  apply Prim2SF_inj. rewrite Hx.
  unfold SFeqb, SFcompare in Heq.
  destruct (Prim2SF y) as [sy|sy| |sy m' e']; try done; destruct sy; try done.
  destruct (Z.compare_spec e' e) as [He| |]; try done.
  destruct (Pos.compare_cont Eq m' m) eqn:Hm; try done.
  apply Pos.compare_eq in Hm. by subst.
Qed.

(** ** The neighbours of a value on the decimal grid *)

Lemma grid_den_pos den p : 0 < den → 0 < grid_den den p.
Proof.
  intros Hd. unfold grid_den. destruct (Z.leb_spec 0 p); [|done].
  pose proof (Z.pow_pos_nonneg 10 p). nia.
Qed.

Lemma grid_num_pos num p : 0 < num → 0 < grid_num num p.
Proof.
  intros Hd. unfold grid_num. destruct (Z.leb_spec 0 p); [done|].
  pose proof (Z.pow_pos_nonneg 10 (- p)). nia.
Qed.

(** With seventeen digits before the position [p], the upper neighbour on
    the grid reads back as the value itself. *)
Lemma upper_neighbour_reads_back x m e p :
  Prim2SF x = S754_finite false m e → bounded prec emax m e = true →
  let a := grid_num (binary_num m e) p in
  let b := grid_den (binary_den e) p in
  10 ^ 17 * b ≤ a →
  decimal_to_number false (a / b + 1) p = x.
Proof.
  intros Hx Hbd a b Hab.
  assert (Hb : 0 < b) by apply grid_den_pos, binary_den_pos.
  assert (Ha : 0 < a) by apply grid_num_pos, binary_num_pos.
  pose proof (Z.div_pos a b ltac:(lia) Hb) as Hlo.
  pose proof (Z.mul_div_le a b Hb) as H1.
  pose proof (Z.mul_succ_div_gt a b Hb) as H2.
  destruct (decimal_to_number_round false (a / b + 1) p ltac:(lia)) as (s & Hf & ->).
  rewrite <- (SF2Prim_Prim2SF x), Hx. f_equal.
  apply round_at_near; auto using decimal_num_pos, decimal_den_pos with lia.
  - unfold decimal_num, decimal_den. unfold a, b, grid_num, grid_den in *.
    destruct (Z.leb_spec 0 p); nia.
  - unfold decimal_num, decimal_den. unfold a, b, grid_num, grid_den in *.
    assert (2 ^ 54 < 10 ^ 17) by done.
    destruct (Z.leb_spec 0 p); nia.
Qed.

(** ** The digits of an integer, and the shortest decimal *)

Lemma length_string_of_uint d :
  String.length (NilEmpty.string_of_uint d) = Decimal.nb_digits d.
Proof. induction d; simpl; congruence. Qed.

Lemma to_uint_value n : uint_value 0 (N.to_uint n) = Z.of_N n.
Proof. by rewrite <- of_uint_value, DecimalN.Unsigned.of_to. Qed.

Lemma to_uint_leading p : leading (Pos.to_uint p).
Proof.
  pose proof (DecimalPos.Unsigned.to_of (Pos.to_uint p)) as H.
  rewrite DecimalPos.Unsigned.of_to in H. simpl in H.
  pose proof (DecimalPos.Unsigned.to_uint_nonzero p) as Hz.
  pose proof (DecimalPos.Unsigned.to_uint_nonnil p) as Hn.
  unfold Decimal.unorm in H.
  pose proof (DecimalFacts.nzhead_nonzero (Pos.to_uint p)) as Hh.
  destruct (Decimal.nzhead (Pos.to_uint p)) as [|u|u|u|u|u|u|u|u|u|u];
    try (by rewrite H); by destruct (Hh u).
Qed.

Lemma leading_value d : leading d → 10 ^ (Z.of_nat (Decimal.nb_digits d) - 1) ≤ uint_value 0 d.
Proof.
  destruct d; try done; intros _; simpl Decimal.nb_digits; simpl uint_value;
    rewrite uint_value_acc, Nat2Z.inj_succ;
    replace (Z.succ (Z.of_nat (Decimal.nb_digits d)) - 1) with (Z.of_nat (Decimal.nb_digits d)) by lia;
    pose proof (uint_value_bounds d); lia.
Qed.

(** A positive integer prints as its digits, the first of which is not a
    zero. *)
Lemma digits_of_Z_pos z :
  0 < z →
  ∃ d, digits_of_Z z = NilEmpty.string_of_uint d ∧ leading d ∧ uint_value 0 d = z.
Proof.
  intros Hz. unfold digits_of_Z. destruct z as [|p|]; [lia| |lia]. simpl.
  exists (Pos.to_uint p). pose proof (to_uint_leading p) as Hl.
  split; [by destruct (Pos.to_uint p)|]. split; [done|].
  apply (to_uint_value (Npos p)).
Qed.

Lemma digits_of_Z_length z :
  0 < z →
  let L := Z.of_nat (String.length (digits_of_Z z)) in
  10 ^ (L - 1) ≤ z < 10 ^ L ∧ 0 < L.
Proof.
  intros Hz. destruct (digits_of_Z_pos z Hz) as (d & -> & Hl & Hv).
  rewrite length_string_of_uint. simpl.
  pose proof (leading_value d Hl). pose proof (uint_value_bounds d).
  split; [lia|]. destruct d; try done; simpl; lia.
Qed.

(** The decade leaves seventeen digits before the position eighteen
    places down. *)
Lemma decade_grid num den :
  0 < num → 0 < den →
  let p := decade num den - 18 in
  10 ^ 17 * grid_den den p ≤ grid_num num p.
Proof.
  intros Hn Hd. unfold decade, grid_den, grid_num.
  destruct (Z.ltb_spec num den) as [Hlt|Hge].
  - assert (Hq : 0 < den / num) by (apply Z.div_str_pos; lia).
    destruct (digits_of_Z_length _ Hq) as [[_ Hhi] HL].
    set (L := Z.of_nat (String.length (digits_of_Z (den / num)))) in *. simpl.
    destruct (Z.leb_spec 0 (1 - L - 18)); [lia|].
    replace (- (1 - L - 18)) with (17 + L) by lia. rewrite Z.pow_add_r by lia.
    pose proof (Z.mul_succ_div_gt den num Hn).
    assert (0 < 10 ^ 17) by done. nia.
  - assert (Hq : 0 < num / den) by (apply Z.div_str_pos; lia).
    destruct (digits_of_Z_length _ Hq) as [[Hlo _] HL].
    set (L := Z.of_nat (String.length (digits_of_Z (num / den)))) in *. simpl.
    pose proof (Z.mul_div_le num den Hd).
    assert (0 < 10 ^ (L - 1)) by (apply Z.pow_pos_nonneg; lia).
    assert (Hden : den * 10 ^ (L - 1) ≤ num) by nia.
    destruct (Z.leb_spec 0 (L - 18)).
    + replace (L - 1) with (17 + (L - 18)) in Hden by lia.
      rewrite Z.pow_add_r in Hden by lia. lia.
    + replace (- (L - 18)) with (18 - L) by lia.
      assert (H17 : 10 ^ 17 = 10 ^ (L - 1) * 10 ^ (18 - L)).
      { rewrite <- Z.pow_add_r by lia. f_equal. lia. }
      rewrite H17. assert (0 < 10 ^ (18 - L)) by (apply Z.pow_pos_nonneg; lia). nia.
Qed.

Lemma shortest_decimal_step fuel x num den p :
  shortest_decimal (S fuel) x num den p =
  let lo := grid_num num p / grid_den den p in
  let hi := lo + 1 in
  let lo_ok := PrimFloat.eqb (decimal_to_number false lo p) x in
  let hi_ok := PrimFloat.eqb (decimal_to_number false hi p) x in
  if lo_ok && hi_ok then
    (if match 2 * grid_num num p ?= (2 * lo + 1) * grid_den den p with
        | Lt => true | Eq => Z.even lo | Gt => false end
     then (lo, p) else (hi, p))
  else if lo_ok then (lo, p)
  else if hi_ok then (hi, p)
  else shortest_decimal fuel x num den (p - 1).
Proof. done. Qed.

(** The search ends on digits that read back as the value, if a position
    within its reach has a neighbour that does. *)
Lemma shortest_decimal_reads_back fuel x num den p j :
  0 < num → 0 < den → (j < fuel)%nat →
  PrimFloat.eqb
    (decimal_to_number false
       (grid_num num (p - Z.of_nat j) / grid_den den (p - Z.of_nat j) + 1) (p - Z.of_nat j)) x
    = true →
  ∃ c q, shortest_decimal fuel x num den p = (c, q) ∧ 0 ≤ c ∧
         PrimFloat.eqb (decimal_to_number false c q) x = true.
Proof.
  intros Hn Hd. revert p j. induction fuel as [|fuel IH]; intros p j Hj Hok; [lia|].
  rewrite shortest_decimal_step. simpl.
  pose proof (Z.div_pos (grid_num num p) (grid_den den p)
                ltac:(pose proof (grid_num_pos num p Hn); lia) (grid_den_pos den p Hd)) as Hlo.
  set (lo := grid_num num p / grid_den den p) in *.
  destruct (PrimFloat.eqb (decimal_to_number false lo p) x) eqn:Hlo_ok;
    destruct (PrimFloat.eqb (decimal_to_number false (lo + 1) p) x) eqn:Hhi_ok; simpl.
  - destruct (match _ ?= _ with Lt => true | Eq => Z.even lo | Gt => false end);
      eexists _, _; (split; [done|]); split; (lia || done).
  - eexists _, _; (split; [done|]); split; (lia || done).
  - eexists _, _; (split; [done|]); split; (lia || done).
  - destruct j as [|j].
    + simpl in Hok. rewrite Z.sub_0_r in Hok. fold lo in Hok. congruence.
    + apply (IH (p - 1) j); [lia|].
      replace (p - 1 - Z.of_nat j) with (p - Z.of_nat (S j)) by lia. done.
Qed.

Lemma strip_zeros_value fuel s p :
  0 < s →
  ∃ s' j, strip_zeros fuel s p = (s', p + j) ∧ 0 < s' ∧ 0 ≤ j ∧ s = s' * 10 ^ j.
Proof.
  revert s p. induction fuel as [|fuel IH]; intros s p Hs; simpl.
  - exists s, 0. rewrite Z.add_0_r. simpl. split; [done|]. lia.
  - destruct (Z.ltb_spec 0 s); [|lia]. simpl.
    destruct (Z.eqb_spec (s mod 10) 0) as [Hm|Hm].
    + pose proof (Z.div_mod s 10 ltac:(lia)) as Hdm.
      destruct (IH (s / 10) (p + 1) ltac:(lia)) as (s' & j & -> & Hs' & Hj & Heq).
      exists s', (1 + j). split; [f_equal; lia|]. split; [done|]. split; [lia|].
      rewrite Z.pow_add_r by lia. lia.
    + exists s, 0. rewrite Z.add_0_r. simpl. split; [done|]. lia.
Qed.

Lemma decimal_to_number_shift neg m e j :
  0 < m → 0 ≤ j → decimal_to_number neg (m * 10 ^ j) e = decimal_to_number neg m (e + j).
Proof.
  intros Hm Hj. assert (0 < 10 ^ j) by (apply Z.pow_pos_nonneg; lia).
  apply decimal_to_number_value; [nia|done|].
  unfold decimal_num, decimal_den.
  destruct (Z.leb_spec 0 e), (Z.leb_spec 0 (e + j)); try lia.
  - rewrite Z.pow_add_r by lia. lia.
  - replace (10 ^ j) with (10 ^ (e + j) * 10 ^ (- e)); [lia|].
    rewrite <- Z.pow_add_r by lia. f_equal. lia.
  - replace (10 ^ (- e)) with (10 ^ j * 10 ^ (- (e + j))); [lia|].
    rewrite <- Z.pow_add_r by lia. f_equal. lia.
Qed.

(** The digits that [Number::toString] prints for a finite value other than
    zero: they read back as its magnitude. *)
Lemma number_to_string_digits x :
  is_nan x = false → is_zero x = false → is_infinity x = false →
  ∃ s p,
    0 < s ∧ decimal_to_number false s p = abs x ∧
    number_to_string x =
    (if get_sign x then "-" else "") +:+
    format_decimal (digits_of_Z s) (p + Z.of_nat (String.length (digits_of_Z s))).
Proof.
  intros Hn Hz Hi.
  destruct (finite_number x Hn Hz Hi) as (sx & m & e & Hx & Hbd & Hax & Hsign & Hxeq).
  unfold number_to_string. rewrite Hn, Hz, Hi, Hax.
  fold (binary_num m e). fold (binary_den e).
  pose proof (binary_num_pos m e) as Hnum. pose proof (binary_den_pos e) as Hden.
  set (num := binary_num m e) in *. set (den := binary_den e) in *.
  destruct (shortest_decimal_reads_back 400 (abs x) num den (decade num den) 18 Hnum Hden
              ltac:(lia)) as (c & q & -> & Hc & Hok).
  { pose proof (upper_neighbour_reads_back (abs x) m e (decade num den - 18) Hax Hbd) as Hup.
    simpl in Hup. fold num den in Hup. change (Z.of_nat 18) with 18.
    rewrite Hup by (by apply decade_grid).
    rewrite FloatAxioms.eqb_spec, Hax. by apply SFeqb_refl. }
  apply (eqb_finite _ _ m e Hax) in Hok.
  assert (Hc0 : 0 < c).
  { destruct (Z.eq_dec c 0) as [->|]; [|lia].
    assert (Hzero : Prim2SF (abs x) = S754_zero false) by (rewrite <- Hok; done).
    congruence. }
  destruct (strip_zeros_value 400 c q Hc0) as (s' & j & -> & Hs' & Hj & Heq).
  exists s', (q + j). split; [done|]. split; [|done].
  rewrite <- Hok, Heq. symmetry. by apply decimal_to_number_shift.
Qed.

(** ** Reading the digits back *)

Lemma append_cons c s t : String c s +:+ t = String c (s +:+ t).
Proof. done. Qed.

Lemma append_nil_l t : "" +:+ t = t.
Proof. done. Qed.

Lemma append_assoc s t u : (s +:+ t) +:+ u = s +:+ (t +:+ u).
Proof. induction s as [|c s IH]; [done|]. by rewrite !append_cons, IH. Qed.

Lemma length_append s t : String.length (s +:+ t) = (String.length s + String.length t)%nat.
Proof. induction s as [|c s IH]; [done|]. rewrite append_cons. simpl. by rewrite IH. Qed.

Lemma take_digits_app acc len s rest :
  all_digits s = true → stops rest →
  JSON.take_digits acc len (s +:+ rest) =
  (digits_value acc s, len + Z.of_nat (String.length s), rest).
Proof.
  intros Hs Hrest. revert acc len. induction s as [|c s IH]; intros acc len.
  - rewrite append_nil_l. simpl. rewrite Z.add_0_r.
    destruct rest as [|c r]; [done|]. simpl in *. by rewrite Hrest.
  - simpl in Hs. apply andb_prop in Hs as [Hc Hs].
    rewrite append_cons. simpl JSON.take_digits. rewrite Hc, IH by done.
    simpl String.length. simpl digits_value. rewrite Nat2Z.inj_succ.
    f_equal. f_equal. lia.
Qed.

Lemma digits_value_app acc s t :
  digits_value acc (s +:+ t) = digits_value (digits_value acc s) t.
Proof.
  revert acc. induction s as [|c s IH]; intros acc; [done|].
  rewrite append_cons. simpl. by rewrite IH.
Qed.

Lemma all_digits_app s t : all_digits (s +:+ t) = all_digits s && all_digits t.
Proof.
  induction s as [|c s IH]; [done|]. rewrite append_cons. simpl.
  by rewrite IH, andb_assoc.
Qed.

Lemma all_digits_zeros n : all_digits (zeros n) = true.
Proof. induction n; [done|]. simpl. done. Qed.

Lemma digits_value_zeros acc n : digits_value acc (zeros n) = acc * 10 ^ Z.of_nat n.
Proof.
  revert acc. induction n as [|n IH]; intros acc.
  - simpl. lia.
  - simpl zeros. simpl digits_value. rewrite IH, Nat2Z.inj_succ, Z.pow_succ_r by lia.
    change (JSON.digit_value "0") with 0. lia.
Qed.

Lemma length_zeros n : String.length (zeros n) = n.
Proof. induction n; simpl; congruence. Qed.

Lemma all_digits_uint d : all_digits (NilEmpty.string_of_uint d) = true.
Proof. induction d; simpl; done. Qed.

Lemma digits_value_uint acc d :
  digits_value acc (NilEmpty.string_of_uint d) = uint_value acc d.
Proof. revert acc. induction d; intros acc; simpl; try done; by rewrite IHd. Qed.

(** A string is its first [n] characters followed by the others. *)
Lemma string_take_drop n s :
  (n ≤ String.length s)%nat → string_take n s +:+ string_drop n s = s.
Proof.
  unfold string_take, string_drop. revert n.
  induction s as [|c s IH]; intros n Hn; simpl in Hn.
  - by replace n with O by lia.
  - destruct n as [|n]; simpl.
    + rewrite append_nil_l. f_equal.
      clear. induction s as [|c s IH]; [done|]. simpl. by rewrite IH.
    + rewrite append_cons. f_equal. apply IH. lia.
Qed.

Lemma string_length_take n s :
  (n ≤ String.length s)%nat → String.length (string_take n s) = n.
Proof.
  unfold string_take. revert n. induction s as [|c s IH]; intros n Hn; simpl in Hn.
  - by replace n with O by lia.
  - destruct n as [|n]; simpl; [done|]. rewrite IH; [done|lia].
Qed.

Lemma string_take_drop_digits n s :
  (n ≤ String.length s)%nat → all_digits s = true →
  all_digits (string_take n s) = true ∧ all_digits (string_drop n s) = true ∧
  String.length (string_drop n s) = (String.length s - n)%nat.
Proof.
  intros Hn Hs. pose proof (string_take_drop n s Hn) as Htd.
  pose proof (f_equal all_digits Htd) as Ha. rewrite all_digits_app, Hs in Ha.
  apply andb_prop in Ha as [? ?].
  pose proof (f_equal String.length Htd) as Hl.
  rewrite length_append, string_length_take in Hl by done. repeat split; try done. lia.
Qed.

Lemma parse_number_minus s : JSON.parse_number (String "-" s) = parse_unsigned true s.
Proof. done. Qed.

Lemma parse_number_digit c s :
  JSON.is_digit c = true → JSON.parse_number (String c s) = parse_unsigned false (String c s).
Proof.
  intros Hc. destruct c as [[] [] [] [] [] [] [] []]; try done.
Qed.

Lemma parse_int_digits c s :
  JSON.is_digit c = true → nat_of_ascii c ≠ 48%nat →
  JSON.parse_int (String c s) =
  let '(m, _, rest) := JSON.take_digits 0 0 (String c s) in Some (m, rest).
Proof.
  intros Hc Hz. unfold JSON.parse_int. rewrite Hc. simpl negb. cbv iota.
  apply Nat.eqb_neq in Hz. by rewrite Hz.
Qed.

Lemma leading_string d :
  leading d →
  ∃ c s, NilEmpty.string_of_uint d = String c s ∧ JSON.is_digit c = true ∧
         nat_of_ascii c ≠ 48%nat.
Proof. destruct d; try done; intros _; simpl; eexists _, _; (split; [done|]); by split. Qed.

Lemma parse_int_row c s rest :
  JSON.is_digit c = true → nat_of_ascii c ≠ 48%nat → all_digits (String c s) = true →
  stops rest →
  JSON.parse_int (String c s +:+ rest) = Some (digits_value 0 (String c s), rest).
Proof.
  intros Hc Hz Hs Hrest. rewrite append_cons, parse_int_digits by done.
  rewrite <- append_cons, take_digits_app by done. done.
Qed.

Lemma take_head n c s :
  (0 < n)%nat → string_take n (String c s) = String c (string_take (n - 1) s).
Proof. intros Hn. destruct n; [lia|]. unfold string_take. simpl. by rewrite Nat.sub_0_r. Qed.

Lemma parse_frac_none m c r :
  (c = "," ∨ c = "}")%char → JSON.parse_frac m (String c r) = Some (m, 0, String c r).
Proof. by intros [->| ->]. Qed.

Lemma parse_exp_none c r :
  (c = "," ∨ c = "}")%char → JSON.parse_exp (String c r) = Some (0, String c r).
Proof. by intros [->| ->]. Qed.

Lemma parse_frac_digits m s rest :
  all_digits s = true → s ≠ "" → stops rest →
  JSON.parse_frac m (String "." (s +:+ rest)) =
  Some (digits_value m s, Z.of_nat (String.length s), rest).
Proof.
  intros Hs Hne Hrest. unfold JSON.parse_frac. rewrite take_digits_app by done.
  rewrite Z.add_0_l. destruct s; [done|]. simpl String.length.
  destruct (Z.eqb_spec (Z.of_nat (S (String.length s))) 0); [lia|done].
Qed.

(** The exponent part that [Number::toString] prints. *)
Lemma parse_exp_digits e c r :
  e ≠ 0 → (c = "," ∨ c = "}")%char →
  JSON.parse_exp
    (String "e" (((if 0 <=? e then "+" else "-") +:+ digits_of_Z (Z.abs e)) +:+ String c r)) =
  Some (e, String c r).
Proof.
  intros He Hc.
  destruct (digits_of_Z_pos (Z.abs e) ltac:(lia)) as (d & -> & Hl & Hv).
  assert (Hstop : stops (String c r)) by (by destruct Hc as [->| ->]).
  assert (Hlen : 0 < Z.of_nat (String.length (NilEmpty.string_of_uint d))).
  { rewrite length_string_of_uint. destruct d; try done; simpl; lia. }
  rewrite append_assoc. unfold JSON.parse_exp.
  destruct (Z.leb_spec 0 e).
  - change ("+" +:+ ?s) with (String "+" s). cbv beta iota.
    rewrite take_digits_app by (done || apply all_digits_uint).
    rewrite digits_value_uint, Hv, Z.add_0_l.
    destruct (Z.eqb_spec (Z.of_nat (String.length (NilEmpty.string_of_uint d))) 0); [lia|].
    do 2 f_equal. lia.
  - change ("-" +:+ ?s) with (String "-" s). cbv beta iota.
    rewrite take_digits_app by (done || apply all_digits_uint).
    rewrite digits_value_uint, Hv, Z.add_0_l.
    destruct (Z.eqb_spec (Z.of_nat (String.length (NilEmpty.string_of_uint d))) 0); [lia|].
    do 2 f_equal. lia.
Qed.

Lemma parse_frac_e m s : JSON.parse_frac m (String "e" s) = Some (m, 0, String "e" s).
Proof. done. Qed.

(** The exponent form. *)
Lemma parse_unsigned_exponent neg d n c r :
  leading d → (c = "," ∨ c = "}")%char → n - 1 ≠ 0 →
  let ds := NilEmpty.string_of_uint d in
  let k := Z.of_nat (Decimal.nb_digits d) in
  let exponent := (if 0 <=? n - 1 then "+" else "-") +:+ digits_of_Z (Z.abs (n - 1)) in
  parse_unsigned neg
    ((if k =? 1 then ds +:+ "e" +:+ exponent
      else string_take 1 ds +:+ "." +:+ string_drop 1 ds +:+ "e" +:+ exponent) +:+ String c r) =
  Some (decimal_to_number neg (uint_value 0 d) (n - Z.of_nat (Decimal.nb_digits d)),
        String c r).
Proof.
  intros Hl Hc He. cbv zeta.
  destruct (leading_string d Hl) as (c0 & ds' & Hds & Hc0 & Hc048).
  pose proof (all_digits_uint d) as Hall.
  pose proof (digits_value_uint 0 d) as Hval.
  pose proof (length_string_of_uint d) as Hlen.
  assert (Hstop : stops (String c r)) by (by destruct Hc as [->| ->]).
  assert (Hv : 0 < uint_value 0 d).
  { pose proof (leading_value d Hl).
    pose proof (Z.pow_pos_nonneg 10 (Z.of_nat (Decimal.nb_digits d) - 1)).
    destruct d; try done; simpl Decimal.nb_digits in *; lia. }
  set (k := Decimal.nb_digits d) in *.
  assert (Hk : (0 < k)%nat).
  { rewrite <- Hlen, Hds. simpl. lia. }
  set (ds := NilEmpty.string_of_uint d) in *.
    unfold parse_unsigned. cbv zeta.
    destruct (Z.eqb_spec (Z.of_nat k) 1) as [Hk1|Hk1].
    + assert (Hds1 : ds = String c0 "").
      { rewrite Hds in *. destruct ds'; [done|]. simpl in Hlen. lia. }
      rewrite append_assoc, Hds1, parse_int_row; [|done|done|by rewrite <- Hds1|done].
      bind_step. change ("e" +:+ ?s) with (String "e" s).
      rewrite ?append_cons, ?append_nil_l. rewrite parse_frac_e. bind_step.
      rewrite parse_exp_digits by done. bind_step.
      rewrite <- Hds1, Hval. same_exponent.
    + assert (Hnk : (1 ≤ String.length ds)%nat) by lia.
      destruct (string_take_drop_digits _ _ Hnk Hall) as (Ht & Hd & Hld).
      pose proof (string_take_drop _ _ Hnk) as Htd.
      rewrite append_assoc.
      assert (Hhead : string_take 1 ds = String c0 "").
      { rewrite Hds. by destruct ds'. }
      rewrite Hhead in *. rewrite parse_int_row; [|done|done|done|done].
      bind_step. change ("." +:+ ?s) with (String "." s).
      rewrite ?append_cons, ?append_nil_l, ?append_assoc.
      change ("e" +:+ ?s) with (String "e" s).
      rewrite parse_frac_digits; [|done| |done].
      2:{ intros Hempty. rewrite Hempty in Hld. simpl in Hld. lia. }
      bind_step. rewrite ?append_cons, ?append_nil_l. rewrite parse_exp_digits by done. bind_step.
      rewrite <- digits_value_app, Htd, Hval, Hld. same_exponent.
Qed.

(** What [Number::toString] prints for the digits [d] and the position [n]
    of the decimal point reads back as the decimal [0.d * 10^n]. *)
Lemma parse_unsigned_format neg d n c r :
  leading d → (c = "," ∨ c = "}")%char →
  parse_unsigned neg (format_decimal (NilEmpty.string_of_uint d) n +:+ String c r) =
  Some (decimal_to_number neg (uint_value 0 d) (n - Z.of_nat (Decimal.nb_digits d)),
        String c r).
Proof.
  intros Hl Hc.
  destruct (leading_string d Hl) as (c0 & ds' & Hds & Hc0 & Hc048).
  pose proof (all_digits_uint d) as Hall.
  pose proof (digits_value_uint 0 d) as Hval.
  pose proof (length_string_of_uint d) as Hlen.
  assert (Hstop : stops (String c r)) by (by destruct Hc as [->| ->]).
  assert (Hv : 0 < uint_value 0 d).
  { pose proof (leading_value d Hl).
    pose proof (Z.pow_pos_nonneg 10 (Z.of_nat (Decimal.nb_digits d) - 1)).
    destruct d; try done; simpl Decimal.nb_digits in *; lia. }
  unfold format_decimal. rewrite Hlen.
  set (k := Decimal.nb_digits d) in *.
  assert (Hk : (0 < k)%nat).
  { rewrite <- Hlen, Hds. simpl. lia. }
  set (ds := NilEmpty.string_of_uint d) in *.
  destruct (Z.leb_spec (Z.of_nat k) n) as [Hkn|Hkn];
    destruct (Z.leb_spec n 21) as [Hn21|Hn21]; simpl andb.
  - (* the digits, then zeros *)
    unfold parse_unsigned.
    assert (Hrow : ds +:+ zeros (Z.to_nat (n - Z.of_nat k)) =
                   String c0 (ds' +:+ zeros (Z.to_nat (n - Z.of_nat k)))) by by rewrite Hds.
    rewrite Hrow, parse_int_row; [|done|done| |done].
    2:{ rewrite <- Hrow, all_digits_app, Hall, all_digits_zeros. done. }
    bind_step. rewrite parse_frac_none by done. bind_step.
    rewrite parse_exp_none by done. bind_step.
    rewrite <- Hrow, digits_value_app, digits_value_zeros, Hval, Z2Nat.id by lia.
    rewrite decimal_to_number_shift by lia. same_exponent.
  - destruct (Z.ltb_spec 0 n), (Z.ltb_spec (-6) n), (Z.leb_spec n 0); simpl andb; try lia;
      cbv iota; apply (parse_unsigned_exponent neg d n c r Hl Hc); lia.
  - (* the decimal point among the digits, or zeros before them *)
    destruct (Z.ltb_spec 0 n) as [H0n|H0n]; simpl andb.
    + unfold parse_unsigned.
      assert (Hnk : (Z.to_nat n ≤ String.length ds)%nat) by lia.
      destruct (string_take_drop_digits _ _ Hnk Hall) as (Ht & Hd & Hld).
      pose proof (string_take_drop _ _ Hnk) as Htd.
      rewrite append_assoc.
      assert (Hhead : string_take (Z.to_nat n) ds =
                      String c0 (string_take (Z.to_nat n - 1) ds')).
      { rewrite Hds. apply take_head. lia. }
      rewrite Hhead in *. rewrite parse_int_row; [|done|done|done|done].
      bind_step. change ("." +:+ ?s) with (String "." s).
      rewrite ?append_cons, ?append_nil_l.
      rewrite parse_frac_digits; [|done| |done].
      2:{ intros Hempty. rewrite Hempty in Hld. simpl in Hld. lia. }
      bind_step. rewrite parse_exp_none by done. bind_step.
      rewrite <- digits_value_app, Htd, Hval, Hld. same_exponent.
    + destruct (Z.ltb_spec (-6) n) as [H6|H6]; simpl andb.
      * destruct (Z.leb_spec n 0); [|lia].
        unfold parse_unsigned.
        change ("0." +:+ ?s) with (String "0" (String "." s)).
        rewrite !append_cons. simpl JSON.parse_int. bind_step.
        rewrite parse_frac_digits; [| |by rewrite Hds; destruct (zeros _)|done].
        2:{ by rewrite all_digits_app, all_digits_zeros. }
        bind_step. rewrite parse_exp_none by done. bind_step.
        rewrite digits_value_app, digits_value_zeros, Z.mul_0_l, Hval.
        rewrite length_append, length_zeros, Hlen. same_exponent.
      * destruct (Z.leb_spec n 0); simpl andb; cbv iota; apply (parse_unsigned_exponent neg d n c r Hl Hc); lia.
  - destruct (Z.ltb_spec 0 n), (Z.ltb_spec (-6) n), (Z.leb_spec n 0); simpl andb; try lia;
      cbv iota; apply (parse_unsigned_exponent neg d n c r Hl Hc); lia.
Qed.

Lemma format_decimal_head d n :
  leading d →
  ∃ c s, format_decimal (NilEmpty.string_of_uint d) n = String c s ∧ JSON.is_digit c = true.
Proof.
  intros Hl. destruct (leading_string d Hl) as (c0 & ds' & Hds & Hc0 & _).
  unfold format_decimal. rewrite Hds.
  set (k := Z.of_nat (String.length (String c0 ds'))).
  destruct (_ && _); [by eexists _, _|].
  destruct (Z.ltb_spec 0 n); simpl andb.
  - destruct (n <=? 21).
    + rewrite take_head by lia. by eexists _, _.
    + destruct (_ && _); [by eexists _, _|]. cbv zeta.
      destruct (k =? 1); [by eexists _, _|]. rewrite take_head by lia. by eexists _, _.
  - destruct (_ && _); [by eexists _, _|]. cbv zeta.
    destruct (k =? 1); [by eexists _, _|]. rewrite take_head by lia. by eexists _, _.
Qed.

Lemma decimal_to_number_neg m e :
  0 < m → decimal_to_number true m e = (- decimal_to_number false m e)%float.
Proof.
  intros Hm.
  destruct (decimal_to_number_round true m e Hm) as (s & Hf & ->).
  destruct (decimal_to_number_round false m e Hm) as (s' & Hf' & ->).
  rewrite (round_at_cross true _ _ s (decimal_num m e) (decimal_den e) s')
    by auto using decimal_num_pos, decimal_den_pos.
  unfold round_at. rewrite (binary_round_aux_sign true), (binary_round_aux_sign false).
  by destruct (binary_round_aux prec emax false _ _ _).
Qed.

Theorem parse_number_to_string x c r :
  is_finite x = true → (c = "," ∨ c = "}")%char →
  JSON.parse_number (number_to_string x +:+ String c r) = Some (read_back x, String c r).
Proof.
  intros Hfin Hc. unfold is_finite in Hfin.
  apply negb_true_iff, orb_false_elim in Hfin as [Hn Hi].
  unfold read_back. destruct (is_zero x) eqn:Hz.
  - unfold number_to_string. rewrite Hn, Hz. by destruct Hc as [->| ->].
  - destruct (number_to_string_digits x Hn Hz Hi) as (s & p & Hs & Hread & ->).
    destruct (finite_number x Hn Hz Hi) as (sx & m & e & _ & _ & _ & -> & Hx).
    destruct (digits_of_Z_pos s Hs) as (d & -> & Hl & Hv).
    rewrite length_string_of_uint, append_assoc.
    set (n := p + Z.of_nat (Decimal.nb_digits d)).
    pose proof (parse_unsigned_format sx d n c r Hl Hc) as Hparse.
    replace (n - Z.of_nat (Decimal.nb_digits d)) with p in Hparse by lia.
    rewrite Hv in Hparse.
    destruct sx.
    + change ("-" +:+ ?t) with (String "-" t). rewrite parse_number_minus, Hparse.
      by rewrite decimal_to_number_neg, Hread, <- Hx.
    + rewrite append_nil_l.
      destruct (format_decimal_head d n Hl) as (c0 & t & Ht & Hc0).
      rewrite Ht, append_cons, parse_number_digit, <- append_cons, <- Ht, Hparse by done.
      by rewrite Hread, <- Hx.
Qed.

(** ** Reading a snapshot back *)

Lemma number_to_string_head x :
  is_finite x = true →
  ∃ c s, number_to_string x = String c s ∧ (JSON.is_digit c = true ∨ c = "-"%char).
Proof.
  intros Hfin. unfold is_finite in Hfin.
  apply negb_true_iff, orb_false_elim in Hfin as [Hn Hi].
  destruct (is_zero x) eqn:Hz.
  - unfold number_to_string. rewrite Hn, Hz. eexists _, _. split; [done|by left].
  - destruct (number_to_string_digits x Hn Hz Hi) as (s & p & Hs & _ & ->).
    destruct (digits_of_Z_pos s Hs) as (d & -> & Hl & _).
    destruct (get_sign x).
    + eexists _, _. split; [done|by right].
    + destruct (format_decimal_head d (p + Z.of_nat (String.length (NilEmpty.string_of_uint d))) Hl)
        as (c0 & t & -> & Hc0).
      eexists _, _. split; [done|by left].
Qed.

Lemma parse_value_number fuel c s :
  JSON.is_digit c = true ∨ c = "-"%char →
  JSON.skip_ws (String c s) = String c s ∧
  JSON.parse_value (S fuel) (String c s) =
  '(n, rest) ← JSON.parse_number (String c s); Some (JsNumber n, rest).
Proof.
  intros [Hc| ->]; [|done].
  destruct c as [[] [] [] [] [] [] [] []]; done.
Qed.

(** A finite number, as a member of an object or an element of an array. *)
Lemma parse_value_to_string fuel x c r :
  is_finite x = true → (c = "," ∨ c = "}")%char →
  JSON.parse_value (S fuel) (JSON.skip_ws (number_to_string x +:+ String c r)) =
  Some (JsNumber (read_back x), String c r).
Proof.
  intros Hfin Hc.
  destruct (number_to_string_head x Hfin) as (c0 & t & Ht & Hc0).
  pose proof (parse_number_to_string x c r Hfin Hc) as Hparse.
  rewrite Ht, append_cons in *.
  destruct (parse_value_number fuel c0 (t +:+ String c r) Hc0) as [-> ->].
  by rewrite Hparse.
Qed.

Lemma object_text tx ty tz :
  "{" +:+ JSON.join "," [JSON.quote "x" +:+ ":" +:+ tx; JSON.quote "y" +:+ ":" +:+ ty;
                          JSON.quote "z" +:+ ":" +:+ tz] +:+ "}" =
  String "{" (String "034" (String "x" (String "034" (String ":"
    (tx +:+ String "," (String "034" (String "y" (String "034" (String ":"
    (ty +:+ String "," (String "034" (String "z" (String "034" (String ":"
    (tz +:+ String "}" ""))))))))))))))).
Proof.
  unfold JSON.join, JSON.quote, JSON.dquote. simpl JSON.quote_chars.
  repeat (rewrite append_assoc || rewrite append_cons || rewrite append_nil_l). done.
Qed.

Lemma parse_value_object fuel rest :
  JSON.parse_value (S fuel) (String "{" rest) =
  JSON.parse_object (JSON.parse_value fuel) (String.length (String "{" rest)) rest.
Proof. done. Qed.

(** A member with a key of one letter, whose value is read by [pv]. *)
Lemma parse_member_value pv acc (k : ascii) t v c r :
  (∀ rest, JSON.parse_chars (String k (String "034" rest)) = Some (String k "", rest)) →
  pv (JSON.skip_ws (t +:+ String c r)) = Some (v, String c r) →
  JSON.parse_member pv acc
    (String "034" (String k (String "034" (String ":" (t +:+ String c r))))) =
  Some (props_set (String k "") v acc, String c r).
Proof.
  intros Hk Hv. unfold JSON.parse_member.
  change (JSON.skip_ws (String "034" ?s)) with (String "034"%char s). cbv iota.
  change (nat_of_ascii "034" =? 34)%nat with true. cbv iota.
  rewrite Hk. bind_step.
  change (JSON.skip_ws (String ":" ?s)) with (String ":"%char s). cbv iota.
  rewrite Hv. by bind_step.
Qed.

Lemma parse_object_xyz tx ty tz vx vy vz :
  (∀ fuel c r, (c = "," ∨ c = "}")%char →
     JSON.parse_value (S fuel) (JSON.skip_ws (tx +:+ String c r)) = Some (vx, String c r)) →
  (∀ fuel c r, (c = "," ∨ c = "}")%char →
     JSON.parse_value (S fuel) (JSON.skip_ws (ty +:+ String c r)) = Some (vy, String c r)) →
  (∀ fuel c r, (c = "," ∨ c = "}")%char →
     JSON.parse_value (S fuel) (JSON.skip_ws (tz +:+ String c r)) = Some (vz, String c r)) →
  JSON.parse
    ("{" +:+ JSON.join "," [JSON.quote "x" +:+ ":" +:+ tx; JSON.quote "y" +:+ ":" +:+ ty;
                            JSON.quote "z" +:+ ":" +:+ tz] +:+ "}") =
  Normal (JsObject [("x", vx); ("y", vy); ("z", vz)]).
Proof.
  intros Hx Hy Hz. rewrite object_text. unfold JSON.parse.
  change (JSON.skip_ws (String "{" ?s)) with (String "{"%char s).
  simpl String.length. rewrite parse_value_object. simpl String.length.
  set (f := String.length _).
  unfold JSON.parse_object.
  change (JSON.skip_ws (String "034" ?s)) with (String "034"%char s). cbv iota.
  rewrite (parse_member_value _ _ _ tx vx); [|done|apply Hx; by left]. bind_step.
  cbn [JSON.parse_members].
  change (JSON.skip_ws (String "," ?s)) with (String ","%char s). cbv iota.
  rewrite (parse_member_value _ _ _ ty vy); [|done|apply Hy; by left]. bind_step.
  cbn [JSON.parse_members].
  change (JSON.skip_ws (String "," ?s)) with (String ","%char s). cbv iota.
  rewrite (parse_member_value _ _ _ tz vz); [|done|apply Hz; by right]. bind_step.
  cbn [JSON.parse_members].
  change (JSON.skip_ws (String "}" ?s)) with (String "}"%char s). cbv iota.
  done.
Qed.

Lemma substring_full s : String.substring 0 (String.length s) s = s.
Proof. induction s as [|c s IH]; [done|]. simpl. by rewrite IH. Qed.

Lemma parse_value_null fuel c r :
  (c = "," ∨ c = "}")%char →
  JSON.parse_value (S fuel) (JSON.skip_ws ("null" +:+ String c r)) = Some (JsNull, String c r).
Proof.
  intros Hc. change ("null" +:+ ?s) with (String "n" (String "u" (String "l" (String "l" s)))).
  change (JSON.skip_ws (String "n" ?s)) with (String "n"%char s).
  cbn [JSON.parse_value]. unfold JSON.expect.
  change (String.prefix "null" (String "n" (String "u" (String "l" (String "l" ?s))))) with true.
  cbv iota. unfold string_drop. simpl. by rewrite ?Nat.sub_0_r, substring_full.
Qed.

(** The snapshot of every rotation parses, to an object whose members are
    the numbers reread. *)
Theorem parse_rotationSnapshot r :
  JSON.parse (rotationSnapshot r) =
  Normal (JsObject [("x", reread (rot_x r)); ("y", reread (rot_y r));
                    ("z", reread (rot_z r))]).
Proof.
  unfold rotationSnapshot, JSON.stringify. simpl JSON.serialize. simpl String_of_json.
  apply parse_object_xyz; intros fuel c s Hc; unfold reread.
  - destruct (is_finite (rot_x r)) eqn:Hf;
      [by apply parse_value_to_string|by apply parse_value_null].
  - destruct (is_finite (rot_y r)) eqn:Hf;
      [by apply parse_value_to_string|by apply parse_value_null].
  - destruct (is_finite (rot_z r)) eqn:Hf;
      [by apply parse_value_to_string|by apply parse_value_null].
Qed.

Theorem stored_rotation_snapshot r :
  stored_rotation (Some (rotationSnapshot r)) =
  if finite_rotation r then Some (read_back_rotation r) else None.
Proof.
  unfold stored_rotation. rewrite parse_rotationSnapshot.
  unfold rotation_of_value, finite_rotation, reread, read_back_rotation. simpl.
  by destruct (is_finite (rot_x r)), (is_finite (rot_y r)), (is_finite (rot_z r)).
Qed.

Local Close Scope Z_scope.

Lemma default_stored_rotation r :
  default Euler_default (stored_rotation (Some (rotationSnapshot r))) = restored r.
Proof. rewrite stored_rotation_snapshot. unfold restored. by destruct (finite_rotation r). Qed.

(** ECMA-262's promise: the snapshot of a rotation of finite numbers, none of
    them [-0], reads back as written. *)
Lemma finite_survives_json r :
  finite_rotation r = true → read_back_rotation r = r → survives_json r.
Proof.
  intros Hf Hr. unfold survives_json. rewrite parse_rotationSnapshot.
  unfold finite_rotation in Hf. apply andb_prop in Hf as [[Hx Hy]%andb_prop Hz].
  unfold reread. rewrite Hx, Hy, Hz. unfold snapshot_value. rewrite <- Hr at 4 5 6. done.
Qed.

(** The number read back is the number written, as [===] compares them. *)
Lemma read_back_same x : is_nan x = false → PrimFloat.eqb (read_back x) x = true.
Proof.
  intros Hn. unfold read_back. destruct (is_zero x) eqn:Hz.
  - rewrite is_zero_SF in Hz. rewrite FloatAxioms.eqb_spec.
    by destruct (Prim2SF x).
  - unfold is_nan in Hn. by apply negb_false_iff in Hn.
Qed.

(** ** The claims *)

(** C1, counterexample: mount, change the shape to the sphere, unmount.  The
    renderer of the first construction is disposed twice: once by the cleanup
    of the first construction, once more by the second construction, which
    finds it in [rendererRef] (lines 118-119). *)
Lemma renderer_disposed_twice :
  occurrences (RendererDispose 0)
    (calls (run [Mount; ClickShape "sphere"; Unmount] sample_page).2) = 2.
Proof. vm_compute. reflexivity. Qed.

(** C1, as amended: in every reachable world, construction [i] being the one
    that created renderer [i], geometry [i] and material [i]: while the
    construction is on screen none of the three has been disposed; once it has
    been torn down its geometry and its material have been disposed exactly
    once, and its renderer exactly once if no construction followed and
    exactly twice if one did. *)
Theorem disposals_per_construction (w : World) (i : nat) :
  reachable w → i < length (renderers (heap w)) →
  occurrences (GeometryDispose i) (calls w) = (if active w i then 0 else 1) ∧
  occurrences (MaterialDispose i) (calls w) = (if active w i then 0 else 1) ∧
  occurrences (RendererDispose i) (calls w) =
    (if active w i then 0
     else if bool_decide (S i < length (renderers (heap w))) then 2 else 1).
Proof.
  intros Hr Hi. apply reachable_inv in Hr. unfold Inv in Hr. unfold active.
  destruct (phase (state w)) eqn:Hph.
  - destruct Hr as ((_ & _ & Hre & _) & _). lia.
  - destruct Hr as [k [Hh Hd _ _ _ _ _ _ _ _ _ _ _]].
    destruct Hh as (_ & _ & Hre & _). rewrite Hre in *.
    destruct (disposals_unfold _ _ _ i Hd) as (-> & -> & ->).
    repeat case_bool_decide; repeat case_decide; destruct_and?; simplify_eq; try lia.
    all: try done. all: naive_solver lia.
  - destruct Hr as (k & Hh & Hd & _).
    destruct Hh as (_ & _ & Hre & _). rewrite Hre in *.
    destruct (disposals_unfold _ _ _ i Hd) as (-> & -> & ->).
    repeat case_bool_decide; repeat case_decide; destruct_and?; simplify_eq; try lia.
    all: try done. all: naive_solver lia.
Qed.

(** The first construction of [switched_page], torn down by the change of
    shape. *)
Lemma disposals_per_construction_witness :
  occurrences (GeometryDispose 0) (calls switched_page) =
    (if active switched_page 0 then 0 else 1) ∧
  occurrences (MaterialDispose 0) (calls switched_page) =
    (if active switched_page 0 then 0 else 1) ∧
  occurrences (RendererDispose 0) (calls switched_page) =
    (if active switched_page 0 then 0
     else if bool_decide (1 < length (renderers (heap switched_page))) then 2 else 1).
Proof.
  apply (disposals_per_construction switched_page 0).
  - exact switched_page_reachable.
  - vm_compute. lia.
Defined.

(** The size that the resize handler divides by, [measured || fallback], is
    neither zero nor NaN when the fallback is not. *)
Lemma resize_size_truthy (measured fallback : number) :
  number_truthy fallback = true →
  number_truthy (if number_truthy measured then measured else fallback) = true.
Proof. intros H. by destruct (number_truthy measured) eqn:E. Qed.

(** C2: with a viewport of 0 by 0 the camera that the construction creates
    has the aspect ratio 0 / 0, which is NaN: lines 112-113 divide the width
    by the height as measured.  The resize handler (lines 179-181) does
    substitute 800 and 600: after a resize to 0 by 0 the aspect ratio is
    800 / 600. *)
Theorem zero_viewport_aspect :
  (cam_aspect <$> cameras (heap (run [Mount] (boot ∅ (0, 0)%float 1%float)).2) !! 0) =
    Some nan ∧
  (cam_aspect <$>
     cameras (heap (run [Mount; WindowResize 0 0] (boot ∅ (0, 0)%float 1%float)).2) !! 0) =
    Some (800 / 600)%float.
Proof. vm_compute. done. Qed.

(** C3, counterexample: the stored text [{"x":1e999,"y":0,"z":0}] parses, its
    [x] parses to Infinity, which is of type number and not finite, and the
    restore step puts it on the mesh. *)
Lemma infinite_rotation_restored :
  JSON.parse overflowing_rotation =
    Normal (JsObject [("x", JsNumber infinity); ("y", JsNumber 0); ("z", JsNumber 0)]) ∧
  is_finite infinity = false ∧
  rotation_at (run [Mount] (boot overflowing_store (800, 600)%float 1%float)).2 0 =
    Some {| rot_x := infinity; rot_y := 0; rot_z := 0 |}.
Proof. vm_compute. done. Qed.

(** C3, as amended: when the text stored under [meshRotation] does not parse,
    or parses to a value whose [x], [y] and [z] are not all of type number,
    the restore step completes without throwing and changes nothing, for
    whichever mesh, and the construction completes with the default rotation
    on its new mesh. *)
Theorem restore_rotation_malformed (w : World) (s : string) :
  localStorage (browser w) !! "meshRotation" = Some s →
  (∀ v, JSON.parse s = Normal v → ¬ all_numbers v) →
  geometryKey (state w) ∈ Object_keys GEOMETRIES →
  (∀ mesh, restore_rotation mesh w = (Normal (), w)) ∧
  ∃ env w', construct w = (Normal env, w') ∧
            rotation_at w' (length (meshes (heap w))) = Some Euler_default.
Proof.
  intros Hls Hbad Hkey.
  assert (Hnone : stored_rotation (localStorage (browser w) !! "meshRotation") = None).
  { rewrite Hls. unfold stored_rotation.
    destruct (JSON.parse s) as [v|e] eqn:Hp; [|done].
    destruct (rotation_of_value v) as [r|] eqn:Hv; [|done].
    destruct (Hbad v eq_refl). by eapply rotation_of_value_numbers. }
  split.
  - intros mesh. by rewrite restore_rotation_spec, Hnone.
  - destruct (GEOMETRIES_get_Some _ Hkey) as [info Hinfo].
    rewrite (construct_spec w info Hinfo).
    eexists _, _. split; [reflexivity|].
    unfold rotation_at. simpl.
    rewrite list_lookup_middle by done. simpl. by rewrite Hnone.
Qed.

(** The text that the loop itself writes for a rotation that is not finite:
    its [x] is [null]. *)
Lemma restore_rotation_malformed_witness :
  (∀ mesh, restore_rotation mesh null_page = (Normal (), null_page)) ∧
  ∃ env w', construct null_page = (Normal env, w') ∧
            rotation_at w' (length (meshes (heap null_page))) = Some Euler_default.
Proof.
  apply (restore_rotation_malformed null_page null_rotation).
  - vm_compute. reflexivity.
  - intros v Hv. vm_compute in Hv. injection Hv as <-.
    intros (Hx & _). vm_compute in Hx. discriminate.
  - vm_compute. repeat constructor.
Defined.

(** C4: whatever the store holds, mounting completes without throwing and
    selects the stored shape when it is one of the eight keys of the
    catalogue and the box otherwise (also when nothing is stored); and after
    any events that follow, the selected shape is a key of the catalogue. *)
Theorem initial_shape_valid (store : gmap string string) (size : number * number)
    (dpr : number) :
  (∃ w, run [Mount] (boot store size dpr) = (Normal (), w) ∧
        geometryKey (state w) =
          match store !! "geometryKey" with
          | Some stored =>
              if bool_decide (stored ∈ ["box"; "sphere"; "plane"; "cone"; "cylinder";
                                        "torus"; "torusKnot"; "ring"])
              then stored else "box"
          | None => "box"
          end) ∧
  (∀ evs, ∃ w, run (Mount :: evs) (boot store size dpr) = (Normal (), w) ∧
               (phase (state w) = Mounted →
                geometryKey (state w) ∈ Object_keys GEOMETRIES)).
Proof.
  split.
  - destruct (mount_spec (boot store size dpr)) as (w & info & Hrun & _ & Hstate & _).
    exists w. split.
    + erewrite run_cons; [reflexivity|]. done.
    + by rewrite Hstate.
  - intros evs.
    destruct (run_inv (Mount :: evs) _ (boot_inv store size dpr)) as (w & Hrun & HI).
    exists w. split; [done|]. intros Hph.
    destruct (Inv_Mounted_inv w Hph HI) as [k Hk]. apply Hk.
Qed.

(** A stored [doesNotExist] selects the box; a stored [torusKnot] is kept. *)
Example unknown_shape_falls_back :
  geometryKey
    (state (run [Mount] (boot {["geometryKey" := "doesNotExist"]} (800, 600)%float
                           1%float)).2) = "box" ∧
  geometryKey
    (state (run [Mount] (boot {["geometryKey" := "torusKnot"]} (800, 600)%float
                           1%float)).2) = "torusKnot".
Proof. vm_compute. done. Qed.

(** C5, counterexample: two pages with auto-rotate on.  The first is mounted
    over a stored rotation whose [x] overflows: after a display refresh its
    mesh has an infinite [x], the store holds [null] for it, and what the
    store holds is not a rotation any more, so the persisted value is not the
    rotation of the mesh.  The second is mounted over a rotation with
    [x = 1e16]: after the effect's own step and two hundred refreshes its
    [x], on the mesh and in the store, is still [1e16], while
    [1e16 + 201 * 0.01] is another number: the increments are lost in the
    rounding, and the persisted rotation is not the initial one plus the
    increments, modulo 2 pi or not. *)
Lemma persisted_rotation_differs :
  reachable overflowed_page ∧
  autoRotate (state overflowed_page) = true ∧
  rotation_at overflowed_page 0 =
    Some {| rot_x := infinity; rot_y := 0.03; rot_z := 0 |} ∧
  localStorage (browser overflowed_page) !! "meshRotation" =
    Some ("{" +:+ JSON.quote "x" +:+ ":null," +:+ JSON.quote "y" +:+ ":0.03,"
              +:+ JSON.quote "z" +:+ ":0}") ∧
  stored_rotation (localStorage (browser overflowed_page) !! "meshRotation") = None ∧
  reachable large_page ∧
  autoRotate (state large_page) = true ∧
  rot_x <$> rotation_at large_page 0 = Some 1e16%float ∧
  rot_x <$> stored_rotation (localStorage (browser large_page) !! "meshRotation") =
    Some 1e16%float ∧
  (1e16 + 201 * 0.01 =? 1e16)%float = false.
Proof.
  split.
  { exists {["meshRotation" := overflowing_rotation]}, (800, 600)%float, 1%float,
      [Mount; AnimationFrame]. vm_compute. reflexivity. }
  do 4 (split; [vm_compute; reflexivity|]). split.
  { exists {["meshRotation" := large_rotation]}, (800, 600)%float, 1%float,
      (Mount :: replicate 200 AnimationFrame). vm_compute. reflexivity. }
  vm_compute. done.
Qed.

(** C5: in every reachable world with the component mounted and auto-rotate
    on, with [r] the rotation of the mesh on screen: [N] display refreshes
    complete without throwing and leave on that mesh the rotation [r] advanced
    [N] times by 0.01 on [x] and 0.015 on [y], with [z] as it was; after each
    refresh the store holds the snapshot of exactly that rotation, and what
    [JSON.parse] reads back from the store is that rotation, with [0] for
    [-0], when its numbers are finite, and no rotation at all when one of
    them is not (for [N = 0] nothing was written and the store is as
    before).  The sums are binary64 sums, each rounded, and neither the mesh
    nor the store reduces them modulo 2 pi. *)
Theorem autoRotate_ticks (w : World) (N : nat) :
  reachable w → phase (state w) = Mounted → autoRotate (state w) = true →
  ∃ mesh r w',
    currentMeshRef (refs w) = Some mesh ∧ rotation_at w mesh = Some r ∧
    run (replicate N AnimationFrame) w = (Normal (), w') ∧
    currentMeshRef (refs w') = Some mesh ∧
    rotation_at w' mesh = Some (Nat.iter N advance r) ∧
    localStorage (browser w') !! "meshRotation" =
      match N with
      | O => localStorage (browser w) !! "meshRotation"
      | S _ => Some (rotationSnapshot (Nat.iter N advance r))
      end ∧
    stored_rotation (localStorage (browser w') !! "meshRotation") =
      match N with
      | O => stored_rotation (localStorage (browser w) !! "meshRotation")
      | S _ =>
          if finite_rotation (Nat.iter N advance r)
          then Some (read_back_rotation (Nat.iter N advance r)) else None
      end.
Proof.
  intros Hr Hph Hauto. apply reachable_inv in Hr.
  destruct (Inv_Mounted_inv w Hph Hr) as [k HI].
  destruct (inv_mesh _ _ HI) as (m & Hm & _).
  assert (Hrot : autoRotateRef (refs w) = true) by by rewrite (inv_autoRotateRef _ _ HI).
  destruct (ticks_rotating N w k m HI Hrot Hm) as (w' & Hrun & HI' & _ & Hrot' & Hls).
  exists k, (mesh_rotation m), w'.
  split; [apply HI|]. split; [unfold rotation_at; by rewrite Hm|].
  split; [done|]. split; [apply HI'|]. split; [done|]. split; [done|].
  rewrite Hls. destruct N; [done|]. apply stored_rotation_snapshot.
Qed.

(** Three refreshes of [mounted_page]. *)
Lemma autoRotate_ticks_witness :
  ∃ mesh r w',
    currentMeshRef (refs mounted_page) = Some mesh ∧
    rotation_at mounted_page mesh = Some r ∧
    run (replicate 3 AnimationFrame) mounted_page = (Normal (), w') ∧
    currentMeshRef (refs w') = Some mesh ∧
    rotation_at w' mesh = Some (Nat.iter 3 advance r) ∧
    localStorage (browser w') !! "meshRotation" =
      Some (rotationSnapshot (Nat.iter 3 advance r)) ∧
    stored_rotation (localStorage (browser w') !! "meshRotation") =
      if finite_rotation (Nat.iter 3 advance r)
      then Some (read_back_rotation (Nat.iter 3 advance r)) else None.
Proof.
  apply (autoRotate_ticks mounted_page 3).
  - exact mounted_page_reachable.
  - vm_compute. reflexivity.
  - vm_compute. reflexivity.
Defined.

(** The sign of zero: on [negative_zero_page] the mesh has [z = -0]; the
    store holds [0] for it, which reads back as [0]. *)
Example negative_zero_read_back :
  rot_z <$> rotation_at negative_zero_page 0 = Some (-0)%float ∧
  rot_z <$> stored_rotation (localStorage (browser negative_zero_page) !! "meshRotation") =
    Some 0%float ∧
  (1 / -0 <? 0)%float = true ∧ (1 / 0 <? 0)%float = false.
Proof. vm_compute. done. Qed.

(** The closed form on a sample: a thousand steps from (1.2, 0.4, 0) end
    within 1e-9 of (1.2 + 1000 * 0.01, 0.4 + 1000 * 0.015, 0), past 2 pi and
    not reduced. *)
Example thousand_ticks_near_closed_form :
  (abs (rot_x (Nat.iter 1000 advance spec_rotation) - 11.2) <? 1e-9)%float = true ∧
  (abs (rot_y (Nat.iter 1000 advance spec_rotation) - 15.4) <? 1e-9)%float = true ∧
  rot_z (Nat.iter 1000 advance spec_rotation) = 0%float.
Proof. vm_compute. done. Qed.

(** C6: in every reachable world with the component mounted and auto-rotate
    off, [N] display refreshes complete without throwing, leave every object
    of three.js as it was (the rotation of the mesh with them) and the store
    as it was, and render the scene of the construction on screen through its
    camera [N] more times. *)
Theorem idle_ticks (w : World) (N : nat) :
  reachable w → phase (state w) = Mounted → autoRotate (state w) = false →
  ∃ k w',
    sceneCleanup (state w) = Some (env_of k) ∧
    run (replicate N AnimationFrame) w = (Normal (), w') ∧
    heap w' = heap w ∧
    currentMeshRef (refs w') = currentMeshRef (refs w) ∧
    localStorage (browser w') = localStorage (browser w) ∧
    occurrences (RendererRender k k k) (calls w') =
      occurrences (RendererRender k k k) (calls w) + N.
Proof.
  intros Hr Hph Hauto. apply reachable_inv in Hr.
  destruct (Inv_Mounted_inv w Hph Hr) as [k HI].
  assert (Hrot : autoRotateRef (refs w) = false) by by rewrite (inv_autoRotateRef _ _ HI).
  destruct (ticks_idle N w k HI Hrot) as (w' & Hrun & HI' & _ & Hheap & Hls & Hocc).
  exists k, w'. split; [apply HI|]. split; [done|]. split; [done|].
  split; [|done]. by rewrite (inv_currentMeshRef _ _ HI), (inv_currentMeshRef _ _ HI').
Qed.

(** Three refreshes of [idle_page]. *)
Lemma idle_ticks_witness :
  ∃ k w',
    sceneCleanup (state idle_page) = Some (env_of k) ∧
    run (replicate 3 AnimationFrame) idle_page = (Normal (), w') ∧
    heap w' = heap idle_page ∧
    currentMeshRef (refs w') = currentMeshRef (refs idle_page) ∧
    localStorage (browser w') = localStorage (browser idle_page) ∧
    occurrences (RendererRender k k k) (calls w') =
      occurrences (RendererRender k k k) (calls idle_page) + 3.
Proof.
  apply (idle_ticks idle_page 3).
  - exact idle_page_reachable.
  - vm_compute. reflexivity.
  - vm_compute. reflexivity.
Defined.

(** C7, counterexample: the page mounted over the snapshot of (1.2, 0.4, 0),
    with auto-rotate on by default.  After the first render, before any
    display refresh (the effect has requested one frame and rendered once),
    the mesh does not hold (1.2, 0.4, 0) but that rotation advanced by one
    step, and the store holds the snapshot of the advanced rotation: the
    effect runs the loop body once itself (line 173). *)
Lemma mount_advances_restored_rotation :
  reachable restored_page ∧
  localStorage (browser restored_page) !! "meshRotation" =
    Some (rotationSnapshot (advance spec_rotation)) ∧
  rotation_at restored_page 0 = Some (advance spec_rotation) ∧
  (rot_x (advance spec_rotation) =? rot_x spec_rotation)%float = false ∧
  (rot_y (advance spec_rotation) =? rot_y spec_rotation)%float = false ∧
  calls restored_page = [RequestAnimationFrame 1 (env_of 0); RendererRender 0 0 0;
                         AddResizeListener (env_of 0)].
Proof.
  split.
  { exists {["meshRotation" := rotationSnapshot spec_rotation]}, (800, 600)%float, 1%float,
      [Mount]. vm_compute. reflexivity. }
  vm_compute. done.
Qed.

(** C7: in every reachable world with the component mounted and auto-rotate
    on, with [r] the rotation of the mesh on screen, a display refresh writes
    to the store the snapshot of [advance r], and the next construction
    restores it: it reads from the store [advance r] with [0] for [-0] when
    the numbers of [advance r] are finite, and falls back to the rotation of
    a new mesh when one of them is not.  The construction alone (lines
    106-159) puts that restored rotation on its new mesh.  On a run, the
    effect then runs the loop body once before any display refresh: after a
    click on the button of another shape, and likewise after a reload of the
    page over that store, the new mesh holds the restored rotation advanced
    by one step; it holds the restored rotation itself when auto-rotate was
    switched off before the click. *)
Theorem restored_after_tick (w : World) (key : string) :
  reachable w → phase (state w) = Mounted → autoRotate (state w) = true →
  key ∈ Object_keys GEOMETRIES → key ≠ geometryKey (state w) →
  ∃ k r w1,
    currentMeshRef (refs w) = Some k ∧ rotation_at w k = Some r ∧
    run [AnimationFrame] w = (Normal (), w1) ∧
    localStorage (browser w1) !! "meshRotation" = Some (rotationSnapshot (advance r)) ∧
    (∃ env w2, construct w1 = (Normal env, w2) ∧
               rotation_at w2 (length (meshes (heap w1))) = Some (restored (advance r))) ∧
    (∃ w2, run [ClickShape key] w1 = (Normal (), w2) ∧
           currentMeshRef (refs w2) = Some (S k) ∧
           rotation_at w2 (S k) = Some (advance (restored (advance r)))) ∧
    (∃ w2, run [ClickAutoRotate; ClickShape key] w1 = (Normal (), w2) ∧
           currentMeshRef (refs w2) = Some (S k) ∧
           rotation_at w2 (S k) = Some (restored (advance r))) ∧
    (∀ size dpr,
       ∃ w2, run [Mount] (boot (localStorage (browser w1)) size dpr) = (Normal (), w2) ∧
             currentMeshRef (refs w2) = Some 0 ∧
             rotation_at w2 0 = Some (advance (restored (advance r)))).
Proof.
  intros Hr Hph Hauto Hkey Hne. destruct (reachable_SceneInv w Hr Hph) as [k HS].
  pose proof (si_mounted _ _ HS) as HI.
  destruct (inv_mesh _ _ HI) as (m & Hm & _).
  assert (Hrot : autoRotateRef (refs w) = true) by by rewrite (inv_autoRotateRef _ _ HI).
  destruct (SceneInv_tick w k HS) as (w1 & Hrun1 & HS1 & Hph1).
  pose proof Hrun1 as Hw1.
  rewrite (tick_rotating w k m) in Hw1; [|apply HI|done|apply HI|done].
  injection Hw1 as Hw1.
  assert (Hls1 : localStorage (browser w1) !! "meshRotation" =
                 Some (rotationSnapshot (advance (mesh_rotation m)))).
  { rewrite <- Hw1. destruct_world w. simpl. by rewrite lookup_insert_eq. }
  assert (Hst1 : state w1 = state w) by (rewrite <- Hw1; by destruct_world w).
  assert (Hrot1 : autoRotateRef (refs w1) = true).
  { rewrite <- Hw1. by destruct_world w. }
  pose proof (si_mounted _ _ HS1) as HI1.
  destruct (GEOMETRIES_get_Some key Hkey) as [info Hinfo].
  assert (Heq : String.eqb key (geometryKey (state w1)) = false).
  { rewrite Hst1. by apply String.eqb_neq. }
  assert (Hlen : ∀ w' k', MountedInv w' k' → length (meshes (heap w')) = S k').
  { intros w' k' HI'. by destruct (inv_heap _ _ HI') as (_ & _ & _ & _ & _ & Lme). }
  exists k, (mesh_rotation m), w1.
  split; [apply HI|]. split; [unfold rotation_at; by rewrite Hm|].
  split; [by rewrite (run_cons _ _ _ w1) by by rewrite dispatch_AnimationFrame|].
  split; [done|]. split; [|split; [|split]].
  - destruct (GEOMETRIES_get_Some _ (inv_key _ _ HI1)) as [info1 Hinfo1].
    rewrite (construct_spec w1 info1 Hinfo1). eexists _, _. split; [reflexivity|].
    unfold rotation_at. simpl. rewrite list_lookup_middle by done. simpl.
    by rewrite Hls1, default_stored_rotation.
  - eexists. split.
    { erewrite run_cons; [reflexivity|].
      rewrite dispatch_Mounted by congruence. unfold when.
      rewrite bool_decide_true by done. by apply (setGeometryKey_run w1 k key info). }
    unfold rotation_at. simpl. split; [done|].
    rewrite list_lookup_middle by by rewrite (Hlen _ _ HI1). simpl.
    by rewrite Hrot1, Hls1, default_stored_rotation.
  - destruct (SceneInv_toggleAutoRotate w1 k HS1) as (w2 & Hrun2 & HS2 & Hph2).
    pose proof Hrun2 as Hw2. rewrite toggleAutoRotate_spec in Hw2. injection Hw2 as Hw2.
    assert (Hls2 : localStorage (browser w2) !! "meshRotation" =
                   Some (rotationSnapshot (advance (mesh_rotation m)))).
    { rewrite <- Hw2, <- Hls1. destruct_world w1. simpl. by rewrite lookup_insert_ne. }
    assert (Hrot2 : autoRotateRef (refs w2) = false).
    { rewrite <- Hw2. simpl. by rewrite Hst1, Hauto. }
    assert (Heq2 : String.eqb key (geometryKey (state w2)) = false).
    { rewrite <- Hw2. simpl. rewrite <- Heq. by destruct (state w1). }
    eexists. split.
    { erewrite run_cons; [|rewrite dispatch_Mounted by congruence; exact Hrun2].
      erewrite run_cons; [reflexivity|].
      rewrite dispatch_Mounted by congruence. unfold when.
      rewrite bool_decide_true by done. by apply (setGeometryKey_run w2 k key info). }
    unfold rotation_at. simpl. split; [done|].
    rewrite list_lookup_middle by by rewrite (Hlen _ _ (si_mounted _ _ HS2)). simpl.
    by rewrite Hrot2, Hls2, default_stored_rotation.
  - intros size dpr.
    destruct (GEOMETRIES_get_Some _ (initial_geometryKey_valid (localStorage (browser w1))))
      as [info0 Hinfo0].
    destruct (si_saved _ _ HS1) as (_ & _ & Hsa).
    rewrite Hst1, Hauto in Hsa. apply initial_autoRotate_saved in Hsa.
    eexists. split.
    { erewrite run_cons; [reflexivity|].
      unfold dispatch, mbind, JS_bind, gets. simpl. by apply mount_boot. }
    unfold rotation_at. simpl. split; [done|].
    by rewrite Hsa, Hls1, default_stored_rotation.
Qed.

(** A refresh of [mounted_page], then the sphere. *)
Lemma restored_after_tick_witness :
  ∃ k r w1,
    currentMeshRef (refs mounted_page) = Some k ∧ rotation_at mounted_page k = Some r ∧
    run [AnimationFrame] mounted_page = (Normal (), w1) ∧
    localStorage (browser w1) !! "meshRotation" = Some (rotationSnapshot (advance r)) ∧
    (∃ env w2, construct w1 = (Normal env, w2) ∧
               rotation_at w2 (length (meshes (heap w1))) = Some (restored (advance r))) ∧
    (∃ w2, run [ClickShape "sphere"] w1 = (Normal (), w2) ∧
           currentMeshRef (refs w2) = Some (S k) ∧
           rotation_at w2 (S k) = Some (advance (restored (advance r)))) ∧
    (∃ w2, run [ClickAutoRotate; ClickShape "sphere"] w1 = (Normal (), w2) ∧
           currentMeshRef (refs w2) = Some (S k) ∧
           rotation_at w2 (S k) = Some (restored (advance r))) ∧
    (∀ size dpr,
       ∃ w2, run [Mount] (boot (localStorage (browser w1)) size dpr) = (Normal (), w2) ∧
             currentMeshRef (refs w2) = Some 0 ∧
             rotation_at w2 0 = Some (advance (restored (advance r)))).
Proof.
  apply (restored_after_tick mounted_page "sphere").
  - exact mounted_page_reachable.
  - vm_compute. reflexivity.
  - vm_compute. reflexivity.
  - vm_compute. repeat constructor.
  - vm_compute. discriminate.
Defined.

(** The rotation (1.2, 0.4, 0.0) reads back as written. *)
Example spec_rotation_survives_json : survives_json spec_rotation.
Proof. vm_compute. reflexivity. Qed.

(** And a construction puts it on its mesh. *)
Example spec_rotation_restored :
  rotation_at
    (construct (boot (<["meshRotation" := rotationSnapshot spec_rotation]> ∅)
                  (800, 600)%float 1%float)).2 0 = Some spec_rotation.
Proof. vm_compute. reflexivity. Qed.

(** C8: in every reachable world with the component mounted there is a mesh
    on screen, and a click on the wireframe button completes without
    throwing and yields the same world but for: the wireframe flag of the
    material of that mesh, negated, with the version that [needsUpdate]
    increments; the entry [wireframe] of the store; the state cell and its
    mirror ref.  Scenes, cameras, renderers, geometries, meshes, the
    scheduler and the list of calls (so: no dispose, no construction) are as
    before. *)
Theorem toggle_wireframe_in_place (w : World) :
  reachable w → phase (state w) = Mounted →
  ∃ mesh m mat,
    currentMeshRef (refs w) = Some mesh ∧
    meshes (heap w) !! mesh = Some m ∧
    materials (heap w) !! mesh_material m = Some mat ∧
    dispatch ClickWireframe w =
    (Normal (),
     {| browser :=
          map_localStorage
            (insert "wireframe" (String_of_bool (negb (wireframe (state w)))))
            (browser w);
        heap :=
          map_materials
            (insert (mesh_material m)
               {| mat_color := mat_color mat;
                  mat_wireframe := negb (wireframe (state w));
                  mat_version := S (mat_version mat) |})
            (heap w);
        refs := map_wireframeRef (λ _, negb (wireframe (state w))) (refs w);
        state := map_wireframe negb (state w);
        calls := calls w |}).
Proof.
  intros Hr Hph. apply reachable_inv in Hr.
  destruct (Inv_Mounted_inv w Hph Hr) as [k HI].
  destruct (inv_mesh _ _ HI) as (m & Hm & Hg & Hma).
  destruct (inv_heap _ _ HI) as (_ & _ & _ & _ & Hmat & _).
  destruct (lookup_lt_is_Some_2 (materials (heap w)) k) as [mat Hmat']; [lia|].
  exists k, m, mat. split; [apply HI|]. split; [done|].
  rewrite Hma. split; [done|].
  unfold dispatch. unfold mbind, JS_bind, gets. rewrite Hph.
  rewrite (toggleWireframe_spec w k m); [|apply HI|done].
  rewrite Hma. unfold map_materials. by rewrite (alter_lookup_insert _ _ _ _ Hmat').
Qed.

(** A click on [mounted_page]. *)
Lemma toggle_wireframe_in_place_witness :
  ∃ mesh m mat,
    currentMeshRef (refs mounted_page) = Some mesh ∧
    meshes (heap mounted_page) !! mesh = Some m ∧
    materials (heap mounted_page) !! mesh_material m = Some mat ∧
    dispatch ClickWireframe mounted_page =
    (Normal (),
     {| browser :=
          map_localStorage
            (insert "wireframe" (String_of_bool (negb (wireframe (state mounted_page)))))
            (browser mounted_page);
        heap :=
          map_materials
            (insert (mesh_material m)
               {| mat_color := mat_color mat;
                  mat_wireframe := negb (wireframe (state mounted_page));
                  mat_version := S (mat_version mat) |})
            (heap mounted_page);
        refs := map_wireframeRef (λ _, negb (wireframe (state mounted_page)))
                  (refs mounted_page);
        state := map_wireframe negb (state mounted_page);
        calls := calls mounted_page |}).
Proof.
  apply (toggle_wireframe_in_place mounted_page).
  - exact mounted_page_reachable.
  - vm_compute. reflexivity.
Defined.

(** C9: in every reachable world with the component mounted, exactly one
    frame callback is queued, under the handle [h] last issued.  Both
    teardowns, the one of an unmount and the one of a change of shape, make
    their calls in this order: the resize listener is removed, the callback
    [h] is cancelled, then the renderer, the geometry and the material are
    disposed, then the scene is cleared.  After an unmount no callback is
    queued; after a change of shape only the one of the new construction. *)
Theorem teardown_cancels_first (w : World) :
  reachable w → phase (state w) = Mounted →
  ∃ k,
    frameCallbacks (browser w) = [(frameHandle (browser w), env_of k)] ∧
    (∃ w', dispatch Unmount w = (Normal (), w') ∧
           calls w' = calls w ++ teardown_calls k (frameHandle (browser w)) ∧
           frameCallbacks (browser w') = []) ∧
    (∀ key, key ∈ Object_keys GEOMETRIES → key ≠ geometryKey (state w) →
       ∃ w', dispatch (ClickShape key) w = (Normal (), w') ∧
             calls w' =
               calls w ++ teardown_calls k (frameHandle (browser w)) ++
                 [RendererDispose k;
                  RequestAnimationFrame (S (frameHandle (browser w))) (env_of (S k));
                  RendererRender (S k) (S k) (S k); AddResizeListener (env_of (S k))] ∧
             frameCallbacks (browser w') =
               [(S (frameHandle (browser w)), env_of (S k))]).
Proof.
  intros Hr Hph. apply reachable_inv in Hr.
  destruct (Inv_Mounted_inv w Hph Hr) as [k HI]. exists k.
  split; [apply HI|]. split.
  - unfold dispatch. unfold mbind, JS_bind, gets. rewrite Hph.
    rewrite (unmount_spec w k HI). eexists. split; [reflexivity|]. done.
  - intros key Hkey Hne.
    unfold dispatch. unfold mbind, JS_bind, gets. rewrite Hph.
    unfold when. rewrite bool_decide_true by done.
    assert (Heq : String.eqb key (geometryKey (state w)) = false)
      by by apply String.eqb_neq.
    destruct (setGeometryKey_new w k key Hkey Heq HI)
      as (w' & Hrun & Hstate & Hcalls & Hfh & HI').
    exists w'. split; [done|]. split; [done|].
    by rewrite (inv_queue _ _ HI'), Hfh.
Qed.

(** The teardowns of [mounted_page]. *)
Lemma teardown_cancels_first_witness :
  ∃ k,
    frameCallbacks (browser mounted_page) =
      [(frameHandle (browser mounted_page), env_of k)] ∧
    (∃ w', dispatch Unmount mounted_page = (Normal (), w') ∧
           calls w' =
             calls mounted_page ++ teardown_calls k (frameHandle (browser mounted_page)) ∧
           frameCallbacks (browser w') = []) ∧
    (∀ key, key ∈ Object_keys GEOMETRIES → key ≠ geometryKey (state mounted_page) →
       ∃ w', dispatch (ClickShape key) mounted_page = (Normal (), w') ∧
             calls w' =
               calls mounted_page ++
                 teardown_calls k (frameHandle (browser mounted_page)) ++
                 [RendererDispose k;
                  RequestAnimationFrame (S (frameHandle (browser mounted_page)))
                    (env_of (S k));
                  RendererRender (S k) (S k) (S k); AddResizeListener (env_of (S k))] ∧
             frameCallbacks (browser w') =
               [(S (frameHandle (browser mounted_page)), env_of (S k))]).
Proof.
  apply (teardown_cancels_first mounted_page).
  - exact mounted_page_reachable.
  - vm_compute. reflexivity.
Defined.

(** C10: whatever the store holds, after mounting the wireframe state is
    true exactly when the store holds the string [true] under [wireframe],
    the one material is created with that flag, and auto-rotate is off
    exactly when the store holds the string [false] under [autoRotate]. *)
Theorem initial_wireframe_solid (store : gmap string string) (size : number * number)
    (dpr : number) :
  ∃ w mat,
    run [Mount] (boot store size dpr) = (Normal (), w) ∧
    (wireframe (state w) = true ↔ store !! "wireframe" = Some "true") ∧
    materials (heap w) = [mat] ∧
    mat_wireframe mat = wireframe (state w) ∧
    (autoRotate (state w) = false ↔ store !! "autoRotate" = Some "false").
Proof.
  destruct (mount_spec (boot store size dpr)) as (w & info & Hrun & _ & Hstate & Hmat & _).
  eexists w, _. split.
  { erewrite run_cons; [reflexivity|]. done. }
  rewrite Hstate, Hmat. simpl. unfold initial_wireframe, initial_autoRotate.
  split; [by rewrite bool_decide_eq_true|].
  split; [done|]. split; [done|].
  rewrite negb_false_iff. by rewrite bool_decide_eq_true.
Qed.

(** ** Further properties of the lifecycle *)

(** X1: in every reachable world in which the component has been mounted
    (mounted still, or unmounted since), the mount element holds exactly one
    canvas, that of the renderer in [rendererRef], which is the renderer
    created last: a construction detaches the canvas of the renderer before
    it (lines 118-123) and attaches its own (line 128), and the cleanup
    detaches nothing. *)
Theorem one_canvas (w : World) :
  reachable w → phase (state w) ≠ NotMounted →
  ∃ k, rendererRef (refs w) = Some k ∧ S k = length (renderers (heap w)) ∧
       mountChildren (browser w) = [k].
Proof.
  intros Hr Hph. apply reachable_scene in Hr. unfold SceneInvariant in Hr.
  destruct (phase (state w)); [done| |].
  - destruct Hr as [k HS]. exists k.
    split; [apply (si_mounted _ _ HS)|]. split; [|apply HS].
    by destruct (inv_heap _ _ (si_mounted _ _ HS)) as (_ & _ & -> & _).
  - destruct Hr as [k HT]. exists k. split; [apply HT|]. split; [|apply HT].
    by destruct (td_heap _ _ HT) as (_ & _ & -> & _).
Qed.

(** After two constructions. *)
Lemma one_canvas_witness :
  ∃ k, rendererRef (refs reshaped_page) = Some k ∧
       S k = length (renderers (heap reshaped_page)) ∧
       mountChildren (browser reshaped_page) = [k].
Proof.
  apply (one_canvas reshaped_page).
  - exact reshaped_page_reachable.
  - vm_compute. discriminate.
Defined.

(** X2: in every reachable world, while the component is mounted the window
    has exactly one resize listener, the [handleResize] of the construction
    on screen (the one whose cleanup is pending); before the first render
    and after the unmount it has none. *)
Theorem one_resize_listener (w : World) :
  reachable w →
  match phase (state w) with
  | Mounted =>
      ∃ env, sceneCleanup (state w) = Some env ∧ resizeListeners (browser w) = [env]
  | _ => resizeListeners (browser w) = []
  end.
Proof.
  intros Hr. apply reachable_scene in Hr. unfold SceneInvariant in Hr.
  destruct (phase (state w)).
  - by destruct Hr as (store & size & dpr & ->).
  - destruct Hr as [k HS]. exists (env_of k).
    split; [apply (si_mounted _ _ HS)|apply HS].
  - destruct Hr as [k HT]. apply HT.
Qed.

(** After two constructions. *)
Lemma one_resize_listener_witness :
  match phase (state reshaped_page) with
  | Mounted =>
      ∃ env, sceneCleanup (state reshaped_page) = Some env ∧
             resizeListeners (browser reshaped_page) = [env]
  | _ => resizeListeners (browser reshaped_page) = []
  end.
Proof. apply (one_resize_listener reshaped_page). exact reshaped_page_reachable. Defined.

(** X3: the three preferences survive a reload.  From every reachable world
    in which the component has been mounted, a fresh page over the same
    store, whatever its size and pixel ratio, mounts without throwing with
    the same selected shape, the same wireframe flag and the same auto-rotate
    flag. *)
Theorem reload_restores_preferences (w : World) (size : number * number) (dpr : number) :
  reachable w → phase (state w) ≠ NotMounted →
  ∃ w', run [Mount] (boot (localStorage (browser w)) size dpr) = (Normal (), w') ∧
        geometryKey (state w') = geometryKey (state w) ∧
        wireframe (state w') = wireframe (state w) ∧
        autoRotate (state w') = autoRotate (state w).
Proof.
  intros Hr Hph.
  assert (Hsaved : preferences_saved w ∧ geometryKey (state w) ∈ Object_keys GEOMETRIES).
  { apply reachable_scene in Hr. unfold SceneInvariant in Hr.
    destruct (phase (state w)); [done| |].
    - destruct Hr as [k HS]. split; [apply HS|apply (inv_key _ _ (si_mounted _ _ HS))].
    - destruct Hr as [k HT]. split; apply HT. }
  destruct Hsaved as ((Hk & Hw & Ha) & Hkey).
  destruct (mount_spec (boot (localStorage (browser w)) size dpr))
    as (w' & info & Hrun & _ & Hstate & _).
  exists w'. split; [by erewrite run_cons|].
  rewrite Hstate. simpl.
  by rewrite (initial_geometryKey_saved _ _ Hk Hkey), (initial_wireframe_saved _ _ Hw),
    (initial_autoRotate_saved _ _ Ha).
Qed.

(** The store that [customized_page] leaves, reloaded at 1024 by 768. *)
Lemma reload_restores_preferences_witness :
  ∃ w', run [Mount] (boot (localStorage (browser customized_page)) (1024, 768)%float 2%float)
          = (Normal (), w') ∧
        geometryKey (state w') = geometryKey (state customized_page) ∧
        wireframe (state w') = wireframe (state customized_page) ∧
        autoRotate (state w') = autoRotate (state customized_page).
Proof.
  apply (reload_restores_preferences customized_page).
  - exact customized_page_reachable.
  - vm_compute. discriminate.
Defined.

(** X4: in every reachable world with the component mounted, the mesh in
    [currentMeshRef] shows the selected shape: its geometry is the one that
    the catalogue entry of [geometryKey] creates, its material has the colour
    of that entry, and the wireframe flag of the material is the wireframe
    state. *)
Theorem shown_shape_is_selected (w : World) :
  reachable w → phase (state w) = Mounted →
  ∃ mesh m info geometry mat,
    currentMeshRef (refs w) = Some mesh ∧ meshes (heap w) !! mesh = Some m ∧
    GEOMETRIES_get GEOMETRIES (geometryKey (state w)) = Some info ∧
    geometries (heap w) !! mesh_geometry m = Some geometry ∧
    materials (heap w) !! mesh_material m = Some mat ∧
    geometry = create info ∧ mat_color mat = color info ∧
    mat_wireframe mat = wireframe (state w).
Proof.
  intros Hr Hph. destruct (reachable_SceneInv w Hr Hph) as [k HS].
  destruct (inv_mesh _ _ (si_mounted _ _ HS)) as (m & Hm & Hg & Hma).
  destruct (si_shape _ _ HS) as (info & mat & Hinfo & Hgeo & Hmat & Hcol & Hwf).
  exists k, m, info, (create info), mat. rewrite Hg, Hma.
  split; [apply (si_mounted _ _ HS)|]. done.
Qed.

(** The sphere of [reshaped_page]. *)
Lemma shown_shape_is_selected_witness :
  ∃ mesh m info geometry mat,
    currentMeshRef (refs reshaped_page) = Some mesh ∧
    meshes (heap reshaped_page) !! mesh = Some m ∧
    GEOMETRIES_get GEOMETRIES (geometryKey (state reshaped_page)) = Some info ∧
    geometries (heap reshaped_page) !! mesh_geometry m = Some geometry ∧
    materials (heap reshaped_page) !! mesh_material m = Some mat ∧
    geometry = create info ∧ mat_color mat = color info ∧
    mat_wireframe mat = wireframe (state reshaped_page).
Proof.
  apply (shown_shape_is_selected reshaped_page).
  - exact reshaped_page_reachable.
  - vm_compute. reflexivity.
Defined.

(** X5: in every reachable world in which the component has been mounted,
    [k] being the number of the last construction: while mounted, the scene
    in [sceneRef] is scene [k] and holds, on the background 0x0a0a0a, the
    ambient light, the directional light at (5, 5, 5), the mesh in
    [currentMeshRef], the axes and the grid, in this order and nothing else;
    every earlier scene, and after the unmount also the last one, is empty
    ([scene.clear()], line 195) and keeps its background. *)
Theorem scene_contents (w : World) :
  reachable w → phase (state w) ≠ NotMounted →
  ∃ k, length (scenes (heap w)) = S k ∧
       (∀ i, i < k → scenes (heap w) !! i = Some (cleared (scene_of i))) ∧
       match phase (state w) with
       | Mounted =>
           sceneRef (refs w) = Some k ∧ currentMeshRef (refs w) = Some k ∧
           scenes (heap w) !! k = Some (scene_of k)
       | _ => scenes (heap w) !! k = Some (cleared (scene_of k))
       end.
Proof.
  intros Hr Hph. apply reachable_scene in Hr. unfold SceneInvariant in Hr.
  destruct (phase (state w)); [done| |].
  - destruct Hr as [k HS]. exists k.
    split; [apply (inv_heap _ _ (si_mounted _ _ HS))|]. split; [apply HS|].
    split; [apply HS|]. split; [apply (si_mounted _ _ HS)|apply HS].
  - destruct Hr as [k HT]. exists k. split; [apply (td_heap _ _ HT)|].
    split; [|by apply HT]. intros i Hi. apply HT. lia.
Qed.

(** The two scenes of [reshaped_page]. *)
Lemma scene_contents_witness :
  ∃ k, length (scenes (heap reshaped_page)) = S k ∧
       (∀ i, i < k → scenes (heap reshaped_page) !! i = Some (cleared (scene_of i))) ∧
       match phase (state reshaped_page) with
       | Mounted =>
           sceneRef (refs reshaped_page) = Some k ∧
           currentMeshRef (refs reshaped_page) = Some k ∧
           scenes (heap reshaped_page) !! k = Some (scene_of k)
       | _ => scenes (heap reshaped_page) !! k = Some (cleared (scene_of k))
       end.
Proof.
  apply (scene_contents reshaped_page).
  - exact reshaped_page_reachable.
  - vm_compute. discriminate.
Defined.

(** X6: in every reachable world, the camera and the renderer of every
    construction are in step: the aspect ratio of the camera is the width of
    the renderer over its height (as binary64 quotient), the projection
    matrix is the one of that aspect ratio, and field of view 75, near 0.1,
    far 1000, position (3, 2, 4), antialiasing and the pixel ratio of the
    device are as the construction set them. *)
Theorem camera_in_step (w : World) (i : nat) (cam : PerspectiveCamera)
    (rd : WebGLRenderer) :
  reachable w →
  cameras (heap w) !! i = Some cam → renderers (heap w) !! i = Some rd →
  cam_aspect cam = (rd_width rd / rd_height rd)%float ∧
  cam_projection cam = cam_aspect cam ∧
  cam_fov cam = 75%float ∧ cam_near cam = 0.1%float ∧ cam_far cam = 1000%float ∧
  cam_position cam = {| vx := 3; vy := 2; vz := 4 |} ∧
  rd_antialias rd = true ∧ rd_pixelRatio rd = devicePixelRatio (browser w).
Proof.
  intros Hr Hc Hrd. apply reachable_scene in Hr. unfold SceneInvariant in Hr.
  destruct (phase (state w)).
  - destruct Hr as (store & size & dpr & ->). done.
  - destruct Hr as [k HS]. by apply (si_in_step _ _ HS i).
  - destruct Hr as [k HT]. by apply (td_in_step _ _ HT i).
Qed.

(** The camera and the renderer of [resized_page]. *)
Lemma camera_in_step_witness :
  cam_aspect resized_camera = (rd_width resized_renderer / rd_height resized_renderer)%float ∧
  cam_projection resized_camera = cam_aspect resized_camera ∧
  cam_fov resized_camera = 75%float ∧ cam_near resized_camera = 0.1%float ∧
  cam_far resized_camera = 1000%float ∧
  cam_position resized_camera = {| vx := 3; vy := 2; vz := 4 |} ∧
  rd_antialias resized_renderer = true ∧
  rd_pixelRatio resized_renderer = devicePixelRatio (browser resized_page).
Proof.
  apply (camera_in_step resized_page 0).
  - exact resized_page_reachable.
  - vm_compute. reflexivity.
  - vm_compute. reflexivity.
Defined.

(** X7: in every reachable world with the component mounted, a resize of the
    window to any measured size completes without throwing and changes, apart
    from the viewport, exactly two objects: the camera in [cameraRef] gets
    the aspect ratio [w / h] and the projection matrix of it, and the renderer
    in [rendererRef] the size [w] by [h], where [w] is the measured width, or
    800 when that is 0 or NaN, and [h] the measured height, or 600.  Cameras
    and renderers of earlier constructions, the store, the refs, the state and
    the list of calls are as before. *)
Theorem resize_updates_current (w : World) (vw vh : number) :
  reachable w → phase (state w) = Mounted →
  ∃ k, cameraRef (refs w) = Some k ∧ rendererRef (refs w) = Some k ∧
       k < length (cameras (heap w)) ∧ k < length (renderers (heap w)) ∧
       dispatch (WindowResize vw vh) w =
       (Normal (),
        {| browser := map_viewport (λ _, (vw, vh)) (browser w);
           heap :=
             map_renderers
               (insert k {| rd_antialias := true; rd_width := or_else vw 800;
                            rd_height := or_else vh 600;
                            rd_pixelRatio := devicePixelRatio (browser w) |})
               (map_cameras
                  (insert k {| cam_fov := 75;
                               cam_aspect := or_else vw 800 / or_else vh 600;
                               cam_near := 0.1; cam_far := 1000;
                               cam_position := {| vx := 3; vy := 2; vz := 4 |};
                               cam_projection := or_else vw 800 / or_else vh 600 |})
                  (heap w));
           refs := refs w; state := state w; calls := calls w |}).
Proof.
  intros Hr Hph. destruct (reachable_SceneInv w Hr Hph) as [k HS]. exists k.
  destruct (inv_heap _ _ (si_mounted _ _ HS)) as (_ & Lca & Lre & _).
  split; [apply HS|]. split; [apply (si_mounted _ _ HS)|].
  split; [lia|]. split; [lia|].
  rewrite dispatch_Mounted by done. rewrite (windowResize_run w k) by done.
  destruct (lookup_lt_is_Some_2 (cameras (heap w)) k) as [cam Hcam]; [lia|].
  destruct (lookup_lt_is_Some_2 (renderers (heap w)) k) as [rd Hrd]; [lia|].
  destruct (si_in_step _ _ HS k cam rd Hcam Hrd) as (_ & _ & Hf & Hn & Hfa & Hp & Ha & Hd).
  unfold map_renderers, map_cameras. simpl.
  rewrite (alter_lookup_insert _ _ _ _ Hcam), (alter_lookup_insert _ _ _ _ Hrd).
  by rewrite Hf, Hn, Hfa, Hp, Ha, Hd.
Qed.

(** A resize of [reshaped_page] to 1024 by 0. *)
Lemma resize_updates_current_witness :
  ∃ k, cameraRef (refs reshaped_page) = Some k ∧ rendererRef (refs reshaped_page) = Some k ∧
       k < length (cameras (heap reshaped_page)) ∧
       k < length (renderers (heap reshaped_page)) ∧
       dispatch (WindowResize 1024 0) reshaped_page =
       (Normal (),
        {| browser := map_viewport (λ _, (1024, 0)%float) (browser reshaped_page);
           heap :=
             map_renderers
               (insert k {| rd_antialias := true; rd_width := or_else 1024 800;
                            rd_height := or_else 0 600;
                            rd_pixelRatio := devicePixelRatio (browser reshaped_page) |})
               (map_cameras
                  (insert k {| cam_fov := 75;
                               cam_aspect := or_else 1024 800 / or_else 0 600;
                               cam_near := 0.1; cam_far := 1000;
                               cam_position := {| vx := 3; vy := 2; vz := 4 |};
                               cam_projection := or_else 1024 800 / or_else 0 600 |})
                  (heap reshaped_page));
           refs := refs reshaped_page; state := state reshaped_page;
           calls := calls reshaped_page |}).
Proof.
  apply (resize_updates_current reshaped_page).
  - exact reshaped_page_reachable.
  - vm_compute. reflexivity.
Defined.

(** X8: in every reachable world with the component mounted, after a resize
    to any measured size the projection matrix of the camera in [cameraRef]
    is the one of its aspect ratio, and that aspect ratio is NaN exactly when
    the measured width and the measured height are both infinite; a width or
    height of zero or NaN never makes it NaN. *)
Theorem resize_aspect_nan (w : World) (vw vh : number) :
  reachable w → phase (state w) = Mounted →
  ∃ k w' cam,
    cameraRef (refs w) = Some k ∧
    dispatch (WindowResize vw vh) w = (Normal (), w') ∧
    cameras (heap w') !! k = Some cam ∧
    cam_projection cam = cam_aspect cam ∧
    (is_nan (cam_aspect cam) = true ↔ is_infinity vw = true ∧ is_infinity vh = true).
Proof.
  intros Hr Hph. destruct (reachable_SceneInv w Hr Hph) as [k HS]. exists k.
  destruct (inv_heap _ _ (si_mounted _ _ HS)) as (_ & Lca & _).
  destruct (lookup_lt_is_Some_2 (cameras (heap w)) k) as [cam Hcam]; [lia|].
  rewrite dispatch_Mounted by done. rewrite (windowResize_run w k) by done.
  eexists _, _. split; [apply HS|]. split; [reflexivity|]. simpl.
  rewrite list_lookup_alter_eq, Hcam. simpl.
  split; [reflexivity|]. split; [reflexivity|]. apply resize_aspect_nan_iff.
Qed.

(** A resize of [mounted_page] to 0 by NaN. *)
Lemma resize_aspect_nan_witness :
  ∃ k w' cam,
    cameraRef (refs mounted_page) = Some k ∧
    dispatch (WindowResize 0 nan) mounted_page = (Normal (), w') ∧
    cameras (heap w') !! k = Some cam ∧
    cam_projection cam = cam_aspect cam ∧
    (is_nan (cam_aspect cam) = true ↔ is_infinity 0 = true ∧ is_infinity nan = true).
Proof.
  apply (resize_aspect_nan mounted_page 0 nan).
  - exact mounted_page_reachable.
  - vm_compute. reflexivity.
Defined.

(** X9: whatever the store holds, the first render completes without
    throwing and leaves one mesh, in [currentMeshRef]; its rotation is the
    rotation restored from the store (the default one if none is) when
    auto-rotate starts off, and that rotation advanced by one step when
    auto-rotate starts on, because the effect runs the loop body once itself
    (line 173); in that case the store already holds the snapshot of the
    advanced rotation.  The effect has made three calls: it has requested
    frame 1, rendered once and added the resize listener; one callback is
    queued. *)
Theorem first_render (store : gmap string string) (size : number * number)
    (dpr : number) :
  ∃ w, run [Mount] (boot store size dpr) = (Normal (), w) ∧
       currentMeshRef (refs w) = Some 0 ∧ length (meshes (heap w)) = 1 ∧
       rotation_at w 0 =
         Some ((if initial_autoRotate store then advance else id)
                 (default Euler_default (stored_rotation (store !! "meshRotation")))) ∧
       localStorage (browser w) !! "meshRotation" =
         (if initial_autoRotate store then
            Some (rotationSnapshot
                    (advance (default Euler_default
                                (stored_rotation (store !! "meshRotation")))))
          else store !! "meshRotation") ∧
       calls w = [RequestAnimationFrame 1 (env_of 0); RendererRender 0 0 0;
                  AddResizeListener (env_of 0)] ∧
       frameCallbacks (browser w) = [(1, env_of 0)].
Proof.
  destruct (GEOMETRIES_get_Some _ (initial_geometryKey_valid store)) as [info Hinfo].
  eexists. split.
  { erewrite run_cons; [reflexivity|].
    unfold dispatch, mbind, JS_bind, gets. simpl. by apply mount_boot. }
  unfold rotation_at. simpl. repeat split.
  destruct (initial_autoRotate store); simpl.
  - by rewrite lookup_insert_eq.
  - by rewrite !lookup_insert_ne.
Qed.

(** X10: in every reachable world with the component mounted, a click on the
    button of another shape completes without throwing, selects that shape
    and puts a new mesh in [currentMeshRef]; the rotation of the new mesh is
    the one restored from the store as it is at the click (not read off the
    old mesh), advanced by one step when auto-rotate is on; the old mesh
    keeps its rotation. *)
Theorem shape_change_rotation (w : World) (key : string) :
  reachable w → phase (state w) = Mounted →
  key ∈ Object_keys GEOMETRIES → key ≠ geometryKey (state w) →
  ∃ k w',
    currentMeshRef (refs w) = Some k ∧
    dispatch (ClickShape key) w = (Normal (), w') ∧
    geometryKey (state w') = key ∧
    currentMeshRef (refs w') = Some (S k) ∧
    rotation_at w' (S k) =
      Some ((if autoRotate (state w) then advance else id)
              (default Euler_default
                 (stored_rotation (localStorage (browser w) !! "meshRotation")))) ∧
    rotation_at w' k = rotation_at w k.
Proof.
  intros Hr Hph Hkey Hne. destruct (reachable_SceneInv w Hr Hph) as [k HS]. exists k.
  destruct (GEOMETRIES_get_Some key Hkey) as [info Hinfo].
  assert (Heq : String.eqb key (geometryKey (state w)) = false) by by apply String.eqb_neq.
  eexists. split; [apply (si_mounted _ _ HS)|].
  rewrite dispatch_Mounted by done. unfold when. rewrite bool_decide_true by done.
  rewrite (setGeometryKey_run w k key info) by done.
  split; [reflexivity|].
  destruct (inv_heap _ _ (si_mounted _ _ HS)) as (_ & _ & _ & _ & _ & Lme).
  rewrite <- (inv_autoRotateRef _ _ (si_mounted _ _ HS)).
  unfold rotation_at. simpl. split; [done|]. split; [done|]. split.
  - rewrite list_lookup_middle by done. by destruct_world w.
  - rewrite lookup_app_l by lia. done.
Qed.

(** A click on the cone in [ticked_page]. *)
Lemma shape_change_rotation_witness :
  ∃ k w',
    currentMeshRef (refs ticked_page) = Some k ∧
    dispatch (ClickShape "cone") ticked_page = (Normal (), w') ∧
    geometryKey (state w') = "cone" ∧
    currentMeshRef (refs w') = Some (S k) ∧
    rotation_at w' (S k) =
      Some ((if autoRotate (state ticked_page) then advance else id)
              (default Euler_default
                 (stored_rotation (localStorage (browser ticked_page) !! "meshRotation")))) ∧
    rotation_at w' k = rotation_at ticked_page k.
Proof.
  apply (shape_change_rotation ticked_page "cone").
  - exact ticked_page_reachable.
  - vm_compute. reflexivity.
  - vm_compute. repeat constructor.
  - vm_compute. discriminate.
Defined.

(** X11: in every reachable world, no renderer has been rendered with after
    it was disposed: in the list of calls, every [render] of a renderer comes
    before every [dispose] of it. *)
Theorem no_render_after_dispose (w : World) :
  reachable w → never_renders_disposed (calls w).
Proof.
  intros Hr. apply reachable_scene in Hr. unfold SceneInvariant in Hr.
  destruct (phase (state w)).
  - destruct Hr as (store & size & dpr & ->). apply never_renders_disposed_nil.
  - destruct Hr as [k HS]. apply (si_renders _ _ HS).
  - destruct Hr as [k HT]. apply (td_renders _ _ HT).
Qed.

(** After two constructions and the unmount. *)
Lemma no_render_after_dispose_witness : never_renders_disposed (calls switched_page).
Proof. apply (no_render_after_dispose switched_page). exact switched_page_reachable. Defined.

(** X12: in every reachable world after the unmount, no code of the component
    runs any more: whatever events follow (display refreshes and resizes of
    the window among them), they complete without throwing, no callback and
    no listener is registered, and the store, the canvas in the mount
    element, the objects of three.js, the refs, the state and the list of
    calls stay as the unmount left them. *)
Theorem unmounted_is_inert (w : World) (evs : list Event) :
  reachable w → phase (state w) = Unmounted →
  ∃ w', run evs w = (Normal (), w') ∧
        localStorage (browser w') = localStorage (browser w) ∧
        mountChildren (browser w') = mountChildren (browser w) ∧
        frameCallbacks (browser w') = [] ∧ resizeListeners (browser w') = [] ∧
        heap w' = heap w ∧ refs w' = refs w ∧ state w' = state w ∧ calls w' = calls w.
Proof.
  intros Hr Hph. destruct (reachable_TornDown w Hr Hph) as [k HT].
  by apply (run_Unmounted evs w k).
Qed.

(** Refreshes and resizes after [switched_page]. *)
Lemma unmounted_is_inert_witness :
  ∃ w', run [AnimationFrame; WindowResize 1024 768; AnimationFrame; WindowResize 0 0;
             AnimationFrame] switched_page
          = (Normal (), w') ∧
        localStorage (browser w') = localStorage (browser switched_page) ∧
        mountChildren (browser w') = mountChildren (browser switched_page) ∧
        frameCallbacks (browser w') = [] ∧ resizeListeners (browser w') = [] ∧
        heap w' = heap switched_page ∧ refs w' = refs switched_page ∧
        state w' = state switched_page ∧ calls w' = calls switched_page.
Proof.
  apply (unmounted_is_inert switched_page).
  - exact switched_page_reachable.
  - vm_compute. reflexivity.
Defined.

(** X13: in every reachable world with the component mounted, two clicks on
    a switch undo each other.  Two clicks on the auto-rotate switch leave the
    world exactly as it was.  Two clicks on the wireframe switch leave it as
    it was but for the version of the material of the mesh on screen, which
    [needsUpdate] has incremented twice. *)
Theorem switches_toggle_back (w : World) :
  reachable w → phase (state w) = Mounted →
  run [ClickAutoRotate; ClickAutoRotate] w = (Normal (), w) ∧
  ∃ mesh m mat,
    currentMeshRef (refs w) = Some mesh ∧ meshes (heap w) !! mesh = Some m ∧
    materials (heap w) !! mesh_material m = Some mat ∧
    run [ClickWireframe; ClickWireframe] w =
    (Normal (),
     map_heap
       (map_materials
          (insert (mesh_material m)
             {| mat_color := mat_color mat; mat_wireframe := mat_wireframe mat;
                mat_version := S (S (mat_version mat)) |})) w).
Proof.
  intros Hr Hph. destruct (reachable_SceneInv w Hr Hph) as [k HS].
  pose proof (si_mounted _ _ HS) as HI.
  destruct (si_saved _ _ HS) as (_ & Hsw & Hsa).
  split.
  - erewrite run_cons;
      [|rewrite dispatch_Mounted by done; apply toggleAutoRotate_spec].
    erewrite run_cons;
      [|rewrite dispatch_Mounted by (by destruct_world w); apply toggleAutoRotate_spec].
    pose proof (inv_autoRotateRef _ _ HI) as Hre.
    destruct_world w. simpl in *. subst.
    unfold run, for_each. js_run.
    rewrite !negb_involutive, insert_insert_eq, insert_id by done. reflexivity.
  - destruct (inv_mesh _ _ HI) as (m & Hm & _ & Hma).
    destruct (si_shape _ _ HS) as (info & mat & _ & _ & Hmat & _ & Hwf).
    exists k, m, mat. split; [apply HI|]. split; [done|].
    rewrite Hma. split; [done|].
    erewrite run_cons;
      [|rewrite dispatch_Mounted by done;
        apply (toggleWireframe_spec w k m); [apply HI|done]].
    erewrite run_cons;
      [|rewrite dispatch_Mounted by (by destruct_world w);
        apply (toggleWireframe_spec _ k m);
        [pose proof (inv_currentMeshRef _ _ HI); by destruct_world w|
         by destruct_world w]].
    pose proof (inv_wireframeRef _ _ HI) as Hre.
    destruct_world w. simpl in *. subst.
    unfold run, for_each. js_run.
    rewrite !negb_involutive, insert_insert_eq, insert_id by done.
    rewrite list_alter_alter_eq, (alter_lookup_insert _ _ _ _ Hmat). reflexivity.
Qed.

(** The switches of [reshaped_page]. *)
Lemma switches_toggle_back_witness :
  run [ClickAutoRotate; ClickAutoRotate] reshaped_page = (Normal (), reshaped_page) ∧
  ∃ mesh m mat,
    currentMeshRef (refs reshaped_page) = Some mesh ∧
    meshes (heap reshaped_page) !! mesh = Some m ∧
    materials (heap reshaped_page) !! mesh_material m = Some mat ∧
    run [ClickWireframe; ClickWireframe] reshaped_page =
    (Normal (),
     map_heap
       (map_materials
          (insert (mesh_material m)
             {| mat_color := mat_color mat; mat_wireframe := mat_wireframe mat;
                mat_version := S (S (mat_version mat)) |})) reshaped_page).
Proof.
  apply (switches_toggle_back reshaped_page).
  - exact reshaped_page_reachable.
  - vm_compute. reflexivity.
Defined.

(** X14: in every reachable world with the component mounted and auto-rotate
    on, pausing, any number [N] of display refreshes and resuming complete
    without throwing and leave every object of three.js (the rotation of the
    mesh with them), the state and the store as they were before the pause,
    with the loop reading auto-rotate as on again. *)
Theorem pause_keeps_rotation (w : World) (N : nat) :
  reachable w → phase (state w) = Mounted → autoRotate (state w) = true →
  ∃ w', run (ClickAutoRotate :: replicate N AnimationFrame ++ [ClickAutoRotate]) w
          = (Normal (), w') ∧
        heap w' = heap w ∧ state w' = state w ∧
        localStorage (browser w') = localStorage (browser w) ∧
        autoRotateRef (refs w') = true.
Proof.
  intros Hr Hph Hauto. destruct (reachable_SceneInv w Hr Hph) as [k HS].
  destruct (si_saved _ _ HS) as (_ & _ & Hsa).
  destruct (SceneInv_toggleAutoRotate w k HS) as (w1 & Hrun1 & HS1 & Hph1).
  pose proof Hrun1 as Hw1. rewrite toggleAutoRotate_spec in Hw1. injection Hw1 as Hw1.
  destruct (ticks_idle N w1 k (si_mounted _ _ HS1))
    as (w2 & Hrun2 & HI2 & Hst2 & Hheap2 & Hls2 & _).
  { rewrite <- Hw1. simpl. by rewrite Hauto. }
  erewrite run_cons; [|by rewrite dispatch_Mounted].
  rewrite (run_app _ _ _ _ Hrun2).
  erewrite run_cons;
    [|rewrite dispatch_Mounted by congruence; apply toggleAutoRotate_spec].
  eexists. split; [reflexivity|]. simpl.
  rewrite Hst2, Hheap2, Hls2, <- Hw1. simpl. rewrite Hauto. simpl.
  split; [done|]. split; [destruct_world w; simpl in *; by subst|].
  split; [|done]. rewrite insert_insert_eq. apply insert_id. by rewrite Hsa, Hauto.
Qed.

(** A pause of five refreshes in [ticked_page]. *)
Lemma pause_keeps_rotation_witness :
  ∃ w', run (ClickAutoRotate :: replicate 5 AnimationFrame ++ [ClickAutoRotate]) ticked_page
          = (Normal (), w') ∧
        heap w' = heap ticked_page ∧ state w' = state ticked_page ∧
        localStorage (browser w') = localStorage (browser ticked_page) ∧
        autoRotateRef (refs w') = true.
Proof.
  apply (pause_keeps_rotation ticked_page 5).
  - exact ticked_page_reachable.
  - vm_compute. reflexivity.
  - vm_compute. reflexivity.
Defined.

(** X15: in every reachable world with the component mounted, the page shows
    one button per key of the catalogue, in the order of the catalogue, and
    exactly one of them in the colours of the selected button: the button of
    the selected shape. *)
Theorem one_button_highlighted (w : World) :
  reachable w → phase (state w) = Mounted →
  (shapeButtons (render (state w))).*1 = Object_keys GEOMETRIES ∧
  highlighted (render (state w)) = [geometryKey (state w)].
Proof.
  intros Hr Hph. destruct (reachable_SceneInv w Hr Hph) as [k HS]. split.
  - reflexivity.
  - apply highlighted_selected, (inv_key _ _ (si_mounted _ _ HS)).
Qed.

(** The buttons of [reshaped_page]. *)
Lemma one_button_highlighted_witness :
  (shapeButtons (render (state reshaped_page))).*1 = Object_keys GEOMETRIES ∧
  highlighted (render (state reshaped_page)) = [geometryKey (state reshaped_page)].
Proof.
  apply (one_button_highlighted reshaped_page).
  - exact reshaped_page_reachable.
  - vm_compute. reflexivity.
Defined.

(** X16: in every reachable world with the component mounted, the click
    handler of every catalogue button on the page is the shape click of the
    button's key; it completes without throwing, leaves the component mounted
    with that key selected, and on the page rendered next that button, and
    only that one, is shown as selected. *)
Theorem click_selects (w : World) (key : string) (b : Button) :
  reachable w → phase (state w) = Mounted →
  (key, b) ∈ shapeButtons (render (state w)) →
  onClick b w = dispatch (ClickShape key) w ∧
  ∃ w', onClick b w = (Normal (), w') ∧ phase (state w') = Mounted ∧
        geometryKey (state w') = key ∧ highlighted (render (state w')) = [key].
Proof.
  intros Hr Hph Hin. destruct (reachable_SceneInv w Hr Hph) as [k HS].
  destruct (shapeButtons_elem _ _ _ Hin) as (Hkey & ->).
  split.
  { rewrite dispatch_Mounted by done. unfold when. by rewrite bool_decide_true. }
  destruct (String.eqb key (geometryKey (state w))) eqn:Heq.
  - rewrite setGeometryKey_same by done. exists w. split; [done|]. split; [done|].
    apply String.eqb_eq in Heq. subst key. split; [done|].
    by apply highlighted_selected.
  - destruct (SceneInv_setGeometryKey w k key Hkey Heq HS) as (w' & Hrun & HS' & Hph' & Hkey').
    exists w'. split; [done|]. split; [congruence|]. split; [done|].
    subst key. by apply highlighted_selected.
Qed.

(** A click on the torus in [mounted_page]. *)
Lemma click_selects_witness :
  onClick torus_button mounted_page = dispatch (ClickShape "torus") mounted_page ∧
  ∃ w', onClick torus_button mounted_page = (Normal (), w') ∧
        phase (state w') = Mounted ∧
        geometryKey (state w') = "torus" ∧ highlighted (render (state w')) = ["torus"].
Proof.
  apply (click_selects mounted_page "torus" torus_button).
  - exact mounted_page_reachable.
  - vm_compute. reflexivity.
  - apply list_elem_of_fmap.
    exists ("torus", {| name := "Toro"; color := "#FF6B6B";
                        create := TorusGeometry 1 0.3 16 64 |}).
    split; [|vm_compute; repeat constructor].
    replace (geometryKey (state mounted_page)) with "box" by (vm_compute; reflexivity).
    reflexivity.
Defined.

(** X17: in every reachable world with the component mounted, the labels of
    the two switches say what the scene does: the wireframe switch offers the
    solid mode exactly when the material of the mesh on screen is drawn as
    wireframe, and the auto-rotate switch offers the pause exactly when the
    loop reads auto-rotate as on. *)
Theorem switch_labels_match_scene (w : World) :
  reachable w → phase (state w) = Mounted →
  ∃ mesh m mat,
    currentMeshRef (refs w) = Some mesh ∧ meshes (heap w) !! mesh = Some m ∧
    materials (heap w) !! mesh_material m = Some mat ∧
    btn_label (wireframeButton (render (state w))) =
      (if mat_wireframe mat then "🔲 Sólido" else "🔳 Wireframe") ∧
    btn_label (autoRotateButton (render (state w))) =
      (if autoRotateRef (refs w) then "⏸️ Pausar Rotación" else "▶️ Reanudar Rotación").
Proof.
  intros Hr Hph. destruct (reachable_SceneInv w Hr Hph) as [k HS].
  pose proof (si_mounted _ _ HS) as HI.
  destruct (inv_mesh _ _ HI) as (m & Hm & _ & Hma).
  destruct (si_shape _ _ HS) as (info & mat & _ & _ & Hmat & _ & Hwf).
  exists k, m, mat. split; [apply HI|]. split; [done|]. rewrite Hma. split; [done|].
  simpl. by rewrite Hwf, (inv_autoRotateRef _ _ HI).
Qed.

(** The switches of [idle_page]. *)
Lemma switch_labels_match_scene_witness :
  ∃ mesh m mat,
    currentMeshRef (refs idle_page) = Some mesh ∧ meshes (heap idle_page) !! mesh = Some m ∧
    materials (heap idle_page) !! mesh_material m = Some mat ∧
    btn_label (wireframeButton (render (state idle_page))) =
      (if mat_wireframe mat then "🔲 Sólido" else "🔳 Wireframe") ∧
    btn_label (autoRotateButton (render (state idle_page))) =
      (if autoRotateRef (refs idle_page) then "⏸️ Pausar Rotación"
       else "▶️ Reanudar Rotación").
Proof.
  apply (switch_labels_match_scene idle_page).
  - exact idle_page_reachable.
  - vm_compute. reflexivity.
Defined.

(** X18: the component leaves the entries of the store that are not its own
    alone.  From a fresh page, every sequence of events completes without
    throwing, and under every key other than [geometryKey], [wireframe],
    [autoRotate] and [meshRotation] the store holds in the end what it held
    at the start (nothing, if it held nothing). *)
Theorem foreign_keys_untouched (store : gmap string string) (size : number * number)
    (dpr : number) (evs : list Event) (key : string) :
  key ∉ ["geometryKey"; "wireframe"; "autoRotate"; "meshRotation"] →
  ∃ w, run evs (boot store size dpr) = (Normal (), w) ∧
       localStorage (browser w) !! key = store !! key.
Proof.
  intros Hkey. apply (run_store evs (boot store size dpr) key Hkey).
  by exists store, size, dpr.
Qed.

(** The entry [visits] over a session. *)
Lemma foreign_keys_untouched_witness :
  ∃ w, run [Mount; AnimationFrame; ClickShape "ring"; ClickWireframe; ClickAutoRotate;
            Unmount] (boot visited_store (800, 600)%float 1%float) = (Normal (), w) ∧
       localStorage (browser w) !! "visits" = visited_store !! "visits".
Proof.
  apply (foreign_keys_untouched visited_store).
  vm_compute. intros H. repeat (apply elem_of_cons in H as [H|H]; [discriminate|]).
  by apply elem_of_nil in H.
Defined.

(** X19: in every reachable world with the component mounted, a display
    refresh completes without throwing, requests exactly one next frame and
    renders exactly once, with the renderer, the scene and the camera that
    the refs hold: the loop that runs is the one of the construction on
    screen.  Afterwards [animRef] holds the handle of the frame just
    requested, and its callback is the only one queued. *)
Theorem frame_renders_current (w : World) :
  reachable w → phase (state w) = Mounted →
  ∃ k w',
    sceneRef (refs w) = Some k ∧ cameraRef (refs w) = Some k ∧
    rendererRef (refs w) = Some k ∧
    dispatch AnimationFrame w = (Normal (), w') ∧
    calls w' =
      calls w ++ [RequestAnimationFrame (S (frameHandle (browser w))) (env_of k);
                  RendererRender k k k] ∧
    animRef (refs w') = Some (S (frameHandle (browser w))) ∧
    frameCallbacks (browser w') = [(S (frameHandle (browser w)), env_of k)].
Proof.
  intros Hr Hph. destruct (reachable_SceneInv w Hr Hph) as [k HS]. exists k.
  pose proof (si_mounted _ _ HS) as HI.
  destruct (inv_mesh _ _ HI) as (m & Hm & _).
  rewrite dispatch_Mounted by done.
  destruct (autoRotateRef (refs w)) eqn:Hrot.
  - rewrite (tick_rotating w k m); [|apply HI|done|apply HI|done].
    eexists. split; [apply HS|]. split; [apply HS|]. split; [apply HI|].
    split; [reflexivity|]. by destruct_world w.
  - rewrite (tick_idle w k); [|apply HI|done].
    eexists. split; [apply HS|]. split; [apply HS|]. split; [apply HI|].
    split; [reflexivity|]. by destruct_world w.
Qed.

(** A refresh of [reshaped_page]. *)
Lemma frame_renders_current_witness :
  ∃ k w',
    sceneRef (refs reshaped_page) = Some k ∧ cameraRef (refs reshaped_page) = Some k ∧
    rendererRef (refs reshaped_page) = Some k ∧
    dispatch AnimationFrame reshaped_page = (Normal (), w') ∧
    calls w' =
      calls reshaped_page ++
        [RequestAnimationFrame (S (frameHandle (browser reshaped_page))) (env_of k);
         RendererRender k k k] ∧
    animRef (refs w') = Some (S (frameHandle (browser reshaped_page))) ∧
    frameCallbacks (browser w') = [(S (frameHandle (browser reshaped_page)), env_of k)].
Proof.
  apply (frame_renders_current reshaped_page).
  - exact reshaped_page_reachable.
  - vm_compute. reflexivity.
Defined.

(** X20: a construction takes the measured size of the mount element as it
    is.  In every world whose selected shape is a key of the catalogue, the
    construction completes without throwing; its renderer has the measured
    width and height and its camera the quotient of the two as aspect ratio.
    That aspect ratio is NaN exactly when the width or the height is NaN, or
    both are zero, or both are infinite; and it is infinite when the height
    is zero and the width is neither zero nor NaN. *)
Theorem construct_aspect_nan (w : World) :
  geometryKey (state w) ∈ Object_keys GEOMETRIES →
  ∃ env w' cam rd,
    construct w = (Normal env, w') ∧
    cameras (heap w') !! env_camera env = Some cam ∧
    renderers (heap w') !! env_renderer env = Some rd ∧
    rd_width rd = (viewport (browser w)).1 ∧ rd_height rd = (viewport (browser w)).2 ∧
    cam_aspect cam = (rd_width rd / rd_height rd)%float ∧
    (is_nan (cam_aspect cam) = true ↔
     is_nan (rd_width rd) = true ∨ is_nan (rd_height rd) = true ∨
     (is_zero (rd_width rd) = true ∧ is_zero (rd_height rd) = true) ∨
     (is_infinity (rd_width rd) = true ∧ is_infinity (rd_height rd) = true)) ∧
    (is_zero (rd_height rd) = true → is_zero (rd_width rd) = false →
     is_nan (rd_width rd) = false → is_infinity (cam_aspect cam) = true).
Proof.
  intros Hkey. destruct (GEOMETRIES_get_Some _ Hkey) as [info Hinfo].
  rewrite (construct_spec w info Hinfo).
  eexists _, _, _, _. split; [reflexivity|]. unfold env_at. simpl.
  split; [by apply list_lookup_middle|]. split; [by apply list_lookup_middle|].
  simpl. split; [done|]. split; [done|]. split; [done|].
  split; [apply div_nan_iff|apply div_zero_infinity].
Qed.

(** The construction in [flat_page], 800 by 0. *)
Lemma construct_aspect_nan_witness :
  ∃ env w' cam rd,
    construct flat_page = (Normal env, w') ∧
    cameras (heap w') !! env_camera env = Some cam ∧
    renderers (heap w') !! env_renderer env = Some rd ∧
    rd_width rd = (viewport (browser flat_page)).1 ∧
    rd_height rd = (viewport (browser flat_page)).2 ∧
    cam_aspect cam = (rd_width rd / rd_height rd)%float ∧
    (is_nan (cam_aspect cam) = true ↔
     is_nan (rd_width rd) = true ∨ is_nan (rd_height rd) = true ∨
     (is_zero (rd_width rd) = true ∧ is_zero (rd_height rd) = true) ∨
     (is_infinity (rd_width rd) = true ∧ is_infinity (rd_height rd) = true)) ∧
    (is_zero (rd_height rd) = true → is_zero (rd_width rd) = false →
     is_nan (rd_width rd) = false → is_infinity (cam_aspect cam) = true).
Proof.
  apply (construct_aspect_nan flat_page).
  vm_compute. repeat constructor.
Defined.

(** X21: in every reachable world the six kinds of objects of three.js
    (scenes, cameras, renderers, geometries, materials, meshes) have equally
    many objects, and every event completes without throwing; the first
    render and a click on the button of a shape other than the selected one
    create exactly one object of each kind, and no other event (a display
    refresh, a resize, a click on a switch or on the selected shape, the
    unmount) creates any. *)
Theorem only_constructions_allocate (w : World) (ev : Event) :
  reachable w →
  ∃ n w',
    dispatch ev w = (Normal (), w') ∧
    heap_size w n ∧ heap_size w' (if constructs ev w then S n else n).
Proof.
  intros Hr. apply reachable_scene in Hr.
  destruct (dispatch_scene ev w Hr) as (w' & Hrun & _).
  destruct (dispatch_heap_size ev w w' Hr Hrun) as (n & Hn & Hn').
  by exists n, w'.
Qed.

(** A refresh of [reshaped_page]. *)
Lemma only_constructions_allocate_witness :
  ∃ n w',
    dispatch AnimationFrame reshaped_page = (Normal (), w') ∧
    heap_size reshaped_page n ∧
    heap_size w' (if constructs AnimationFrame reshaped_page then S n else n).
Proof.
  apply (only_constructions_allocate reshaped_page). exact reshaped_page_reachable.
Defined.

(** X22: when the text stored under [meshRotation] parses to a value whose
    [x], [y] and [z] are of type number, whatever else the value holds and in
    whatever order, the construction that follows (lines 106-159) completes
    without throwing and puts exactly these three numbers on its new mesh,
    finite or not. *)
Theorem restore_rotation_numbers (w : World) (s : string) (v : JsValue) :
  localStorage (browser w) !! "meshRotation" = Some s →
  JSON.parse s = Normal v → all_numbers v →
  geometryKey (state w) ∈ Object_keys GEOMETRIES →
  ∃ env w', construct w = (Normal env, w') ∧
            rotation_at w' (length (meshes (heap w))) =
              Some {| rot_x := as_number (component v "x");
                      rot_y := as_number (component v "y");
                      rot_z := as_number (component v "z") |}.
Proof.
  intros Hls Hp (Hx & Hy & Hz) Hkey.
  destruct (GEOMETRIES_get_Some _ Hkey) as [info Hinfo].
  rewrite (construct_spec w info Hinfo).
  eexists _, _. split; [reflexivity|].
  unfold rotation_at. simpl. rewrite list_lookup_middle by done. simpl.
  rewrite Hls. unfold stored_rotation. rewrite Hp.
  unfold component in *. destruct v as [| | | | | |props]; try done.
  unfold rotation_of_value.
  destruct (props_lookup "x" props) as [[]|]; try done.
  destruct (props_lookup "y" props) as [[]|]; try done.
  destruct (props_lookup "z" props) as [[]|]; try done.
Qed.

(** The construction in [foreign_page]. *)
Lemma restore_rotation_numbers_witness :
  ∃ env w', construct foreign_page = (Normal env, w') ∧
            rotation_at w' (length (meshes (heap foreign_page))) =
              Some {| rot_x := as_number (component foreign_value "x");
                      rot_y := as_number (component foreign_value "y");
                      rot_z := as_number (component foreign_value "z") |}.
Proof.
  apply (restore_rotation_numbers foreign_page foreign_rotation foreign_value).
  - vm_compute. reflexivity.
  - vm_compute. reflexivity.
  - vm_compute. done.
  - vm_compute. repeat constructor.
Defined.
